(** * go-grafana: the API-key lifecycle and authentication gate

    A shallow embedding of the API-key core of the go-grafana backend:

    - [hex], [sha256]      the two Go standard-library packages the key
                           material generator calls (encoding/hex and
                           crypto/sha256, the latter after FIPS 180-4);
    - [util]               internal/util/hash.go;
    - [models]             internal/domain/models/api_key.go;
    - [gorm], [repository] the gorm-backed key store of
                           internal/domain/repository/api_key_repository.go;
    - [service]            internal/service/api_key_service.go;
    - [middleware]         internal/middleware/api_key_auth.go.

    Go strings are byte sequences: they are Rocq strings, whose characters
    are the 256 values of a byte.  An [uint] identifier is an [N]; the code
    only compares identifiers with zero and the database alone computes new
    ones.  A [time.Time] is an instant on one time line ([Z], counted from
    Go's zero time), so [After] is [<] read from the right.

    The service talks to its store through the [APIKeyRepository] interface
    and the gate talks to the service through [APIKeyService]; both reach the
    clock and the random source of the operating system.  These calls are the
    events of a small free monad ([prog]): a service method is a program over
    the events, and [run] interprets it against a gorm table, a clock and a
    random source. *)

From Stdlib Require Import ZArith Lia Ascii String.
From stdpp Require Import base option strings list gmap.

Open Scope Z_scope.

(** ** Bytes and strings *)

Abbreviation byte := ascii (only parsing).

Definition byte_val (b : byte) : Z := Z.of_N (N_of_ascii b).
Definition byte_of (z : Z) : byte := ascii_of_N (Z.to_N (z mod 256)).

(** [[]byte(s)] and [string(bs)] *)
Definition bytes_of_string (s : string) : list byte := String.list_ascii_of_string s.
Definition string_of_bytes (bs : list byte) : string := String.string_of_list_ascii bs.

(** ** encoding/hex *)

Module hex.

Definition hextable : string := "0123456789abcdef".

(** [hextable[i]]; the index is always below 16 where it is used. *)
Definition hexdigit (i : Z) : ascii :=
  nth (Z.to_nat i) (bytes_of_string hextable) "0"%char.

(** [Encode]: [dst[j] = hextable[v>>4]; dst[j+1] = hextable[v&0x0f]] *)
Fixpoint Encode (src : list byte) : list ascii :=
  match src with
  | [] => []
  | v :: rest =>
      hexdigit (Z.shiftr (byte_val v) 4)
        :: hexdigit (Z.land (byte_val v) 0x0f) :: Encode rest
  end.

Definition EncodeToString (src : list byte) : string :=
  string_of_bytes (Encode src).

(** The characters a lowercase hexadecimal numeral is made of. *)
Definition is_lower_hex (c : ascii) : bool :=
  let n := byte_val c in
  ((48 <=? n) && (n <=? 57)) || ((97 <=? n) && (n <=? 102)).

End hex.

(** ** crypto/sha256 *)

Module sha256.

Definition Size : nat := 32.
Definition chunk : nat := 64.

Definition u32 (x : Z) : Z := x mod 2 ^ 32.
Definition add32 (x y : Z) : Z := u32 (x + y).
Definition not32 (x : Z) : Z := Z.lxor x 0xffffffff.

(** [bits.RotateLeft32(x, -n)] *)
Definition rotr (x n : Z) : Z :=
  Z.lor (Z.shiftr x n) (u32 (Z.shiftl x (32 - n))).

(** The constants of FIPS 180-4: the first 32 bits of the fractional
    parts of the square roots of the first 8 primes ([init]) and of the cube
    roots of the first 64 primes ([_K]). *)
Definition is_prime (n : Z) : bool :=
  forallb (fun d => negb (n mod Z.of_nat d =? 0)) (seq 2 (Z.to_nat n - 2)).

Definition primes : list Z :=
  Eval vm_compute in List.filter is_prime (map Z.of_nat (seq 2 310)).

(** The integer cube root, bit by bit from the top. *)
Fixpoint icbrt (bits : nat) (n r : Z) : Z :=
  match bits with
  | O => r
  | S bits' =>
      let r' := r + 2 ^ Z.of_nat bits' in
      if r' * r' * r' <=? n then icbrt bits' n r' else icbrt bits' n r
  end.

Definition init : list Z :=
  Eval vm_compute in map (fun p => u32 (Z.sqrt (p * 2 ^ 64))) (firstn 8 primes).

Definition _K : list Z :=
  Eval vm_compute in map (fun p => u32 (icbrt 36 (p * 2 ^ 96) 0)) (firstn 64 primes).

(** The eight working variables, and the chaining value. *)
Record regs : Type :=
  Regs { ra : Z; rb : Z; rc : Z; rd : Z; re : Z; rf : Z; rg : Z; rh : Z }.

Definition regs_of (h : list Z) : regs :=
  Regs (nth 0 h 0) (nth 1 h 0) (nth 2 h 0) (nth 3 h 0)
       (nth 4 h 0) (nth 5 h 0) (nth 6 h 0) (nth 7 h 0).

Definition regs_add (x y : regs) : regs :=
  Regs (add32 (ra x) (ra y)) (add32 (rb x) (rb y))
       (add32 (rc x) (rc y)) (add32 (rd x) (rd y))
       (add32 (re x) (re y)) (add32 (rf x) (rf y))
       (add32 (rg x) (rg y)) (add32 (rh x) (rh y)).

(** [w[i] = uint32(p[j])<<24 | uint32(p[j+1])<<16 | uint32(p[j+2])<<8 | uint32(p[j+3])] *)
Fixpoint be_words (n : nat) (p : list Z) : list Z :=
  match n with
  | O => []
  | S n' =>
      match p with
      | b0 :: b1 :: b2 :: b3 :: p' =>
          Z.lor (Z.lor (Z.lor (Z.shiftl b0 24) (Z.shiftl b1 16)) (Z.shiftl b2 8)) b3
            :: be_words n' p'
      | _ => []
      end
  end.

(** The message schedule, newest word first: [rev_w] holds
    [w[i-1], w[i-2], ...] and [n] more words are appended. *)
Fixpoint extend (n : nat) (rev_w : list Z) : list Z :=
  match n with
  | O => rev_w
  | S n' =>
      let v1 := nth 1 rev_w 0 in
      let t1 := Z.lxor (Z.lxor (rotr v1 17) (rotr v1 19)) (Z.shiftr v1 10) in
      let v2 := nth 14 rev_w 0 in
      let t2 := Z.lxor (Z.lxor (rotr v2 7) (rotr v2 18)) (Z.shiftr v2 3) in
      extend n' (add32 (add32 (add32 t1 (nth 6 rev_w 0)) t2) (nth 15 rev_w 0) :: rev_w)
  end.

Definition schedule (p : list Z) : list Z := rev (extend 48 (rev (be_words 16 p))).

Definition round (s : regs) (kw : Z * Z) : regs :=
  let '(Regs a b c d e f g h) := s in
  let t1 :=
    add32 (add32 (add32 (add32 h (Z.lxor (Z.lxor (rotr e 6) (rotr e 11)) (rotr e 25)))
                         (Z.lxor (Z.land e f) (Z.land (not32 e) g)))
                 (fst kw)) (snd kw) in
  let t2 :=
    add32 (Z.lxor (Z.lxor (rotr a 2) (rotr a 13)) (rotr a 22))
          (Z.lxor (Z.lxor (Z.land a b) (Z.land a c)) (Z.land b c)) in
  Regs (add32 t1 t2) a b c (add32 d t1) e f g.

(** One 64-byte block. *)
Definition block1 (h : regs) (p : list Z) : regs :=
  regs_add h (fold_left round (combine _K (schedule p)) h).

(** [blockGeneric]: [for len(p) >= chunk { ...; p = p[chunk:] }] *)
Fixpoint block (n : nat) (h : regs) (p : list Z) : regs :=
  match n with
  | O => h
  | S n' => block n' (block1 h (firstn chunk p)) (skipn chunk p)
  end.

(** [binary.BigEndian.PutUint64] *)
Definition be64 (x : Z) : list Z :=
  map (fun i => Z.shiftr x (8 * i) mod 256) [7; 6; 5; 4; 3; 2; 1; 0].

Definition be32 (x : Z) : list Z :=
  map (fun i => Z.shiftr x (8 * i) mod 256) [3; 2; 1; 0].

(** The padding of [checkSum]: a 1 bit, 0 bits up to 56 bytes mod 64,
    and the length in bits. *)
Definition padding (len : Z) : list Z :=
  let t := if len mod 64 <? 56 then 56 - len mod 64 else 64 + 56 - len mod 64 in
  0x80 :: repeat 0 (Z.to_nat (t - 1)) ++ be64 (Z.shiftl len 3 mod 2 ^ 64).

Definition digest_bytes (h : regs) : list byte :=
  map byte_of
    (be32 (ra h) ++ be32 (rb h) ++ be32 (rc h) ++ be32 (rd h) ++
     be32 (re h) ++ be32 (rf h) ++ be32 (rg h) ++ be32 (rh h)).

(** [Sum256]: the SHA-256 checksum of the data. *)
Definition Sum256 (data : list byte) : list byte :=
  let msg := map byte_val data in
  let p := msg ++ padding (Z.of_nat (length msg)) in
  digest_bytes (block (length p / chunk)%nat (regs_of init) p).

(** A running hash ([hash.Hash]), by the bytes written to it so far. *)
Record digest : Type := Digest { written : list byte }.

Definition New : digest := Digest [].
Definition Write (d : digest) (p : list byte) : digest := Digest (written d ++ p).
(** [Sum] appends the current hash to [b]. *)
Definition Sum (d : digest) (b : list byte) : list byte := b ++ Sum256 (written d).

End sha256.

(** ** Errors and results *)

(** A Go [error].  The repository makes its own with [errors.New]; gorm
    has the sentinel [ErrRecordNotFound]; every other error comes from
    outside the repository (the database driver, the operating system) and
    is known by its text only. *)
Inductive error : Type :=
| errors_New (text : string)
| ErrRecordNotFound
| Foreign (text : string).

(** [err.Error()] *)
Definition Error (err : error) : string :=
  match err with
  | errors_New text => text
  | ErrRecordNotFound => "record not found"
  | Foreign text => text
  end.

(** A Go pair [(v, err)] of which the caller reads [v] only when [err] is
    [nil]. *)
Inductive result (A : Type) : Type :=
| Ok (a : A)
| Err (err : error).
Arguments Ok {A} a.
Arguments Err {A} err.

Definition is_Ok {A} (r : result A) : bool :=
  match r with Ok _ => true | Err _ => false end.

(** ** time *)

Definition Time : Type := Z.

(** [t.After(u)] *)
Definition After (t u : Time) : bool := u <? t.
(** [t.IsZero()] *)
Definition IsZero (t : Time) : bool := t =? 0.

(** ** package models: the types of api_key.go *)

Module APIKey.
Record t : Type := Make {
  ID : N;
  Name : string;
  Key : string;
  Description : string;
  Active : bool;
  ExpiresAt : option Time;
  CreatedAt : Time;
  UpdatedAt : Time;
  DeletedAt : option Time
}.

(** [&models.APIKey{}] *)
Definition zero : t := Make 0 "" "" "" false None 0 0 None.
End APIKey.
Abbreviation APIKey := APIKey.t.

Module CreateAPIKeyRequest.
Record t : Type := Make {
  Name : string;
  Description : string;
  ExpiresAt : option Time
}.
End CreateAPIKeyRequest.
Abbreviation CreateAPIKeyRequest := CreateAPIKeyRequest.t.

Module UpdateAPIKeyRequest.
Record t : Type := Make {
  Name : string;
  Description : string;
  Active : bool;
  ExpiresAt : option Time
}.
End UpdateAPIKeyRequest.
Abbreviation UpdateAPIKeyRequest := UpdateAPIKeyRequest.t.

Module APIKeyResponse.
Record t : Type := Make {
  ID : N;
  Name : string;
  Key : string;
  Description : string;
  Active : bool;
  ExpiresAt : option Time;
  CreatedAt : Time;
  UpdatedAt : Time
}.
End APIKeyResponse.
Abbreviation APIKeyResponse := APIKeyResponse.t.

(** ** The calls that leave the core *)

(** The methods of the [APIKeyRepository] interface, [time.Now] and
    [crypto/rand.Read].  A repository method that takes a pointer and
    writes through it answers with the value it leaves there.  The random
    source answers a read with the bytes it delivers, by position; the
    error of its signature is kept as the code handles it, but since Go
    1.24 [rand.Read] never returns one: a failing source ends the
    process. *)
Inductive event : Type -> Type :=
| Repo_Create (apiKey : APIKey) : event (APIKey * option error)
| Repo_GetByID (id : N) : event (result APIKey)
| Repo_GetByKey (key : string) : event (result APIKey)
| Repo_GetAll : event (result (list APIKey))
| Repo_Update (apiKey : APIKey) : event (APIKey * option error)
| Repo_Delete (id : N) : event (option error)
| Repo_ExistsByKey (key : string) : event bool
| time_Now : event Time
| rand_Read : event (result (nat -> byte)).

(** Is the call one of the key store's? *)
Definition is_store_call {X} (e : event X) : bool :=
  match e with
  | time_Now | rand_Read => false
  | _ => true
  end.

Inductive prog (A : Type) : Type :=
| Ret (a : A)
| Vis {X : Type} (e : event X) (k : X -> prog A).
Arguments Ret {A} a.
Arguments Vis {A X} e k.

Fixpoint bind {A B} (p : prog A) (f : A -> prog B) : prog B :=
  match p with
  | Ret a => f a
  | Vis e k => Vis e (fun x => bind (k x) f)
  end.

#[global] Instance prog_ret : MRet prog := @Ret.
#[global] Instance prog_bind : MBind prog := fun A B f p => bind p f.

Definition trigger {X} (e : event X) : prog X := Vis e Ret.

(** A call with its arguments, for traces. *)
Inductive call : Type :=
| Call {X : Type} (e : event X).

Section Run.
Context {S : Type} (handle : forall X, event X -> S -> X * S).

(** [run] answers every call of a program from the state [S]. *)
Fixpoint run {A} (p : prog A) (s : S) : A * S :=
  match p with
  | Ret a => (a, s)
  | Vis e k => let '(x, s') := handle _ e s in run (k x) s'
  end.

(** The calls a program makes, in order. *)
Fixpoint trace {A} (p : prog A) (s : S) : list call :=
  match p with
  | Ret _ => []
  | Vis e k => let '(x, s') := handle _ e s in Call e :: trace (k x) s'
  end.
End Run.

(** ** internal/util/hash.go *)

Module util.

(** The buffer [make([]byte, n)] after [rand.Read] has filled it. *)
Definition fill (src : nat -> byte) (n : nat) : list byte := map src (seq 0 n).

Definition GenerateAPIKey : prog (result string) :=
  r ← trigger rand_Read;
  match r with
  | Err err => mret (Err err)
  | Ok src =>
      let bytes := fill src 32 in
      mret (Ok ("sk-" +:+ hex.EncodeToString bytes))
  end.

Definition HashAPIKey (key : string) : string :=
  let hasher := sha256.New in
  let hasher := sha256.Write hasher (bytes_of_string key) in
  hex.EncodeToString (sha256.Sum hasher []).

End util.

(** ** internal/domain/models/api_key.go *)

Module models.

Definition ToResponseWithKey (ak : APIKey) (plainTextKey : string) : APIKeyResponse :=
  {| APIKeyResponse.ID := APIKey.ID ak;
     APIKeyResponse.Name := APIKey.Name ak;
     APIKeyResponse.Key := plainTextKey;
     APIKeyResponse.Description := APIKey.Description ak;
     APIKeyResponse.Active := APIKey.Active ak;
     APIKeyResponse.ExpiresAt := APIKey.ExpiresAt ak;
     APIKeyResponse.CreatedAt := APIKey.CreatedAt ak;
     APIKeyResponse.UpdatedAt := APIKey.UpdatedAt ak |}.

Definition ToResponseWithoutKey (ak : APIKey) : APIKeyResponse :=
  {| APIKeyResponse.ID := APIKey.ID ak;
     APIKeyResponse.Name := APIKey.Name ak;
     APIKeyResponse.Key := "***";
     APIKeyResponse.Description := APIKey.Description ak;
     APIKeyResponse.Active := APIKey.Active ak;
     APIKeyResponse.ExpiresAt := APIKey.ExpiresAt ak;
     APIKeyResponse.CreatedAt := APIKey.CreatedAt ak;
     APIKeyResponse.UpdatedAt := APIKey.UpdatedAt ak |}.

(** The receiver is written through: the method answers with the
    receiver as it leaves it, and the plaintext key or the error. *)
Definition FromCreateRequest (ak : APIKey) (req : CreateAPIKeyRequest)
  : prog (APIKey * result string) :=
  let ak :=
    {| APIKey.ID := APIKey.ID ak;
       APIKey.Name := CreateAPIKeyRequest.Name req;
       APIKey.Key := APIKey.Key ak;
       APIKey.Description := CreateAPIKeyRequest.Description req;
       APIKey.Active := true;
       APIKey.ExpiresAt := CreateAPIKeyRequest.ExpiresAt req;
       APIKey.CreatedAt := APIKey.CreatedAt ak;
       APIKey.UpdatedAt := APIKey.UpdatedAt ak;
       APIKey.DeletedAt := APIKey.DeletedAt ak |} in
  r ← util.GenerateAPIKey;
  match r with
  | Err err => mret (ak, Err err)
  | Ok plainTextKey =>
      mret ({| APIKey.ID := APIKey.ID ak;
               APIKey.Name := APIKey.Name ak;
               APIKey.Key := util.HashAPIKey plainTextKey;
               APIKey.Description := APIKey.Description ak;
               APIKey.Active := APIKey.Active ak;
               APIKey.ExpiresAt := APIKey.ExpiresAt ak;
               APIKey.CreatedAt := APIKey.CreatedAt ak;
               APIKey.UpdatedAt := APIKey.UpdatedAt ak;
               APIKey.DeletedAt := APIKey.DeletedAt ak |},
            Ok plainTextKey)
  end.

Definition FromUpdateRequest (ak : APIKey) (req : UpdateAPIKeyRequest) : APIKey :=
  {| APIKey.ID := APIKey.ID ak;
     APIKey.Name := UpdateAPIKeyRequest.Name req;
     APIKey.Key := APIKey.Key ak;
     APIKey.Description := UpdateAPIKeyRequest.Description req;
     APIKey.Active := UpdateAPIKeyRequest.Active req;
     APIKey.ExpiresAt := UpdateAPIKeyRequest.ExpiresAt req;
     APIKey.CreatedAt := APIKey.CreatedAt ak;
     APIKey.UpdatedAt := APIKey.UpdatedAt ak;
     APIKey.DeletedAt := APIKey.DeletedAt ak |}.

Definition IsExpired (ak : APIKey) : prog bool :=
  match APIKey.ExpiresAt ak with
  | None => mret false
  | Some expiresAt => now ← trigger time_Now; mret (After now expiresAt)
  end.

(** [ak.Active && !ak.IsExpired()]: the clock is read only for an active
    key with an expiry. *)
Definition IsValid (ak : APIKey) : prog bool :=
  if APIKey.Active ak then expired ← IsExpired ak; mret (negb expired)
  else mret false.

End models.

(** ** gorm over the table [api_keys] *)

(** The table as the tags of [models.APIKey] declare it: [id] is the
    primary key and comes from a sequence, [key] has a unique index,
    [active] defaults to true, [created_at] and [updated_at] are kept by
    gorm, and [deleted_at] makes deletion logical: every query and update
    gorm builds for the model carries [deleted_at IS NULL].  Statements fail
    on a constraint only; a fault of the connection is a [Foreign] error the
    callers handle alike. *)
Module gorm.

Record DB : Type := Make {
  rows : list APIKey;
  seq : N           (** the last value the sequence of [id] gave out *)
}.

Definition empty : DB := Make [] 0.

Definition live (r : APIKey) : bool :=
  match APIKey.DeletedAt r with None => true | Some _ => false end.

(** SQLSTATE 23505 *)
Definition unique_violation (constraint : string) : error :=
  Foreign ("ERROR: duplicate key value violates unique constraint "
             +:+ constraint +:+ " (SQLSTATE 23505)").

(** [WHERE cond AND deleted_at IS NULL] *)
Definition Where (cond : APIKey -> bool) (db : DB) : list APIKey :=
  List.filter (fun r => live r && cond r) (rows db).

(** [ORDER BY id LIMIT 1] *)
Definition first_by_ID (rs : list APIKey) : option APIKey :=
  foldr (fun r acc =>
           match acc with
           | None => Some r
           | Some m => if (APIKey.ID r <=? APIKey.ID m)%N then Some r else Some m
           end) None rs.

Definition First (cond : APIKey -> bool) (db : DB) : result APIKey :=
  match first_by_ID (Where cond db) with
  | Some r => Ok r
  | None => Err ErrRecordNotFound
  end.

(** [db.Find(&apiKeys)]: the live rows.  The query carries no ORDER BY, so
    the order of the result is open; it is the order of the table here, and
    what is proved of a list of keys is proved up to permutation. *)
Definition Find (db : DB) : list APIKey := Where (fun _ => true) db.

Definition Count (cond : APIKey -> bool) (db : DB) : Z :=
  Z.of_nat (length (Where cond db)).

(** The row an INSERT of [value] writes: a zero [ID] is replaced by the
    next value of the sequence, a zero [Active] by the default of the
    column, zero timestamps by the current time. *)
Definition to_insert (now : Time) (value : APIKey) (db : DB) : APIKey :=
  {| APIKey.ID := if (APIKey.ID value =? 0)%N then (seq db + 1)%N else APIKey.ID value;
     APIKey.Name := APIKey.Name value;
     APIKey.Key := APIKey.Key value;
     APIKey.Description := APIKey.Description value;
     APIKey.Active := if APIKey.Active value then APIKey.Active value else true;
     APIKey.ExpiresAt := APIKey.ExpiresAt value;
     APIKey.CreatedAt := if IsZero (APIKey.CreatedAt value) then now else APIKey.CreatedAt value;
     APIKey.UpdatedAt := if IsZero (APIKey.UpdatedAt value) then now else APIKey.UpdatedAt value;
     APIKey.DeletedAt := APIKey.DeletedAt value |}.

Definition same_ID (a b : APIKey) : bool := (APIKey.ID a =? APIKey.ID b)%N.
Definition same_Key (a b : APIKey) : bool := (APIKey.Key a =? APIKey.Key b)%string.

(** [db.Create(value)].  The sequence moves even when the INSERT fails.
    No caller reads [value] after a failure. *)
Definition Create (now : Time) (value : APIKey) (db : DB) : DB * (APIKey * option error) :=
  let row := to_insert now value db in
  let seq' := if (APIKey.ID value =? 0)%N then (seq db + 1)%N else seq db in
  if existsb (same_ID row) (rows db) then
    (Make (rows db) seq', (value, Some (unique_violation "api_keys_pkey")))
  else if existsb (same_Key row) (rows db) then
    (Make (rows db) seq', (value, Some (unique_violation "idx_api_keys_key")))
  else
    (Make (rows db ++ [row]) seq', (row, None)).

Definition with_UpdatedAt (now : Time) (value : APIKey) : APIKey :=
  {| APIKey.ID := APIKey.ID value;
     APIKey.Name := APIKey.Name value;
     APIKey.Key := APIKey.Key value;
     APIKey.Description := APIKey.Description value;
     APIKey.Active := APIKey.Active value;
     APIKey.ExpiresAt := APIKey.ExpiresAt value;
     APIKey.CreatedAt := APIKey.CreatedAt value;
     APIKey.UpdatedAt := now;
     APIKey.DeletedAt := APIKey.DeletedAt value |}.

(** [db.Save(value)]: an INSERT when the primary key is zero; otherwise
    an UPDATE of every column of the live row with this [id], and, when
    that touches no row, an INSERT that overwrites on conflict. *)
Definition Save (now : Time) (value : APIKey) (db : DB) : DB * (APIKey * option error) :=
  if (APIKey.ID value =? 0)%N then Create now value db
  else
    let value' := with_UpdatedAt now value in
    let clash := existsb (fun r => negb (same_ID value r) && same_Key value r) (rows db) in
    if existsb (fun r => live r && same_ID value r) (rows db) then
      if clash then (db, (value, Some (unique_violation "idx_api_keys_key")))
      else
        (Make (map (fun r => if live r && same_ID value r then value' else r) (rows db))
              (seq db),
         (value', None))
    else
      let row := to_insert now value' db in
      if clash then (db, (value, Some (unique_violation "idx_api_keys_key")))
      else if existsb (same_ID value) (rows db) then
        (Make (map (fun r => if same_ID value r then row else r) (rows db)) (seq db),
         (row, None))
      else (Make (rows db ++ [row]) (seq db), (row, None)).

Definition with_DeletedAt (now : Time) (value : APIKey) : APIKey :=
  {| APIKey.ID := APIKey.ID value;
     APIKey.Name := APIKey.Name value;
     APIKey.Key := APIKey.Key value;
     APIKey.Description := APIKey.Description value;
     APIKey.Active := APIKey.Active value;
     APIKey.ExpiresAt := APIKey.ExpiresAt value;
     APIKey.CreatedAt := APIKey.CreatedAt value;
     APIKey.UpdatedAt := APIKey.UpdatedAt value;
     APIKey.DeletedAt := Some now |}.

(** [db.Delete(&models.APIKey{}, id)]:
    [UPDATE api_keys SET deleted_at = now WHERE id = ? AND deleted_at IS NULL] *)
Definition Delete (now : Time) (id : N) (db : DB) : DB * option error :=
  (Make (map (fun r => if live r && (APIKey.ID r =? id)%N then with_DeletedAt now r else r)
             (rows db))
        (seq db),
   None).

End gorm.

(** ** internal/domain/repository/api_key_repository.go *)

Module repository.

Definition key_is (key : string) (r : APIKey) : bool := (APIKey.Key r =? key)%string.
Definition id_is (id : N) (r : APIKey) : bool := (APIKey.ID r =? id)%N.

(** [errors.Is(err, gorm.ErrRecordNotFound)] *)
Definition is_ErrRecordNotFound (err : error) : bool :=
  match err with ErrRecordNotFound => true | _ => false end.

Definition ExistsByKey (key : string) (db : gorm.DB) : bool :=
  if (key =? "")%string then false
  else 0 <? gorm.Count (key_is key) db.

Definition Create (now : Time) (apiKey : APIKey) (db : gorm.DB)
  : gorm.DB * (APIKey * option error) :=
  if (APIKey.Name apiKey =? "")%string then
    (db, (apiKey, Some (errors_New "name is required")))
  else if (APIKey.Key apiKey =? "")%string then
    (db, (apiKey, Some (errors_New "key is required")))
  else if ExistsByKey (APIKey.Key apiKey) db then
    (db, (apiKey, Some (errors_New "API key already exists")))
  else
    gorm.Create now apiKey db.

Definition GetByID (id : N) (db : gorm.DB) : result APIKey :=
  if (id =? 0)%N then Err (errors_New "invalid API key ID")
  else
    match gorm.First (id_is id) db with
    | Err err =>
        if is_ErrRecordNotFound err then Err (errors_New "API key not found")
        else Err err
    | Ok apiKey => Ok apiKey
    end.

Definition GetByKey (key : string) (db : gorm.DB) : result APIKey :=
  if (key =? "")%string then Err (errors_New "key is required")
  else
    match gorm.First (key_is key) db with
    | Err err =>
        if is_ErrRecordNotFound err then Err (errors_New "API key not found")
        else Err err
    | Ok apiKey => Ok apiKey
    end.

Definition GetAll (db : gorm.DB) : result (list APIKey) := Ok (gorm.Find db).

Definition Update (now : Time) (apiKey : APIKey) (db : gorm.DB)
  : gorm.DB * (APIKey * option error) :=
  if (APIKey.ID apiKey =? 0)%N then
    (db, (apiKey, Some (errors_New "invalid API key ID")))
  else if (APIKey.Name apiKey =? "")%string then
    (db, (apiKey, Some (errors_New "name is required")))
  else
    match GetByID (APIKey.ID apiKey) db with
    | Err err => (db, (apiKey, Some err))
    | Ok existing =>
        (* Update only allowed fields (don't update the key itself) *)
        let existing :=
          {| APIKey.ID := APIKey.ID existing;
             APIKey.Name := APIKey.Name apiKey;
             APIKey.Key := APIKey.Key existing;
             APIKey.Description := APIKey.Description apiKey;
             APIKey.Active := APIKey.Active apiKey;
             APIKey.ExpiresAt := APIKey.ExpiresAt apiKey;
             APIKey.CreatedAt := APIKey.CreatedAt existing;
             APIKey.UpdatedAt := APIKey.UpdatedAt existing;
             APIKey.DeletedAt := APIKey.DeletedAt existing |} in
        let '(db', (existing, err)) := gorm.Save now existing db in
        match err with
        | Some err => (db', (apiKey, Some err))
        | None => (db', (existing, None))   (* *apiKey = *existing *)
        end
    end.

Definition Delete (now : Time) (id : N) (db : gorm.DB) : gorm.DB * option error :=
  if (id =? 0)%N then (db, Some (errors_New "invalid API key ID"))
  else
    match GetByID id db with
    | Err err => (db, Some err)
    | Ok _ => gorm.Delete now id db
    end.

End repository.

(** ** The world the core runs in *)

Record World : Type := MkWorld {
  db : gorm.DB;                       (** the table behind the repository *)
  clock : Time;                       (** what [time.Now] reads *)
  entropy : result (nat -> byte)      (** what [rand.Read] delivers *)
}.

Definition with_db (db' : gorm.DB) (w : World) : World :=
  MkWorld db' (clock w) (entropy w).
Definition with_clock (t : Time) (w : World) : World :=
  MkWorld (db w) t (entropy w).

(** Every call answered by the gorm repository, the clock and the random
    source of the world. *)
Definition handle (X : Type) (e : event X) (w : World) : X * World :=
  match e in event X return X * World with
  | Repo_Create apiKey =>
      let '(db', out) := repository.Create (clock w) apiKey (db w) in (out, with_db db' w)
  | Repo_GetByID id => (repository.GetByID id (db w), w)
  | Repo_GetByKey key => (repository.GetByKey key (db w), w)
  | Repo_GetAll => (repository.GetAll (db w), w)
  | Repo_Update apiKey =>
      let '(db', out) := repository.Update (clock w) apiKey (db w) in (out, with_db db' w)
  | Repo_Delete id =>
      let '(db', out) := repository.Delete (clock w) id (db w) in (out, with_db db' w)
  | Repo_ExistsByKey key => (repository.ExistsByKey key (db w), w)
  | time_Now => (clock w, w)
  | rand_Read => (entropy w, w)
  end.

Definition exec {A} (p : prog A) (w : World) : A * World := run handle p w.

(** ** internal/service/api_key_service.go *)

Module service.

(** The interface [APIKeyService]. *)
Record APIKeyService : Type := {
  CreateAPIKey : CreateAPIKeyRequest -> prog (result APIKeyResponse);
  GetAPIKeyByID : N -> prog (result APIKeyResponse);
  GetAllAPIKeys : prog (result (list APIKeyResponse));
  UpdateAPIKey : N -> UpdateAPIKeyRequest -> prog (result APIKeyResponse);
  DeleteAPIKey : N -> prog (option error);
  ValidateAPIKey : string -> prog (result APIKey)
}.

(** The methods of [apiKeyService]; its [apiKeyRepo] is reached through
    the [Repo_] calls. *)
Module apiKeyService.

Definition CreateAPIKey (req : CreateAPIKeyRequest) : prog (result APIKeyResponse) :=
  if (CreateAPIKeyRequest.Name req =? "")%string then
    mret (Err (errors_New "name is required"))
  else
    let apiKey := APIKey.zero in
    '(apiKey, r) ← models.FromCreateRequest apiKey req;
    match r with
    | Err err => mret (Err err)
    | Ok plainTextKey =>
        '(apiKey, err) ← trigger (Repo_Create apiKey);
        match err with
        | Some err => mret (Err err)
        | None => mret (Ok (models.ToResponseWithKey apiKey plainTextKey))
        end
    end.

Definition GetAPIKeyByID (id : N) : prog (result APIKeyResponse) :=
  if (id =? 0)%N then mret (Err (errors_New "invalid API key ID"))
  else
    r ← trigger (Repo_GetByID id);
    match r with
    | Err err => mret (Err err)
    | Ok apiKey => mret (Ok (models.ToResponseWithoutKey apiKey))
    end.

Definition GetAllAPIKeys : prog (result (list APIKeyResponse)) :=
  r ← trigger Repo_GetAll;
  match r with
  | Err err => mret (Err err)
  | Ok apiKeys => mret (Ok (map models.ToResponseWithoutKey apiKeys))
  end.

Definition UpdateAPIKey (id : N) (req : UpdateAPIKeyRequest)
  : prog (result APIKeyResponse) :=
  if (id =? 0)%N then mret (Err (errors_New "invalid API key ID"))
  else if (UpdateAPIKeyRequest.Name req =? "")%string then
    mret (Err (errors_New "name is required"))
  else
    (* Get existing API key *)
    r ← trigger (Repo_GetByID id);
    match r with
    | Err err => mret (Err err)
    | Ok existing =>
        (* Update with new data *)
        let existing := models.FromUpdateRequest existing req in
        '(existing, err) ← trigger (Repo_Update existing);
        match err with
        | Some err => mret (Err err)
        | None => mret (Ok (models.ToResponseWithoutKey existing))
        end
    end.

Definition DeleteAPIKey (id : N) : prog (option error) :=
  if (id =? 0)%N then mret (Some (errors_New "invalid API key ID"))
  else trigger (Repo_Delete id).

Definition ValidateAPIKey (key : string) : prog (result APIKey) :=
  if (key =? "")%string then mret (Err (errors_New "API key is required"))
  else
    let hashedKey := util.HashAPIKey key in
    r ← trigger (Repo_GetByKey hashedKey);
    match r with
    | Err _ => mret (Err (errors_New "invalid API key"))
    | Ok apiKey =>
        valid ← models.IsValid apiKey;
        if negb valid then mret (Err (errors_New "API key is not valid"))
        else mret (Ok apiKey)
    end.

End apiKeyService.

Definition NewAPIKeyService : APIKeyService :=
  {| CreateAPIKey := apiKeyService.CreateAPIKey;
     GetAPIKeyByID := apiKeyService.GetAPIKeyByID;
     GetAllAPIKeys := apiKeyService.GetAllAPIKeys;
     UpdateAPIKey := apiKeyService.UpdateAPIKey;
     DeleteAPIKey := apiKeyService.DeleteAPIKey;
     ValidateAPIKey := apiKeyService.ValidateAPIKey |}.

End service.

(** ** package strings, as far as the gate uses it *)

Module strings.

(** The ASCII white space of [asciiSpace]: tab, line feed, vertical tab,
    form feed, carriage return and space. *)
Definition asciiSpace (c : byte) : bool :=
  let n := byte_val c in ((9 <=? n) && (n <=? 13)) || (n =? 32).

(** The UTF-8 encodings of the other runes of [unicode.IsSpace]:
    U+0085 and U+00A0 on two bytes; U+1680, U+2000 to U+200A, U+2028,
    U+2029, U+202F, U+205F and U+3000 on three. *)
Definition space2 (c1 c2 : byte) : bool :=
  (byte_val c1 =? 0xC2) && ((byte_val c2 =? 0x85) || (byte_val c2 =? 0xA0)).

Definition space3 (c1 c2 c3 : byte) : bool :=
  let '(n1, n2, n3) := (byte_val c1, byte_val c2, byte_val c3) in
  ((n1 =? 0xE1) && (n2 =? 0x9A) && (n3 =? 0x80))
  || ((n1 =? 0xE2) && (n2 =? 0x80)
      && (((0x80 <=? n3) && (n3 <=? 0x8A)) || (n3 =? 0xA8) || (n3 =? 0xA9) || (n3 =? 0xAF)))
  || ((n1 =? 0xE2) && (n2 =? 0x81) && (n3 =? 0x9F))
  || ((n1 =? 0xE3) && (n2 =? 0x80) && (n3 =? 0x80)).

(** [TrimLeftFunc(s, unicode.IsSpace)]: a rune is decoded as a space
    exactly when the bytes in front are one of the encodings above. *)
Fixpoint trimLeft (s : list byte) : list byte :=
  match s with
  | [] => []
  | c1 :: s1 =>
      if asciiSpace c1 then trimLeft s1
      else
        match s1 with
        | [] => s
        | c2 :: s2 =>
            if space2 c1 c2 then trimLeft s2
            else
              match s2 with
              | [] => s
              | c3 :: s3 => if space3 c1 c2 c3 then trimLeft s3 else s
              end
        end
  end.

(** [TrimRightFunc(s, unicode.IsSpace)], on the reversed bytes. *)
Fixpoint trimRight_rev (s : list byte) : list byte :=
  match s with
  | [] => []
  | c1 :: s1 =>
      if asciiSpace c1 then trimRight_rev s1
      else
        match s1 with
        | [] => s
        | c2 :: s2 =>
            if space2 c2 c1 then trimRight_rev s2
            else
              match s2 with
              | [] => s
              | c3 :: s3 => if space3 c3 c2 c1 then trimRight_rev s3 else s
              end
        end
  end.

(** [TrimSpace]: its fast path over ASCII and its fall-back compute
    [TrimFunc(s, unicode.IsSpace)]. *)
Definition TrimSpace (s : string) : string :=
  string_of_bytes (rev (trimRight_rev (rev (trimLeft (bytes_of_string s))))).

Definition HasPrefix (s prefix : string) : bool := String.prefix prefix s.

Definition TrimPrefix (s prefix : string) : string :=
  if HasPrefix s prefix then
    string_of_bytes (skipn (String.length prefix) (bytes_of_string s))
  else s.

End strings.

(** ** gin, as far as the gate uses it *)

Module gin.

(** The values the gate stores under [c.Keys]. *)
Inductive any : Type :=
| any_APIKey (v : APIKey)
| any_uint (v : N)
| any_string (v : string).

(** [gin.H] with the string values the gate writes. *)
Abbreviation H := (gmap string string).

Definition abortIndex : Z := 63.

Record Context : Type := MkContext {
  Header : gmap string string;   (** the request headers, first value of each *)
  Keys : gmap string any;
  index : Z;                     (** the position in the handler chain *)
  Written : list (Z * H)         (** the responses rendered, status and body *)
}.

(** [c.GetHeader(key)]: the empty string when the request has no such
    header. *)
Definition GetHeader (c : Context) (key : string) : string :=
  default "" (Header c !! key).

Definition JSON (code : Z) (obj : H) (c : Context) : Context :=
  MkContext (Header c) (Keys c) (index c) (Written c ++ [(code, obj)]).

Definition Abort (c : Context) : Context :=
  MkContext (Header c) (Keys c) abortIndex (Written c).

(** Once aborted, the chain runs no further handler. *)
Definition IsAborted (c : Context) : bool := abortIndex <=? index c.

(** [c.Set(key, value)] *)
Definition Set_ (key : string) (value : any) (c : Context) : Context :=
  MkContext (Header c) (<[key := value]> (Keys c)) (index c) (Written c).

End gin.

(** ** internal/middleware/api_key_auth.go *)

Module middleware.

Definition StatusUnauthorized : Z := 401.

Definition unauthorized (message : string) : gin.H :=
  {[ "error" := "Unauthorized"; "message" := message ]}.

(** The key the gate presents to the service: the header without the
    surrounding white space and without a leading [Bearer ]. *)
Definition clean (apiKeyHeader : string) : string :=
  let apiKey := strings.TrimSpace apiKeyHeader in
  if strings.HasPrefix apiKey "Bearer " then
    strings.TrimSpace (strings.TrimPrefix apiKey "Bearer ")
  else apiKey.

(** The handler [APIKeyAuthMiddleware(apiKeyService, logger)] returns.
    [Next] is [c.Next()], the rest of the handler chain; the calls of the
    logger are left out. *)
Definition APIKeyAuthMiddleware (apiKeyService : service.APIKeyService)
    (Next : gin.Context -> prog gin.Context) (c : gin.Context) : prog gin.Context :=
  (* Get API key from header *)
  let apiKeyHeader := gin.GetHeader c "X-API-Key" in
  if (apiKeyHeader =? "")%string then
    mret (gin.Abort (gin.JSON StatusUnauthorized (unauthorized "API key is required") c))
  else
    (* Clean the API key (remove any whitespace or "Bearer " prefix) *)
    let apiKey := clean apiKeyHeader in
    if (apiKey =? "")%string then
      mret (gin.Abort (gin.JSON StatusUnauthorized (unauthorized "API key cannot be empty") c))
    else
      (* Validate the API key *)
      r ← service.ValidateAPIKey apiKeyService apiKey;
      match r with
      | Err err =>
          mret (gin.Abort (gin.JSON StatusUnauthorized (unauthorized "Invalid API key") c))
      | Ok validatedAPIKey =>
          (* Store the validated API key in the context *)
          let c := gin.Set_ "api_key" (gin.any_APIKey validatedAPIKey) c in
          let c := gin.Set_ "api_key_id" (gin.any_uint (APIKey.ID validatedAPIKey)) c in
          let c := gin.Set_ "api_key_name" (gin.any_string (APIKey.Name validatedAPIKey)) c in
          Next c
      end.

Definition GetAPIKeyFromContext (c : gin.Context) : option gin.any :=
  gin.Keys c !! "api_key".

Definition GetAPIKeyIDFromContext (c : gin.Context) : N * bool :=
  match gin.Keys c !! "api_key_id" with
  | Some (gin.any_uint id) => (id, true)
  | _ => (0%N, false)
  end.

Definition GetAPIKeyNameFromContext (c : gin.Context) : string * bool :=
  match gin.Keys c !! "api_key_name" with
  | Some (gin.any_string name) => (name, true)
  | _ => ("", false)
  end.

End middleware.

(** ** internal/handler/api_key_handler.go: the status of a failure *)

Module handler.

Definition StatusBadRequest : Z := 400.
Definition StatusNotFound : Z := 404.
Definition StatusConflict : Z := 409.
Definition StatusInternalServerError : Z := 500.

(** The status [CreateAPIKey] answers a failed creation with. *)
Definition CreateAPIKey_status (err : error) : Z :=
  if (Error err =? "API key already exists")%string then StatusConflict
  else if (Error err =? "name is required")%string then StatusBadRequest
  else StatusInternalServerError.

(** The status [UpdateAPIKey] answers a failed update with. *)
Definition UpdateAPIKey_status (err : error) : Z :=
  if (Error err =? "API key not found")%string || (Error err =? "invalid API key ID")%string
  then StatusNotFound
  else if (Error err =? "name is required")%string then StatusBadRequest
  else StatusInternalServerError.

End handler.

(** ** strconv, as far as the handlers use it *)

Module strconv.

(** The [Err] of a [*NumError]. *)
Inductive NumError : Type :=
| ErrSyntax
| ErrRange.

Definition maxUint64 : Z := 2 ^ 64 - 1.

(** [lower(c)]: [c | ('x' - 'X')] *)
Definition lower (c : Z) : Z := Z.lor c 0x20.

(** The loop of [ParseUint] over the bytes of [s], for a valid non-zero
    base: [n] is the number read so far. *)
Fixpoint digits (base cutoff maxVal : Z) (cs : list byte) (n : Z) : Z * option NumError :=
  match cs with
  | [] => (n, None)
  | c :: cs' =>
      let c := byte_val c in
      let d :=
        if (48 <=? c) && (c <=? 57) then Some (c - 48)
        else if (97 <=? lower c) && (lower c <=? 122) then Some (lower c - 97 + 10)
        else None in
      match d with
      | None => (0, Some ErrSyntax)
      | Some d =>
          if base <=? d then (0, Some ErrSyntax)
          else if cutoff <=? n then (maxVal, Some ErrRange)     (* n*base overflows *)
          else
            let n := n * base in
            let n1 := (n + d) mod 2 ^ 64 in
            if (n1 <? n) || (maxVal <? n1) then (maxVal, Some ErrRange)  (* n+d overflows *)
            else digits base cutoff maxVal cs' n1
      end
  end.

(** [ParseUint(s, 10, bitSize)] for a [bitSize] from 1 to 64. *)
Definition ParseUint10 (s : string) (bitSize : Z) : Z * option NumError :=
  if (s =? "")%string then (0, Some ErrSyntax)
  else
    let cutoff := maxUint64 / 10 + 1 in
    let maxVal := 2 ^ bitSize - 1 in
    digits 10 cutoff maxVal (bytes_of_string s) 0.

End strconv.

(** ** internal/handler/api_key_handler.go: the handlers *)

Module ErrorResponse.
Record t : Type := Make {
  Error : string;
  Message : string
}.
End ErrorResponse.
Abbreviation ErrorResponse := ErrorResponse.t.

(** What a handler writes: [c.JSON(status, obj)] or [c.Status(status)].
    The path parameter [c.Param("id")] and the outcome of
    [c.ShouldBindJSON(&req)] are the inputs of a handler; the calls of the
    logger are left out. *)
Module api_key_handler.

Inductive obj : Type :=
| obj_error (e : ErrorResponse)
| obj_key (r : APIKeyResponse)
| obj_keys (rs : list APIKeyResponse)
| no_body.

Definition StatusOK : Z := 200.
Definition StatusCreated : Z := 201.
Definition StatusNoContent : Z := 204.

Record APIKeyHandler : Type := {
  apiKeyService : service.APIKeyService
}.

Definition NewAPIKeyHandler (apiKeyService : service.APIKeyService) : APIKeyHandler :=
  {| apiKeyService := apiKeyService |}.

Definition invalid_id : Z * obj :=
  (handler.StatusBadRequest,
   obj_error (ErrorResponse.Make "Invalid API key ID" "API key ID must be a valid integer")).

Definition CreateAPIKey (h : APIKeyHandler) (bound : result CreateAPIKeyRequest)
  : prog (Z * obj) :=
  match bound with
  | Err err =>
      mret (handler.StatusBadRequest,
            obj_error (ErrorResponse.Make "Invalid request body" (Error err)))
  | Ok req =>
      r ← service.CreateAPIKey (apiKeyService h) req;
      match r with
      | Err err =>
          mret (handler.CreateAPIKey_status err,
                obj_error (ErrorResponse.Make "Failed to create API key" (Error err)))
      | Ok apiKey => mret (StatusCreated, obj_key apiKey)
      end
  end.

Definition GetAPIKeys (h : APIKeyHandler) : prog (Z * obj) :=
  r ← service.GetAllAPIKeys (apiKeyService h);
  match r with
  | Err err =>
      mret (handler.StatusInternalServerError,
            obj_error (ErrorResponse.Make "Failed to retrieve API keys" (Error err)))
  | Ok apiKeys => mret (StatusOK, obj_keys apiKeys)
  end.

(** The status of a failed lookup or deletion. *)
Definition lookup_status (err : error) : Z :=
  if (Error err =? "API key not found")%string || (Error err =? "invalid API key ID")%string
  then handler.StatusNotFound
  else handler.StatusInternalServerError.

Definition GetAPIKeyByID (h : APIKeyHandler) (idStr : string) : prog (Z * obj) :=
  let '(id, err) := strconv.ParseUint10 idStr 32 in
  match err with
  | Some _ => mret invalid_id
  | None =>
      r ← service.GetAPIKeyByID (apiKeyService h) (Z.to_N id);
      match r with
      | Err err =>
          mret (lookup_status err,
                obj_error (ErrorResponse.Make "Failed to retrieve API key" (Error err)))
      | Ok apiKey => mret (StatusOK, obj_key apiKey)
      end
  end.

Definition UpdateAPIKey (h : APIKeyHandler) (idStr : string)
    (bound : result UpdateAPIKeyRequest) : prog (Z * obj) :=
  let '(id, err) := strconv.ParseUint10 idStr 32 in
  match err with
  | Some _ => mret invalid_id
  | None =>
      match bound with
      | Err err =>
          mret (handler.StatusBadRequest,
                obj_error (ErrorResponse.Make "Invalid request body" (Error err)))
      | Ok req =>
          r ← service.UpdateAPIKey (apiKeyService h) (Z.to_N id) req;
          match r with
          | Err err =>
              mret (handler.UpdateAPIKey_status err,
                    obj_error (ErrorResponse.Make "Failed to update API key" (Error err)))
          | Ok apiKey => mret (StatusOK, obj_key apiKey)
          end
      end
  end.

Definition DeleteAPIKey (h : APIKeyHandler) (idStr : string) : prog (Z * obj) :=
  let '(id, err) := strconv.ParseUint10 idStr 32 in
  match err with
  | Some _ => mret invalid_id
  | None =>
      err ← service.DeleteAPIKey (apiKeyService h) (Z.to_N id);
      match err with
      | Some err =>
          mret (lookup_status err,
                obj_error (ErrorResponse.Make "Failed to delete API key" (Error err)))
      | None => mret (StatusNoContent, no_body)
      end
  end.

End api_key_handler.

(** * The vocabulary of the properties *)

(** The calls of a trace that reach the key store. *)
Definition store_calls (t : list call) : list call :=
  List.filter (fun c => match c with Call e => is_store_call e end) t.

(** The context the gate hands on: the validated key, its ID and its name
    attached. *)
Definition attach (ak : APIKey) (c : gin.Context) : gin.Context :=
  gin.Set_ "api_key_name" (gin.any_string (APIKey.Name ak))
    (gin.Set_ "api_key_id" (gin.any_uint (APIKey.ID ak))
       (gin.Set_ "api_key" (gin.any_APIKey ak) c)).

(** The context of a rejected request. *)
Definition reject (message : string) (c : gin.Context) : gin.Context :=
  gin.Abort (gin.JSON middleware.StatusUnauthorized (middleware.unauthorized message) c).

(** A record that is inactive, or whose expiry has passed at [now]. *)
Definition invalid_at (now : Time) (ak : APIKey) : Prop :=
  APIKey.Active ak = false
  \/ exists expiresAt, APIKey.ExpiresAt ak = Some expiresAt /\ expiresAt < now.

(** The constraints of the table: the primary key and the unique index. *)
Definition consistent (db : gorm.DB) : Prop :=
  List.NoDup (map APIKey.ID (gorm.rows db)) /\ List.NoDup (map APIKey.Key (gorm.rows db)).

(** The identifiers of the table come from its sequence. *)
Definition sequenced (db : gorm.DB) : Prop :=
  forall r, In r (gorm.rows db) -> (APIKey.ID r <= gorm.seq db)%N.

(** The tables the repository can produce from the empty one. *)
Inductive reachable : gorm.DB -> Prop :=
| reachable_empty : reachable gorm.empty
| reachable_Create now apiKey db :
    reachable db -> reachable (fst (repository.Create now apiKey db))
| reachable_Update now apiKey db :
    reachable db -> reachable (fst (repository.Update now apiKey db))
| reachable_Delete now id db :
    reachable db -> reachable (fst (repository.Delete now id db)).

(** The columns an update must leave alone. *)
Definition frame (r : APIKey) : N * string * Time * option Time :=
  (APIKey.ID r, APIKey.Key r, APIKey.CreatedAt r, APIKey.DeletedAt r).

(** What [Update] writes over the stored record [old]. *)
Definition updated (now : Time) (apiKey old : APIKey) : APIKey :=
  {| APIKey.ID := APIKey.ID old;
     APIKey.Name := APIKey.Name apiKey;
     APIKey.Key := APIKey.Key old;
     APIKey.Description := APIKey.Description apiKey;
     APIKey.Active := APIKey.Active apiKey;
     APIKey.ExpiresAt := APIKey.ExpiresAt apiKey;
     APIKey.CreatedAt := APIKey.CreatedAt old;
     APIKey.UpdatedAt := now;
     APIKey.DeletedAt := APIKey.DeletedAt old |}.

(** The record [CreateAPIKey] hands to the store. *)
Definition fresh_record (req : CreateAPIKeyRequest) (plainTextKey : string) : APIKey :=
  {| APIKey.ID := 0;
     APIKey.Name := CreateAPIKeyRequest.Name req;
     APIKey.Key := util.HashAPIKey plainTextKey;
     APIKey.Description := CreateAPIKeyRequest.Description req;
     APIKey.Active := true;
     APIKey.ExpiresAt := CreateAPIKeyRequest.ExpiresAt req;
     APIKey.CreatedAt := 0;
     APIKey.UpdatedAt := 0;
     APIKey.DeletedAt := None |}.




(** White space, as [unicode.IsSpace] has it: the six characters of ASCII,
    U+0085 and U+00A0 of Latin-1, and the space separators, the line and
    the paragraph separator beyond. *)
Definition unicode_IsSpace (r : Z) : bool :=
  ((9 <=? r) && (r <=? 13)) || (r =? 0x20) || (r =? 0x85) || (r =? 0xA0)
  || (r =? 0x1680) || ((0x2000 <=? r) && (r <=? 0x200A))
  || (r =? 0x2028) || (r =? 0x2029) || (r =? 0x202F) || (r =? 0x205F) || (r =? 0x3000).

(** The UTF-8 encoding of a rune. *)
Definition utf8_encode (r : Z) : list byte :=
  let tail (x : Z) := byte_of (Z.lor 0x80 (Z.land x 0x3F)) in
  if r <? 0x80 then [byte_of r]
  else if r <? 0x800 then [byte_of (Z.lor 0xC0 (Z.shiftr r 6)); tail r]
  else if r <? 0x10000 then
    [byte_of (Z.lor 0xE0 (Z.shiftr r 12)); tail (Z.shiftr r 6); tail r]
  else
    [byte_of (Z.lor 0xF0 (Z.shiftr r 18)); tail (Z.shiftr r 12); tail (Z.shiftr r 6); tail r].

(** Strings of white space: the encodings of white space runes, one after
    the other. *)
Inductive white_space : list byte -> Prop :=
| white_space_nil : white_space []
| white_space_rune r bs :
    unicode_IsSpace r = true -> white_space bs -> white_space (utf8_encode r ++ bs).

Definition begins_with_space (bs : list byte) : Prop :=
  exists r rest, unicode_IsSpace r = true /\ bs = utf8_encode r ++ rest.

Definition ends_with_space (bs : list byte) : Prop :=
  exists r front, unicode_IsSpace r = true /\ bs = front ++ utf8_encode r.

(** A string with no white space at either end. *)
Definition trimmed (s : string) : Prop :=
  ~ begins_with_space (bytes_of_string s) /\ ~ ends_with_space (bytes_of_string s).

(** The encodings of white space, as the trimming recognises them. *)
Definition is_token (t : list byte) : bool :=
  match t with
  | [c] => strings.asciiSpace c
  | [c1; c2] => strings.space2 c1 c2
  | [c1; c2; c3] => strings.space3 c1 c2 c3
  | _ => false
  end.

(** The bytes at the front of a string are a white space rune: the first
    step of [trimLeft] removes something. *)
Definition begins_in_space (s : list byte) : bool :=
  match s with
  | [] => false
  | c1 :: s1 =>
      strings.asciiSpace c1
      || match s1 with
         | [] => false
         | c2 :: s2 =>
             strings.space2 c1 c2
             || match s2 with
                | [] => false
                | c3 :: _ => strings.space3 c1 c2 c3
                end
         end
  end.

(** The bytes at the end of a string, given last byte first, open no
    encoding of white space that bytes behind them could complete. *)
Definition no_lead_at_end (rs : list byte) : Prop :=
  match rs with
  | [] => True
  | c2 :: r =>
      byte_val c2 < 0xC2
      /\ match r with
         | [] => True
         | c3 :: _ => byte_val c3 < 0xE1
         end
  end.

(** The bytes at the end of a string, given last byte first, are a white
    space rune: the first step of [trimRight_rev] removes something. *)
Definition ends_in_space (s : list byte) : bool :=
  match s with
  | [] => false
  | c1 :: s1 =>
      strings.asciiSpace c1
      || match s1 with
         | [] => false
         | c2 :: s2 =>
             strings.space2 c2 c1
             || match s2 with
                | [] => false
                | c3 :: _ => strings.space3 c3 c2 c1
                end
         end
  end.

(** * Sample worlds *)

(** A random source, and an empty store at time 1000. *)
Definition sample_entropy : nat -> byte := fun i => ascii_of_nat (171 + 3 * i).

Definition sample_world : World := MkWorld gorm.empty 1000 (Ok sample_entropy).

(** The key [GenerateAPIKey] makes of it. *)
Definition sample_plain : string :=
  Eval vm_compute in
    match fst (exec util.GenerateAPIKey sample_world) with Ok plain => plain | Err _ => "" end.

(** A key that expires at the very instant the clock shows. *)
Definition boundary_secret : string := "sk-boundary".

Definition boundary_hash : string := Eval vm_compute in util.HashAPIKey boundary_secret.

Definition boundary_key : APIKey :=
  {| APIKey.ID := 1;
     APIKey.Name := "ops";
     APIKey.Key := boundary_hash;
     APIKey.Description := "";
     APIKey.Active := true;
     APIKey.ExpiresAt := Some 1000;
     APIKey.CreatedAt := 10;
     APIKey.UpdatedAt := 10;
     APIKey.DeletedAt := None |}.

Definition boundary_world : World :=
  MkWorld (gorm.Make [boundary_key] 1) 1000 (Ok sample_entropy).

(** A request that carries the boundary key as a bearer credential. *)
Definition bearer_request : gin.Context :=
  gin.MkContext {[ "X-API-Key" := "Bearer sk-boundary" ]} ∅ 2 [].

(** A store that holds one inactive key. *)
Definition inactive_secret : string := "sk-retired".

Definition inactive_hash : string := Eval vm_compute in util.HashAPIKey inactive_secret.

Definition inactive_key : APIKey :=
  {| APIKey.ID := 1;
     APIKey.Name := "retired";
     APIKey.Key := inactive_hash;
     APIKey.Description := "";
     APIKey.Active := false;
     APIKey.ExpiresAt := None;
     APIKey.CreatedAt := 10;
     APIKey.UpdatedAt := 20;
     APIKey.DeletedAt := None |}.

Definition inactive_world : World :=
  MkWorld (gorm.Make [inactive_key] 1) 1000 (Ok sample_entropy).

(** A table with two keys, the second one logically deleted. *)
Definition first_key : APIKey :=
  APIKey.Make 1 "ops" boundary_hash "deploys" true None 10 10 None.

Definition second_key : APIKey :=
  APIKey.Make 2 "ci" inactive_hash "" true (Some 5000) 20 20 (Some 30).

Definition two_keys : World :=
  MkWorld (gorm.Make [first_key; second_key] 2) 1000 (Ok sample_entropy).

(** A key named "ops" created in the empty store. *)
Definition ops_request : CreateAPIKeyRequest := CreateAPIKeyRequest.Make "ops" "deploys" None.

Definition ops_created : result APIKeyResponse * World :=
  Eval vm_compute in exec (service.apiKeyService.CreateAPIKey ops_request) sample_world.

Definition ops_response : APIKeyResponse :=
  match fst ops_created with
  | Ok resp => resp
  | Err _ => models.ToResponseWithoutKey APIKey.zero
  end.

(** A request for a key that has already expired when it is created. *)
Definition expired_request : CreateAPIKeyRequest :=
  CreateAPIKeyRequest.Make "ops" "deploys" (Some 500).

Definition expired_created : result APIKeyResponse * World :=
  Eval vm_compute in exec (service.apiKeyService.CreateAPIKey expired_request) sample_world.

Definition expired_response : APIKeyResponse :=
  match fst expired_created with
  | Ok resp => resp
  | Err _ => models.ToResponseWithoutKey APIKey.zero
  end.

(** * The vocabulary of the further properties *)

(** The expiry of the record, if it has one, has not passed at [now]. *)
Definition not_expired_at (now : Time) (ak : APIKey) : Prop :=
  APIKey.ExpiresAt ak = None
  \/ exists expiresAt, APIKey.ExpiresAt ak = Some expiresAt /\ now <= expiresAt.

(** The stored record [ak] makes the secret [key] a valid credential. *)
Definition grants (w : World) (key : string) (ak : APIKey) : Prop :=
  In ak (gorm.rows (db w)) /\ gorm.live ak = true
  /\ APIKey.Active ak = true /\ not_expired_at (clock w) ak
  /\ APIKey.Key ak = util.HashAPIKey key.

(** The table satisfies its constraints and its identifiers come from the
    sequence. *)
Definition well_formed (w : World) : Prop := consistent (db w) /\ sequenced (db w).

(** The mark of deletion set on the record with the given ID. *)
Definition mark_deleted (now : Time) (id : N) (r : APIKey) : APIKey :=
  if (APIKey.ID r =? id)%N then gorm.with_DeletedAt now r else r.

(** A decimal digit, and the number a string of digits denotes. *)
Definition is_digit (c : byte) : bool := (48 <=? byte_val c) && (byte_val c <=? 57).

Definition decimal (cs : list byte) : Z :=
  fold_left (fun n c => n * 10 + (byte_val c - 48)) cs 0.

(** A response with the mask in place of its key. *)
Definition masked (resp : APIKeyResponse) : APIKeyResponse :=
  {| APIKeyResponse.ID := APIKeyResponse.ID resp;
     APIKeyResponse.Name := APIKeyResponse.Name resp;
     APIKeyResponse.Key := "***";
     APIKeyResponse.Description := APIKeyResponse.Description resp;
     APIKeyResponse.Active := APIKeyResponse.Active resp;
     APIKeyResponse.ExpiresAt := APIKeyResponse.ExpiresAt resp;
     APIKeyResponse.CreatedAt := APIKeyResponse.CreatedAt resp;
     APIKeyResponse.UpdatedAt := APIKeyResponse.UpdatedAt resp |}.

(** The strings [ParseUint(s, 10, 32)] accepts, and the ID they denote. *)
Definition parses (s : string) : Prop :=
  s <> "" /\ Forall (fun c => is_digit c = true) (bytes_of_string s)
  /\ decimal (bytes_of_string s) <= 2 ^ 32 - 1.

Definition parsed_id (s : string) : N := Z.to_N (decimal (bytes_of_string s)).

(** The service of the application, behind its handler. *)
Definition the_handler : api_key_handler.APIKeyHandler :=
  api_key_handler.NewAPIKeyHandler service.NewAPIKeyService.

(** The stored record of the key named "ops", and the world after its
    deletion. *)
Definition ops_row : APIKey :=
  Eval vm_compute in hd APIKey.zero (gorm.rows (db (snd ops_created))).

Definition ops_deleted : World :=
  Eval vm_compute in
    snd (exec (service.apiKeyService.DeleteAPIKey 1) (snd ops_created)).

(** The world after the key named "ops" was switched off. *)
Definition ops_off_request : UpdateAPIKeyRequest :=
  UpdateAPIKeyRequest.Make "ops" "deploys" false None.

Definition ops_off : result APIKeyResponse * World :=
  Eval vm_compute in
    exec (service.apiKeyService.UpdateAPIKey 1 ops_off_request) (snd ops_created).

(** * Properties *)

(** The hash, the repository and the string functions are unfolded on
    demand only. *)
Arguments util.HashAPIKey : simpl never.
Arguments repository.Create : simpl never.
Arguments repository.GetByID : simpl never.
Arguments repository.GetByKey : simpl never.
Arguments repository.GetAll : simpl never.
Arguments repository.Update : simpl never.
Arguments repository.Delete : simpl never.
Arguments repository.ExistsByKey : simpl never.
Arguments strings.TrimSpace : simpl never.
Arguments middleware.clean : simpl never.
Arguments hex.EncodeToString : simpl never.

(** ** Strings and bytes *)

Lemma length_string_of_bytes (bs : list byte) :
  String.length (string_of_bytes bs) = length bs.
Proof. induction bs as [|b bs IH]; simpl; [reflexivity | now rewrite IH]. Qed.

Lemma bytes_of_string_of_bytes (bs : list byte) :
  bytes_of_string (string_of_bytes bs) = bs.
Proof. apply String.list_ascii_of_string_of_list_ascii. Qed.

Lemma bytes_of_string_app (s1 s2 : string) :
  bytes_of_string (s1 +:+ s2) = bytes_of_string s1 ++ bytes_of_string s2.
Proof. induction s1 as [|c s1 IH]; simpl; [reflexivity | now rewrite IH]. Qed.

Lemma length_string_app (s1 s2 : string) :
  String.length (s1 +:+ s2) = (String.length s1 + String.length s2)%nat.
Proof. induction s1 as [|c s1 IH]; simpl; [reflexivity | now rewrite IH]. Qed.

Lemma string_eqb_false (s1 s2 : string) : s1 <> s2 -> (s1 =? s2)%string = false.
Proof. apply String.eqb_neq. Qed.

Lemma nonempty_length (s : string) : (0 < String.length s)%nat -> s <> "".
Proof. destruct s; simpl; [lia | discriminate]. Qed.

(** ** encoding/hex and crypto/sha256 *)

Lemma hexdigit_hi_lower (v : byte) :
  hex.is_lower_hex (hex.hexdigit (Z.shiftr (byte_val v) 4)) = true.
Proof. destruct v as [[] [] [] [] [] [] [] []]; vm_compute; reflexivity. Qed.

Lemma hexdigit_lo_lower (v : byte) :
  hex.is_lower_hex (hex.hexdigit (Z.land (byte_val v) 0x0f)) = true.
Proof. destruct v as [[] [] [] [] [] [] [] []]; vm_compute; reflexivity. Qed.

Lemma Encode_length (src : list byte) : length (hex.Encode src) = (2 * length src)%nat.
Proof. induction src as [|v src IH]; simpl; [reflexivity | rewrite IH; lia]. Qed.

Lemma Encode_lower (src : list byte) :
  Forall (fun c => hex.is_lower_hex c = true) (hex.Encode src).
Proof.
  induction src as [|v src IH]; simpl; [constructor|].
  repeat constructor; auto using hexdigit_hi_lower, hexdigit_lo_lower.
Qed.

Lemma EncodeToString_length (src : list byte) :
  String.length (hex.EncodeToString src) = (2 * length src)%nat.
Proof. unfold hex.EncodeToString. now rewrite length_string_of_bytes, Encode_length. Qed.

Lemma EncodeToString_lower (src : list byte) :
  Forall (fun c => hex.is_lower_hex c = true) (bytes_of_string (hex.EncodeToString src)).
Proof.
  unfold hex.EncodeToString. rewrite bytes_of_string_of_bytes. apply Encode_lower.
Qed.

Lemma Sum256_length (data : list byte) : length (sha256.Sum256 data) = sha256.Size.
Proof. unfold sha256.Sum256, sha256.digest_bytes. now rewrite length_map. Qed.

Example sha256_constants :
  length sha256.primes = 64%nat
  /\ nth 0 sha256.init 0 = 0x6a09e667 /\ nth 7 sha256.init 0 = 0x5be0cd19
  /\ nth 0 sha256._K 0 = 0x428a2f98 /\ nth 63 sha256._K 0 = 0xc67178f2.
Proof. repeat split. Qed.

(** The test vectors of FIPS 180-4 for one and for two blocks, and the
    digest of the empty message. *)
Example Sum256_abc :
  hex.EncodeToString (sha256.Sum256 (bytes_of_string "abc"))
  = "ba7816bf8f01cfea414140de5dae2223b00361a396177a9cb410ff61f20015ad".
Proof. vm_compute. reflexivity. Qed.

Example Sum256_two_blocks :
  hex.EncodeToString
    (sha256.Sum256
       (bytes_of_string "abcdbcdecdefdefgefghfghighijhijkijkljklmklmnlmnomnopnopq"))
  = "248d6a61d20638b8e5c026930c3e6039a33ce45964ff2167f6ecedd419db06c1".
Proof. vm_compute. reflexivity. Qed.

Example Sum256_empty :
  hex.EncodeToString (sha256.Sum256 [])
  = "e3b0c44298fc1c149afbf4c8996fb92427ae41e4649b934ca495991b7852b855".
Proof. vm_compute. reflexivity. Qed.

Lemma HashAPIKey_length (key : string) : String.length (util.HashAPIKey key) = 64%nat.
Proof.
  unfold util.HashAPIKey, sha256.Sum. simpl app.
  now rewrite EncodeToString_length, Sum256_length.
Qed.

Lemma HashAPIKey_nonempty (key : string) : util.HashAPIKey key <> "".
Proof. apply nonempty_length. rewrite HashAPIKey_length. lia. Qed.








(** ** Running programs *)

Section RunFacts.
Context {S : Type} (h : forall X, event X -> S -> X * S).

Lemma run_bind {A B} (p : prog A) (f : A -> prog B) (s : S) :
  run h (p ≫= f) s = let '(a, s') := run h p s in run h (f a) s'.
Proof.
  revert s. induction p as [a|X e k IH]; intros s; [reflexivity|].
  change (Vis e k ≫= f) with (Vis e (fun x => k x ≫= f)). simpl.
  destruct (h X e s) as [x s']. apply IH.
Qed.

Lemma trace_bind {A B} (p : prog A) (f : A -> prog B) (s : S) :
  trace h (p ≫= f) s = trace h p s ++ trace h (f (fst (run h p s))) (snd (run h p s)).
Proof.
  revert s. induction p as [a|X e k IH]; intros s; [reflexivity|].
  change (Vis e k ≫= f) with (Vis e (fun x => k x ≫= f)). simpl.
  destruct (h X e s) as [x s']. simpl. now rewrite IH.
Qed.
End RunFacts.

(** ** The key material generator *)

Lemma GenerateAPIKey_run {S} (h : forall X, event X -> S -> X * S) (s : S) :
  run h util.GenerateAPIKey s
  = match fst (h _ rand_Read s) with
    | Err err => (Err err, snd (h _ rand_Read s))
    | Ok src => (Ok ("sk-" +:+ hex.EncodeToString (util.fill src 32)), snd (h _ rand_Read s))
    end.
Proof.
  unfold util.GenerateAPIKey, trigger. cbn.
  destruct (h _ rand_Read s) as [[src|err] s']; reflexivity.
Qed.

(** C4.  Whatever the random source delivers, a plaintext key that
    [GenerateAPIKey] returns without error has 67 characters: the prefix
    [sk-] and 64 lowercase hexadecimal digits. *)
Theorem GenerateAPIKey_format :
  forall (S : Type) (h : forall X, event X -> S -> X * S) (s s' : S) (plain : string),
    run h util.GenerateAPIKey s = (Ok plain, s') ->
    String.length plain = 67%nat
    /\ strings.HasPrefix plain "sk-" = true
    /\ exists digits : string,
         plain = "sk-" +:+ digits
         /\ String.length digits = 64%nat
         /\ Forall (fun c => hex.is_lower_hex c = true) (bytes_of_string digits).
Proof.
  intros S h s s' plain Hrun. rewrite GenerateAPIKey_run in Hrun.
  destruct (fst (h _ rand_Read s)) as [src|err]; [|discriminate].
  injection Hrun as <- _.
  assert (Hlen : String.length (hex.EncodeToString (util.fill src 32)) = 64%nat).
  { rewrite EncodeToString_length. unfold util.fill. now rewrite length_map, length_seq. }
  split; [|split].
  - rewrite length_string_app, Hlen. reflexivity.
  - reflexivity.
  - exists (hex.EncodeToString (util.fill src 32)).
    split; [reflexivity|]. split; [exact Hlen | apply EncodeToString_lower].
Qed.

Lemma sample_plain_generated :
  run handle util.GenerateAPIKey sample_world = (Ok sample_plain, sample_world).
Proof. vm_compute. reflexivity. Qed.

Lemma GenerateAPIKey_format_witness :
  String.length sample_plain = 67%nat /\ strings.HasPrefix sample_plain "sk-" = true.
Proof.
  destruct (GenerateAPIKey_format World handle sample_world sample_world sample_plain
              sample_plain_generated) as [H1 [H2 _]].
  split; [exact H1 | exact H2].
Defined.

(** ** Validity of a key *)

Lemma IsValid_exec (ak : APIKey) (w : World) :
  exec (models.IsValid ak) w
  = (APIKey.Active ak
     && match APIKey.ExpiresAt ak with
        | None => true
        | Some expiresAt => negb (After (clock w) expiresAt)
        end,
     w).
Proof.
  unfold exec, models.IsValid, models.IsExpired.
  destruct (APIKey.Active ak), (APIKey.ExpiresAt ak); reflexivity.
Qed.

Lemma IsValid_exec_true (ak : APIKey) (w : World) :
  fst (exec (models.IsValid ak) w) = true
  <-> APIKey.Active ak = true
      /\ (APIKey.ExpiresAt ak = None
          \/ exists expiresAt, APIKey.ExpiresAt ak = Some expiresAt /\ clock w <= expiresAt).
Proof.
  rewrite IsValid_exec. simpl. unfold After.
  destruct (APIKey.Active ak), (APIKey.ExpiresAt ak) as [e|]; simpl; split.
  - intros H. split; [reflexivity|]. right. exists e. split; [reflexivity|].
    destruct (Z.ltb_spec e (clock w)); [discriminate | lia].
  - intros [_ [H|[e' [[= <-] Hle]]]]; [discriminate|].
    destruct (Z.ltb_spec e (clock w)); [lia | reflexivity].
  - intros _. split; [reflexivity | now left].
  - reflexivity.
  - discriminate.
  - intros [H _]. discriminate.
  - discriminate.
  - intros [H _]. discriminate.
Qed.

(** What [ValidateAPIKey] does with the answer of the store. *)
Lemma ValidateAPIKey_exec (key : string) (w : World) :
  key <> "" ->
  exec (service.apiKeyService.ValidateAPIKey key) w
  = match repository.GetByKey (util.HashAPIKey key) (db w) with
    | Err _ => (Err (errors_New "invalid API key"), w)
    | Ok apiKey =>
        if fst (exec (models.IsValid apiKey) w) then (Ok apiKey, w)
        else (Err (errors_New "API key is not valid"), w)
    end.
Proof.
  intros Hkey. unfold exec, service.apiKeyService.ValidateAPIKey.
  rewrite (string_eqb_false _ _ Hkey). cbn.
  destruct (repository.GetByKey (util.HashAPIKey key) (db w)) as [ak|err]; [|reflexivity].
  fold (@exec bool). rewrite run_bind. fold (exec (models.IsValid ak) w).
  rewrite IsValid_exec. simpl.
  destruct (_ && _); reflexivity.
Qed.

(** C2, as the code has it.  A record that [ValidateAPIKey] finds is
    judged valid exactly when it is active and its expiry is absent or not
    before the current time: validation then returns the record, and fails
    with "API key is not valid" otherwise.  A record whose expiry equals the
    current instant is therefore still valid. *)
Theorem found_record_valid_iff :
  forall (w : World) (key : string) (ak : APIKey),
    key <> "" ->
    repository.GetByKey (util.HashAPIKey key) (db w) = Ok ak ->
    let valid :=
      APIKey.Active ak = true
      /\ (APIKey.ExpiresAt ak = None
          \/ exists expiresAt, APIKey.ExpiresAt ak = Some expiresAt /\ clock w <= expiresAt) in
    (fst (exec (models.IsValid ak) w) = true <-> valid)
    /\ (exec (service.apiKeyService.ValidateAPIKey key) w = (Ok ak, w) <-> valid)
    /\ (exec (service.apiKeyService.ValidateAPIKey key) w
        = (Err (errors_New "API key is not valid"), w) <-> ~ valid).
Proof.
  intros w key ak Hkey Hfound valid.
  pose proof (IsValid_exec_true ak w) as Hiff. fold valid in Hiff.
  rewrite (ValidateAPIKey_exec key w Hkey), Hfound.
  destruct (fst (exec (models.IsValid ak) w)) eqn:Hv.
  - split; [exact Hiff|]. split; split; try discriminate; intros H.
    + now apply Hiff.
    + reflexivity.
    + exfalso. apply H. now apply Hiff.
  - split; [exact Hiff|]. split; split; try discriminate; intros H.
    + apply Hiff in H. discriminate.
    + intros Hvalid. apply Hiff in Hvalid. discriminate.
    + reflexivity.
Qed.

Lemma boundary_key_found :
  repository.GetByKey (util.HashAPIKey boundary_secret) (db boundary_world) = Ok boundary_key.
Proof. vm_compute. reflexivity. Qed.

Lemma found_record_valid_iff_witness :
  exec (service.apiKeyService.ValidateAPIKey boundary_secret) boundary_world
  = (Ok boundary_key, boundary_world).
Proof.
  apply (found_record_valid_iff boundary_world boundary_secret boundary_key).
  - discriminate.
  - exact boundary_key_found.
  - split; [reflexivity|]. right. exists 1000. split; [reflexivity | simpl; lia].
Defined.

(** C2 as stated fails at the boundary: the record is found, its expiry
    equals the current instant, so it is not strictly after it, and yet the
    record is judged valid and validation succeeds. *)
Lemma expiry_at_current_instant_is_valid :
  repository.GetByKey (util.HashAPIKey boundary_secret) (db boundary_world) = Ok boundary_key
  /\ APIKey.ExpiresAt boundary_key = Some (clock boundary_world)
  /\ fst (exec (models.IsValid boundary_key) boundary_world) = true
  /\ fst (exec (service.apiKeyService.ValidateAPIKey boundary_secret) boundary_world)
     = Ok boundary_key
  /\ ~ (APIKey.Active boundary_key = true
        /\ (APIKey.ExpiresAt boundary_key = None
            \/ exists expiresAt,
                 APIKey.ExpiresAt boundary_key = Some expiresAt
                 /\ clock boundary_world < expiresAt)).
Proof.
  split; [exact boundary_key_found|]. split; [reflexivity|]. split; [reflexivity|].
  split; [vm_compute; reflexivity|].
  intros [_ [H|[e [[= <-] Hlt]]]]; [discriminate | simpl in Hlt; lia].
Qed.

(** ** Validation and the store *)

Lemma store_calls_IsValid {S} (h : forall X, event X -> S -> X * S) (ak : APIKey) (s : S) :
  store_calls (trace h (models.IsValid ak) s) = [].
Proof.
  unfold models.IsValid, models.IsExpired.
  destruct (APIKey.Active ak); [|reflexivity].
  destruct (APIKey.ExpiresAt ak); [|reflexivity].
  cbn. destruct (h Time time_Now s). reflexivity.
Qed.

(** C3.  On the empty string [ValidateAPIKey] is the bare failure "API key
    is required": it makes no call at all, so the store is never reached.
    On every other input its first call is [GetByKey] on the hash of the
    input, and that is the only call to the store it makes. *)
Theorem ValidateAPIKey_reaches_store_iff_nonempty :
  service.apiKeyService.ValidateAPIKey "" = Ret (Err (errors_New "API key is required"))
  /\ (forall (S : Type) (h : forall X, event X -> S -> X * S) (s : S),
        run h (service.apiKeyService.ValidateAPIKey "") s
        = (Err (errors_New "API key is required"), s)
        /\ trace h (service.apiKeyService.ValidateAPIKey "") s = [])
  /\ forall key : string,
       key <> "" ->
       (exists k, service.apiKeyService.ValidateAPIKey key
                  = Vis (Repo_GetByKey (util.HashAPIKey key)) k)
       /\ forall (S : Type) (h : forall X, event X -> S -> X * S) (s : S),
            store_calls (trace h (service.apiKeyService.ValidateAPIKey key) s)
            = [Call (Repo_GetByKey (util.HashAPIKey key))].
Proof.
  split; [reflexivity|]. split; [intros; split; reflexivity|].
  intros key Hkey. unfold service.apiKeyService.ValidateAPIKey.
  rewrite (string_eqb_false _ _ Hkey). split.
  - eexists. reflexivity.
  - intros S h s. cbn.
    destruct (h _ (Repo_GetByKey (util.HashAPIKey key)) s) as [[ak|err] s']; cbn.
    + f_equal. fold (@trace S h). rewrite trace_bind.
      unfold store_calls. rewrite List.filter_app.
      fold (store_calls (trace h (models.IsValid ak) s')).
      rewrite store_calls_IsValid. simpl.
      destruct (negb _); reflexivity.
    + reflexivity.
Qed.

Lemma ValidateAPIKey_reaches_store_iff_nonempty_witness :
  store_calls (trace handle (service.apiKeyService.ValidateAPIKey "sk-00") sample_world)
  = [Call (Repo_GetByKey (util.HashAPIKey "sk-00"))].
Proof.
  destruct ValidateAPIKey_reaches_store_iff_nonempty as [_ [_ H]].
  destruct (H "sk-00") as [_ Hcalls]; [discriminate|].
  exact (Hcalls World handle sample_world).
Defined.

(** ** Updating through the service *)

(** C10.  [UpdateAPIKey] rejects a zero ID with "invalid API key ID" and,
    for any other ID, an empty name with "name is required", a failure the
    handler answers with 400 Bad Request.  Both are bare failures that make
    no call; with a nonzero ID and a name the first call is [GetByID] on the
    store. *)
Theorem UpdateAPIKey_validates_before_store :
  forall (id : N) (req : UpdateAPIKeyRequest),
    (id = 0%N ->
       service.apiKeyService.UpdateAPIKey id req = Ret (Err (errors_New "invalid API key ID")))
    /\ (id <> 0%N -> UpdateAPIKeyRequest.Name req = "" ->
          service.apiKeyService.UpdateAPIKey id req = Ret (Err (errors_New "name is required"))
          /\ handler.UpdateAPIKey_status (errors_New "name is required")
             = handler.StatusBadRequest)
    /\ (id <> 0%N -> UpdateAPIKeyRequest.Name req <> "" ->
          exists k, service.apiKeyService.UpdateAPIKey id req = Vis (Repo_GetByID id) k).
Proof.
  intros id req. unfold service.apiKeyService.UpdateAPIKey. repeat split.
  - intros ->. reflexivity.
  - apply N.eqb_neq in H. rewrite H, H0. reflexivity.
  - intros Hid Hname. apply N.eqb_neq in Hid.
    rewrite Hid, (string_eqb_false _ _ Hname). eexists. reflexivity.
Qed.

Lemma UpdateAPIKey_validates_before_store_witness :
  service.apiKeyService.UpdateAPIKey 7 (UpdateAPIKeyRequest.Make "" "rotated" true None)
  = Ret (Err (errors_New "name is required")).
Proof.
  destruct (UpdateAPIKey_validates_before_store
              7 (UpdateAPIKeyRequest.Make "" "rotated" true None)) as [_ [H _]].
  apply H; [discriminate | reflexivity].
Defined.

(** ** White space *)

Lemma list_length_ind {A} (P : list A -> Prop) :
  (forall l, (forall l', (length l' < length l)%nat -> P l') -> P l) -> forall l, P l.
Proof.
  intros H l. remember (length l) as n eqn:Hn. revert l Hn.
  induction n as [n IH] using lt_wf_ind. intros l ->. apply H.
  intros l' Hl'. exact (IH (length l') Hl' l' eq_refl).
Qed.

Lemma trimRight_rev_stuck (s : list byte) :
  ends_in_space s = false -> strings.trimRight_rev s = s.
Proof.
  destruct s as [|c1 [|c2 [|c3 s3]]]; simpl; [reflexivity| | |].
  - destruct (strings.asciiSpace c1); [discriminate | reflexivity].
  - destruct (strings.asciiSpace c1); [discriminate|].
    destruct (strings.space2 c2 c1); [discriminate | reflexivity].
  - destruct (strings.asciiSpace c1); [discriminate|].
    destruct (strings.space2 c2 c1); [discriminate|].
    destruct (strings.space3 c3 c2 c1); [discriminate | reflexivity].
Qed.

(** What [trimRight_rev] returns does not end in white space. *)
Lemma trimRight_rev_trimmed (s : list byte) :
  ends_in_space (strings.trimRight_rev s) = false.
Proof.
  induction s as [s IH] using list_length_ind.
  destruct s as [|c1 s1]; [reflexivity|]. cbn [strings.trimRight_rev].
  destruct (strings.asciiSpace c1) eqn:H1; [apply IH; simpl; lia|].
  destruct s1 as [|c2 s2]; [simpl; now rewrite H1|].
  destruct (strings.space2 c2 c1) eqn:H2; [apply IH; simpl; lia|].
  destruct s2 as [|c3 s3]; [simpl; now rewrite H1, H2|].
  destruct (strings.space3 c3 c2 c1) eqn:H3; [apply IH; simpl; lia|].
  simpl. now rewrite H1, H2, H3.
Qed.

(** White space at the end of a string is white space at the end of every
    string that ends with it. *)
Lemma ends_in_space_app (p q : list byte) :
  ends_in_space p = true -> ends_in_space (p ++ q) = true.
Proof.
  destruct p as [|c1 [|c2 [|c3 p3]]]; simpl; [discriminate| | |].
  - rewrite orb_false_r. intros ->. reflexivity.
  - rewrite orb_false_r. intros H. apply orb_true_iff in H. destruct H as [-> | ->];
      [reflexivity | now rewrite orb_true_r].
  - intros H. exact H.
Qed.

(** [trimLeft] returns the end of its argument. *)
Lemma trimLeft_suffix (s : list byte) : exists pre, s = pre ++ strings.trimLeft s.
Proof.
  induction s as [s IH] using list_length_ind.
  destruct s as [|c1 s1]; [exists []; reflexivity|]. cbn [strings.trimLeft].
  destruct (strings.asciiSpace c1).
  { destruct (IH s1) as [pre Hpre]; [simpl; lia|]. exists (c1 :: pre). simpl. now f_equal. }
  destruct s1 as [|c2 s2]; [exists []; reflexivity|].
  destruct (strings.space2 c1 c2).
  { destruct (IH s2) as [pre Hpre]; [simpl; lia|]. exists (c1 :: c2 :: pre). simpl.
    now do 2 f_equal. }
  destruct s2 as [|c3 s3]; [exists []; reflexivity|].
  destruct (strings.space3 c1 c2 c3); [|exists []; reflexivity].
  destruct (IH s3) as [pre Hpre]; [simpl; lia|]. exists (c1 :: c2 :: c3 :: pre). simpl.
  now do 3 f_equal.
Qed.

(** A string that [trimLeft] consumes entirely ends in white space. *)
Lemma trimLeft_nil_ends_in_space (s q : list byte) :
  s <> [] -> strings.trimLeft s = [] -> ends_in_space (rev s ++ q) = true.
Proof.
  revert q. induction s as [s IH] using list_length_ind. intros q Hs Ht.
  destruct s as [|c1 s1]; [congruence|]. cbn [strings.trimLeft] in Ht.
  destruct (strings.asciiSpace c1) eqn:H1.
  { destruct s1 as [|c2 s2]; [simpl; now rewrite H1|].
    change (rev (c1 :: c2 :: s2)) with (rev (c2 :: s2) ++ [c1]).
    rewrite <- app_assoc. apply IH; [simpl; lia | discriminate | exact Ht]. }
  destruct s1 as [|c2 s2]; [discriminate|].
  destruct (strings.space2 c1 c2) eqn:H2.
  { destruct s2 as [|c3 s3]; [simpl; rewrite H2; now rewrite orb_true_r|].
    change (rev (c1 :: c2 :: c3 :: s3)) with ((rev (c3 :: s3) ++ [c2]) ++ [c1]).
    rewrite <- !app_assoc. apply IH; [simpl; lia | discriminate | exact Ht]. }
  destruct s2 as [|c3 s3]; [discriminate|].
  destruct (strings.space3 c1 c2 c3) eqn:H3; [|discriminate].
  destruct s3 as [|c4 s4]; [simpl; rewrite H3; now rewrite !orb_true_r|].
  change (rev (c1 :: c2 :: c3 :: c4 :: s4)) with (((rev (c4 :: s4) ++ [c3]) ++ [c2]) ++ [c1]).
  rewrite <- !app_assoc. apply IH; [simpl; lia | discriminate | exact Ht].
Qed.

Lemma prefix_split (p k : string) :
  String.prefix p k = true ->
  bytes_of_string k
  = bytes_of_string p ++ skipn (String.length p) (bytes_of_string k).
Proof.
  revert k. induction p as [|a p IH]; intros k; [reflexivity|].
  destruct k as [|b k]; simpl; [discriminate|].
  destruct (ascii_dec a b) as [->|]; [|discriminate].
  intros H. f_equal. now apply IH.
Qed.

Lemma string_of_bytes_nil (bs : list byte) : string_of_bytes bs = "" -> bs = [].
Proof. destruct bs; [reflexivity | discriminate]. Qed.

Lemma TrimSpace_bytes (s : string) :
  bytes_of_string (strings.TrimSpace s)
  = rev (strings.trimRight_rev (rev (strings.trimLeft (bytes_of_string s)))).
Proof. unfold strings.TrimSpace. apply bytes_of_string_of_bytes. Qed.

(** Behind [Bearer ] in a trimmed string there is something left when the
    white space around it is trimmed. *)
Lemma TrimSpace_after_prefix (header : string) :
  strings.HasPrefix (strings.TrimSpace header) "Bearer " = true ->
  strings.TrimSpace (strings.TrimPrefix (strings.TrimSpace header) "Bearer ") <> "".
Proof.
  intros Hp. unfold strings.TrimPrefix. rewrite Hp.
  pose proof (prefix_split _ _ Hp) as Hk.
  set (rest := skipn (String.length "Bearer ") (bytes_of_string (strings.TrimSpace header))) in *.
  intros Hempty. apply (f_equal bytes_of_string) in Hempty.
  rewrite TrimSpace_bytes, bytes_of_string_of_bytes in Hempty. simpl in Hempty.
  (* the trimmed header, last byte first, does not end in white space *)
  assert (Hy : ends_in_space (rev rest ++ rev (bytes_of_string "Bearer ")) = false).
  { rewrite <- rev_app_distr, <- Hk, TrimSpace_bytes, rev_involutive.
    apply trimRight_rev_trimmed. }
  destruct rest as [|c rest'] eqn:Hrest; [discriminate|]. rewrite <- Hrest in *.
  destruct (trimLeft_suffix rest) as [pre Hpre].
  destruct (strings.trimLeft rest) as [|z0 z'] eqn:Hz.
  - rewrite (trimLeft_nil_ends_in_space rest _ ltac:(congruence) Hz) in Hy. discriminate.
  - rewrite <- Hz in *.
    assert (Hstuck : ends_in_space (rev (strings.trimLeft rest)) = false).
    { destruct (ends_in_space (rev (strings.trimLeft rest))) eqn:He; [|reflexivity].
      rewrite Hpre, rev_app_distr, <- app_assoc in Hy.
      rewrite (ends_in_space_app _ _ He) in Hy. discriminate. }
    rewrite (trimRight_rev_stuck _ Hstuck), rev_involutive, Hz in Hempty. discriminate.
Qed.

(** *** The encodings of white space *)

Lemma byte_of_byte_val (c : byte) : byte_of (byte_val c) = c.
Proof. destruct c as [[] [] [] [] [] [] [] []]; reflexivity. Qed.

Lemma byte_is (c : byte) (n : Z) : byte_val c = n -> c = byte_of n.
Proof. intros <-. symmetry. apply byte_of_byte_val. Qed.

Lemma asciiSpace_Z (c : byte) :
  strings.asciiSpace c = true <-> 9 <= byte_val c <= 13 \/ byte_val c = 32.
Proof.
  unfold strings.asciiSpace. cbv zeta.
  rewrite orb_true_iff, andb_true_iff, !Z.leb_le, Z.eqb_eq. tauto.
Qed.

Lemma space2_Z (c1 c2 : byte) :
  strings.space2 c1 c2 = true
  <-> byte_val c1 = 0xC2 /\ (byte_val c2 = 0x85 \/ byte_val c2 = 0xA0).
Proof.
  unfold strings.space2. rewrite andb_true_iff, orb_true_iff, !Z.eqb_eq. tauto.
Qed.

Lemma space3_Z (c1 c2 c3 : byte) :
  strings.space3 c1 c2 c3 = true
  <-> (byte_val c1 = 0xE1 /\ byte_val c2 = 0x9A /\ byte_val c3 = 0x80)
      \/ (byte_val c1 = 0xE2 /\ byte_val c2 = 0x80
          /\ (0x80 <= byte_val c3 <= 0x8A \/ byte_val c3 = 0xA8 \/ byte_val c3 = 0xA9
              \/ byte_val c3 = 0xAF))
      \/ (byte_val c1 = 0xE2 /\ byte_val c2 = 0x81 /\ byte_val c3 = 0x9F)
      \/ (byte_val c1 = 0xE3 /\ byte_val c2 = 0x80 /\ byte_val c3 = 0x80).
Proof.
  unfold strings.space3. cbv beta iota zeta.
  rewrite !orb_true_iff, !andb_true_iff, !orb_true_iff, !andb_true_iff, !Z.leb_le, !Z.eqb_eq.
  tauto.
Qed.

Lemma unicode_IsSpace_Z (r : Z) :
  unicode_IsSpace r = true
  <-> 9 <= r <= 13 \/ r = 0x20 \/ r = 0x85 \/ r = 0xA0 \/ r = 0x1680
      \/ 0x2000 <= r <= 0x200A \/ r = 0x2028 \/ r = 0x2029 \/ r = 0x202F
      \/ r = 0x205F \/ r = 0x3000.
Proof.
  unfold unicode_IsSpace.
  rewrite !orb_true_iff, !andb_true_iff, !Z.leb_le, !Z.eqb_eq. tauto.
Qed.

(** The encoding of a white space rune is one of the byte sequences the
    trimming recognises, and the other way round. *)
Lemma encode_is_token (r : Z) : unicode_IsSpace r = true -> is_token (utf8_encode r) = true.
Proof.
  intros H. apply unicode_IsSpace_Z in H.
  assert (Hr : r = 9 \/ r = 10 \/ r = 11 \/ r = 12 \/ r = 13 \/ r = 0x20 \/ r = 0x85
               \/ r = 0xA0 \/ r = 0x1680 \/ r = 0x2000 \/ r = 0x2001 \/ r = 0x2002
               \/ r = 0x2003 \/ r = 0x2004 \/ r = 0x2005 \/ r = 0x2006 \/ r = 0x2007
               \/ r = 0x2008 \/ r = 0x2009 \/ r = 0x200A \/ r = 0x2028 \/ r = 0x2029
               \/ r = 0x202F \/ r = 0x205F \/ r = 0x3000) by lia.
  clear H. repeat (destruct Hr as [-> | Hr]; [reflexivity|]). subst r. reflexivity.
Qed.

Lemma token_is_encode (t : list byte) :
  is_token t = true -> exists r, unicode_IsSpace r = true /\ t = utf8_encode r.
Proof.
  destruct t as [|c1 [|c2 [|c3 [|c4 t]]]]; simpl; try discriminate.
  - intros H. exists (byte_val c1). apply asciiSpace_Z in H. split.
    + apply unicode_IsSpace_Z. lia.
    + unfold utf8_encode. assert ((byte_val c1 <? 0x80) = true) as -> by (apply Z.ltb_lt; lia).
      now rewrite byte_of_byte_val.
  - intros H. apply space2_Z in H. destruct H as [H1 H2].
    apply byte_is in H1. subst c1.
    destruct H2 as [H2 | H2]; apply byte_is in H2; subst c2;
      [exists 0x85 | exists 0xA0]; split; reflexivity.
  - intros H. apply space3_Z in H.
    assert (Hc : (byte_val c1 = 0xE1 /\ byte_val c2 = 0x9A /\ byte_val c3 = 0x80)
                 \/ (byte_val c1 = 0xE2 /\ byte_val c2 = 0x80
                     /\ (byte_val c3 = 0x80 \/ byte_val c3 = 0x81 \/ byte_val c3 = 0x82
                         \/ byte_val c3 = 0x83 \/ byte_val c3 = 0x84 \/ byte_val c3 = 0x85
                         \/ byte_val c3 = 0x86 \/ byte_val c3 = 0x87 \/ byte_val c3 = 0x88
                         \/ byte_val c3 = 0x89 \/ byte_val c3 = 0x8A \/ byte_val c3 = 0xA8
                         \/ byte_val c3 = 0xA9 \/ byte_val c3 = 0xAF))
                 \/ (byte_val c1 = 0xE2 /\ byte_val c2 = 0x81 /\ byte_val c3 = 0x9F)
                 \/ (byte_val c1 = 0xE3 /\ byte_val c2 = 0x80 /\ byte_val c3 = 0x80)) by lia.
    clear H.
    destruct Hc as [(H1 & H2 & H3) | [(H1 & H2 & H3) | [(H1 & H2 & H3) | (H1 & H2 & H3)]]];
      apply byte_is in H1; apply byte_is in H2; subst c1 c2.
    + apply byte_is in H3. subst c3. exists 0x1680. split; reflexivity.
    + repeat (destruct H3 as [H3 | H3]; [apply byte_is in H3; subst c3|]);
        [exists 0x2000 | exists 0x2001 | exists 0x2002 | exists 0x2003 | exists 0x2004
         | exists 0x2005 | exists 0x2006 | exists 0x2007 | exists 0x2008 | exists 0x2009
         | exists 0x200A | exists 0x2028 | exists 0x2029
         | apply byte_is in H3; subst c3; exists 0x202F]; split; reflexivity.
    + apply byte_is in H3. subst c3. exists 0x205F. split; reflexivity.
    + apply byte_is in H3. subst c3. exists 0x3000. split; reflexivity.
Qed.

Lemma white_space_token (t bs : list byte) :
  is_token t = true -> white_space bs -> white_space (t ++ bs).
Proof.
  intros Ht Hbs. destruct (token_is_encode t Ht) as (r & Hr & ->). now constructor.
Qed.

Lemma white_space_app (a b : list byte) :
  white_space a -> white_space b -> white_space (a ++ b).
Proof.
  induction 1 as [|r bs Hr _ IH]; intros Hb; [exact Hb|].
  rewrite <- app_assoc. constructor; auto.
Qed.

(** *** Trimming removes white space, and only white space *)

Ltac not_space :=
  apply not_true_is_false;
  rewrite ?asciiSpace_Z, ?space2_Z, ?space3_Z; lia.

Lemma token_shape (t : list byte) :
  is_token t = true ->
  (exists c, t = [c] /\ strings.asciiSpace c = true)
  \/ (exists c1 c2, t = [c1; c2] /\ strings.space2 c1 c2 = true)
  \/ (exists c1 c2 c3, t = [c1; c2; c3] /\ strings.space3 c1 c2 c3 = true).
Proof.
  destruct t as [|c1 [|c2 [|c3 [|c4 t]]]]; simpl; try discriminate; eauto 10.
Qed.

Lemma trimLeft_token (t x : list byte) :
  is_token t = true -> strings.trimLeft (t ++ x) = strings.trimLeft x.
Proof.
  intros Ht.
  destruct (token_shape t Ht) as [(c & -> & H) | [(c1 & c2 & -> & H) | (c1 & c2 & c3 & -> & H)]];
    cbn [app strings.trimLeft].
  - now rewrite H.
  - pose proof (proj1 (space2_Z _ _) H) as HZ.
    assert (strings.asciiSpace c1 = false) as -> by not_space.
    now rewrite H.
  - pose proof (proj1 (space3_Z _ _ _) H) as HZ.
    assert (strings.asciiSpace c1 = false) as -> by not_space.
    assert (strings.space2 c1 c2 = false) as -> by not_space.
    now rewrite H.
Qed.

Lemma trimRight_rev_token (t x : list byte) :
  is_token t = true -> strings.trimRight_rev (rev t ++ x) = strings.trimRight_rev x.
Proof.
  intros Ht.
  destruct (token_shape t Ht) as [(c & -> & H) | [(c1 & c2 & -> & H) | (c1 & c2 & c3 & -> & H)]];
    cbn [rev app strings.trimRight_rev].
  - now rewrite H.
  - pose proof (proj1 (space2_Z _ _) H) as HZ.
    assert (strings.asciiSpace c2 = false) as -> by not_space.
    now rewrite H.
  - pose proof (proj1 (space3_Z _ _ _) H) as HZ.
    assert (strings.asciiSpace c3 = false) as -> by not_space.
    assert (strings.space2 c2 c3 = false) as -> by not_space.
    now rewrite H.
Qed.

Lemma trimLeft_white (pre x : list byte) :
  white_space pre -> strings.trimLeft (pre ++ x) = strings.trimLeft x.
Proof.
  induction 1 as [|r bs Hr _ IH]; [reflexivity|].
  rewrite <- app_assoc, trimLeft_token; [exact IH | now apply encode_is_token].
Qed.

Lemma trimRight_rev_white (post x : list byte) :
  white_space post -> strings.trimRight_rev (rev post ++ x) = strings.trimRight_rev x.
Proof.
  intros H. revert x. induction H as [|r bs Hr _ IH]; intros x; [reflexivity|].
  rewrite rev_app_distr, <- app_assoc, IH.
  apply trimRight_rev_token. now apply encode_is_token.
Qed.

Lemma trimLeft_stuck (s : list byte) :
  begins_in_space s = false -> strings.trimLeft s = s.
Proof.
  destruct s as [|c1 [|c2 [|c3 s3]]]; simpl; [reflexivity| | |].
  - destruct (strings.asciiSpace c1); [discriminate | reflexivity].
  - destruct (strings.asciiSpace c1); [discriminate|].
    destruct (strings.space2 c1 c2); [discriminate | reflexivity].
  - destruct (strings.asciiSpace c1); [discriminate|].
    destruct (strings.space2 c1 c2); [discriminate|].
    destruct (strings.space3 c1 c2 c3); [discriminate | reflexivity].
Qed.

Lemma begins_in_space_app (p q : list byte) :
  begins_in_space p = true -> begins_in_space (p ++ q) = true.
Proof.
  destruct p as [|c1 [|c2 [|c3 p3]]]; simpl; [discriminate| | |].
  - rewrite orb_false_r. intros ->. reflexivity.
  - rewrite orb_false_r. intros H. apply orb_true_iff in H. destruct H as [-> | ->];
      [reflexivity | now rewrite orb_true_r].
  - intros H. exact H.
Qed.

(** The two readings of white space at an end of a string agree. *)
Lemma begins_in_space_iff (bs : list byte) :
  begins_in_space bs = true <-> begins_with_space bs.
Proof.
  split.
  - intros H.
    assert (Ht : exists t rest, is_token t = true /\ bs = t ++ rest).
    { destruct bs as [|c1 s1]; [discriminate|]. simpl in H.
      destruct (strings.asciiSpace c1) eqn:H1; [exists [c1], s1; auto|].
      destruct s1 as [|c2 s2]; [discriminate|].
      destruct (strings.space2 c1 c2) eqn:H2; [exists [c1; c2], s2; auto|].
      destruct s2 as [|c3 s3]; [discriminate|].
      exists [c1; c2; c3], s3. auto. }
    destruct Ht as (t & rest & Ht & ->).
    destruct (token_is_encode t Ht) as (r & Hr & ->). now exists r, rest.
  - intros (r & rest & Hr & ->). apply begins_in_space_app.
    apply encode_is_token in Hr. destruct (token_shape _ Hr)
      as [(c & -> & H) | [(c1 & c2 & -> & H) | (c1 & c2 & c3 & -> & H)]]; simpl;
      rewrite H; now rewrite ?orb_true_r.
Qed.

Lemma ends_in_space_iff (bs : list byte) :
  ends_in_space (rev bs) = true <-> ends_with_space bs.
Proof.
  split.
  - intros H.
    assert (Ht : exists t front, is_token t = true /\ rev bs = rev t ++ front).
    { destruct (rev bs) as [|c1 s1]; [discriminate|]. simpl in H.
      destruct (strings.asciiSpace c1) eqn:H1; [exists [c1], s1; auto|].
      destruct s1 as [|c2 s2]; [discriminate|].
      destruct (strings.space2 c2 c1) eqn:H2; [exists [c2; c1], s2; auto|].
      destruct s2 as [|c3 s3]; [discriminate|].
      exists [c3; c2; c1], s3. auto. }
    destruct Ht as (t & front & Ht & Hrev).
    destruct (token_is_encode t Ht) as (r & Hr & ->).
    exists r, (rev front). split; [exact Hr|].
    rewrite <- (rev_involutive bs), Hrev, rev_app_distr. now rewrite rev_involutive.
  - intros (r & front & Hr & ->). rewrite rev_app_distr. apply ends_in_space_app.
    apply encode_is_token in Hr. destruct (token_shape _ Hr)
      as [(c & -> & H) | [(c1 & c2 & -> & H) | (c1 & c2 & c3 & -> & H)]]; simpl;
      rewrite H; now rewrite ?orb_true_r.
Qed.

Lemma trimmed_iff (s : string) :
  trimmed s
  <-> begins_in_space (bytes_of_string s) = false
      /\ ends_in_space (rev (bytes_of_string s)) = false.
Proof.
  unfold trimmed. rewrite <- begins_in_space_iff, <- ends_in_space_iff.
  rewrite !not_true_iff_false. tauto.
Qed.

(** [trimLeft] removes white space, and all of it. *)
Lemma trimLeft_decompose (s : list byte) :
  exists pre,
    s = pre ++ strings.trimLeft s /\ white_space pre
    /\ begins_in_space (strings.trimLeft s) = false.
Proof.
  induction s as [s IH] using list_length_ind.
  destruct s as [|c1 s1]; [exists []; repeat split; constructor|]. cbn [strings.trimLeft].
  destruct (strings.asciiSpace c1) eqn:H1.
  { destruct (IH s1) as (pre & Hpre & Hw & Hb); [simpl; lia|]. exists ([c1] ++ pre).
    split; [simpl; now f_equal|]. split; [now apply white_space_token | exact Hb]. }
  destruct s1 as [|c2 s2].
  { exists []. split; [reflexivity|]. split; [constructor|]. simpl. now rewrite H1. }
  destruct (strings.space2 c1 c2) eqn:H2.
  { destruct (IH s2) as (pre & Hpre & Hw & Hb); [simpl; lia|]. exists ([c1; c2] ++ pre).
    split; [simpl; now do 2 f_equal|]. split; [now apply white_space_token | exact Hb]. }
  destruct s2 as [|c3 s3].
  { exists []. split; [reflexivity|]. split; [constructor|]. simpl. now rewrite H1, H2. }
  destruct (strings.space3 c1 c2 c3) eqn:H3.
  { destruct (IH s3) as (pre & Hpre & Hw & Hb); [simpl; lia|]. exists ([c1; c2; c3] ++ pre).
    split; [simpl; now do 3 f_equal|]. split; [now apply white_space_token | exact Hb]. }
  exists []. split; [reflexivity|]. split; [constructor|]. simpl. now rewrite H1, H2, H3.
Qed.

(** [trimRight_rev] removes white space, read backwards. *)
Lemma trimRight_rev_decompose (s : list byte) :
  exists q, s = q ++ strings.trimRight_rev s /\ white_space (rev q).
Proof.
  induction s as [s IH] using list_length_ind.
  destruct s as [|c1 s1]; [exists []; repeat split; constructor|].
  cbn [strings.trimRight_rev].
  assert (Hsnoc : forall t q, is_token t = true -> white_space (rev q) ->
                              white_space (rev (rev t ++ q))).
  { intros t q Ht Hq. rewrite rev_app_distr, rev_involutive. apply white_space_app; [exact Hq|].
    rewrite <- (app_nil_r t). apply white_space_token; [exact Ht | constructor]. }
  destruct (strings.asciiSpace c1) eqn:H1.
  { destruct (IH s1) as (q & Hq & Hw); [simpl; lia|]. exists (rev [c1] ++ q).
    split; [simpl; now f_equal | now apply Hsnoc]. }
  destruct s1 as [|c2 s2]; [exists []; split; [reflexivity | constructor]|].
  destruct (strings.space2 c2 c1) eqn:H2.
  { destruct (IH s2) as (q & Hq & Hw); [simpl; lia|]. exists (rev [c2; c1] ++ q).
    split; [simpl; now do 2 f_equal | now apply Hsnoc]. }
  destruct s2 as [|c3 s3]; [exists []; split; [reflexivity | constructor]|].
  destruct (strings.space3 c3 c2 c1) eqn:H3.
  { destruct (IH s3) as (q & Hq & Hw); [simpl; lia|]. exists (rev [c3; c2; c1] ++ q).
    split; [simpl; now do 3 f_equal | now apply Hsnoc]. }
  exists []. split; [reflexivity | constructor].
Qed.

(** What [TrimSpace] returns is its argument without the white space at
    both ends, and it is trimmed. *)
Lemma TrimSpace_decompose (s : string) :
  exists pre post,
    bytes_of_string s = pre ++ bytes_of_string (strings.TrimSpace s) ++ post
    /\ white_space pre /\ white_space post /\ trimmed (strings.TrimSpace s).
Proof.
  destruct (trimLeft_decompose (bytes_of_string s)) as (pre & Hpre & Hwpre & Hb).
  set (u := strings.trimLeft (bytes_of_string s)) in *.
  destruct (trimRight_rev_decompose (rev u)) as (q & Hq & Hwq).
  assert (Hres : bytes_of_string (strings.TrimSpace s) = rev (strings.trimRight_rev (rev u)))
    by apply TrimSpace_bytes.
  assert (Hu : u = bytes_of_string (strings.TrimSpace s) ++ rev q).
  { rewrite Hres, <- rev_app_distr, <- Hq. now rewrite rev_involutive. }
  exists pre, (rev q). split; [now rewrite <- Hu|]. split; [exact Hwpre|]. split; [exact Hwq|].
  apply trimmed_iff. split.
  - destruct (begins_in_space (bytes_of_string (strings.TrimSpace s))) eqn:He; [|reflexivity].
    apply (begins_in_space_app _ (rev q)) in He. rewrite <- Hu, Hb in He. discriminate.
  - rewrite Hres, rev_involutive. apply trimRight_rev_trimmed.
Qed.

(** *** White space next to other bytes *)

(** White space begins with a byte of ASCII or with the first byte of an
    encoding, never with a byte from the middle of one. *)
Lemma white_space_head (post : list byte) (c : byte) (rest : list byte) :
  white_space post -> post = c :: rest -> byte_val c < 0x80 \/ 0xC2 <= byte_val c.
Proof.
  intros Hw. revert c rest. induction Hw as [|r bs Hr Hbs IH]; intros c rest; [discriminate|].
  apply encode_is_token in Hr.
  destruct (token_shape _ Hr) as [(c1 & -> & H) | [(c1 & c2 & -> & H) | (c1 & c2 & c3 & -> & H)]];
    intros [= <- _].
  - apply asciiSpace_Z in H. lia.
  - apply space2_Z in H. lia.
  - apply space3_Z in H. lia.
Qed.

Lemma begins_in_space_front (k post : list byte) :
  k <> [] -> begins_in_space k = false -> white_space post ->
  begins_in_space (k ++ post) = false.
Proof.
  intros Hk Hb Hw. destruct k as [|c1 [|c2 [|c3 k3]]]; [congruence| | |exact Hb].
  - simpl in Hb. rewrite orb_false_r in Hb. cbn [app begins_in_space]. rewrite Hb.
    destruct post as [|p1 post]; [reflexivity|].
    pose proof (white_space_head _ p1 post Hw eq_refl) as Hp.
    assert (strings.space2 c1 p1 = false) as -> by not_space.
    destruct post as [|p2 post]; [reflexivity|].
    assert (strings.space3 c1 p1 p2 = false) as -> by not_space. reflexivity.
  - simpl in Hb. rewrite orb_false_r in Hb. cbn [app begins_in_space].
    apply orb_false_iff in Hb. destruct Hb as [-> ->].
    destruct post as [|p1 post]; [reflexivity|].
    pose proof (white_space_head _ p1 post Hw eq_refl) as Hp.
    assert (strings.space3 c1 c2 p1 = false) as -> by not_space. reflexivity.
Qed.

Lemma no_lead_token (t rh : list byte) :
  is_token t = true -> no_lead_at_end rh -> no_lead_at_end (rev t ++ rh).
Proof.
  intros Ht Hrh.
  destruct (token_shape t Ht) as [(c & -> & H) | [(c1 & c2 & -> & H) | (c1 & c2 & c3 & -> & H)]];
    cbn [rev app no_lead_at_end].
  - apply asciiSpace_Z in H. split; [lia|].
    destruct rh as [|c2 rh]; [exact I|]. destruct Hrh as [Hc2 _]. lia.
  - apply space2_Z in H. split; lia.
  - apply space3_Z in H. split; lia.
Qed.

Lemma no_lead_white (mid : list byte) :
  white_space mid ->
  forall h, no_lead_at_end (rev h) -> no_lead_at_end (rev (h ++ mid)).
Proof.
  induction 1 as [|r bs Hr _ IH]; intros h Hh; [now rewrite app_nil_r|].
  rewrite app_assoc. apply IH. rewrite rev_app_distr.
  apply no_lead_token; [now apply encode_is_token | exact Hh].
Qed.

Lemma ends_in_space_back (rk rx : list byte) :
  rk <> [] -> ends_in_space rk = false -> no_lead_at_end rx ->
  ends_in_space (rk ++ rx) = false.
Proof.
  intros Hk He Hx. destruct rk as [|c1 [|c2 [|c3 k3]]]; [congruence| | |exact He].
  - simpl in He. rewrite orb_false_r in He. cbn [app ends_in_space]. rewrite He.
    destruct rx as [|x1 rx]; [reflexivity|]. destruct Hx as [Hx1 Hx].
    assert (strings.space2 x1 c1 = false) as -> by not_space.
    destruct rx as [|x2 rx]; [reflexivity|].
    assert (strings.space3 x2 x1 c1 = false) as -> by not_space. reflexivity.
  - simpl in He. rewrite orb_false_r in He. cbn [app ends_in_space].
    apply orb_false_iff in He. destruct He as [-> ->].
    destruct rx as [|x1 rx]; [reflexivity|]. destruct Hx as [Hx1 _].
    assert (strings.space3 x1 c2 c1 = false) as -> by not_space. reflexivity.
Qed.

Lemma string_of_bytes_of_string (s : string) : string_of_bytes (bytes_of_string s) = s.
Proof. apply String.string_of_list_ascii_of_string. Qed.

(** [TrimSpace] returns the trimmed string in the middle of white space. *)
Lemma TrimSpace_white (s k : string) (pre post : list byte) :
  bytes_of_string s = pre ++ bytes_of_string k ++ post ->
  white_space pre -> white_space post -> trimmed k ->
  strings.TrimSpace s = k.
Proof.
  intros Hs Hpre Hpost Hk. apply trimmed_iff in Hk. destruct Hk as [Hb He].
  unfold strings.TrimSpace. rewrite Hs, trimLeft_white by exact Hpre.
  destruct (bytes_of_string k) as [|c bs] eqn:Hbytes.
  - cbn [app]. rewrite <- (app_nil_r post), trimLeft_white by exact Hpost.
    rewrite <- (string_of_bytes_of_string k), Hbytes. reflexivity.
  - rewrite <- Hbytes in *.
    rewrite trimLeft_stuck
      by (apply begins_in_space_front; [now rewrite Hbytes | exact Hb | exact Hpost]).
    rewrite rev_app_distr, trimRight_rev_white by exact Hpost.
    rewrite trimRight_rev_stuck by exact He.
    now rewrite rev_involutive, string_of_bytes_of_string.
Qed.

(** *** What the gate presents to the service *)

Lemma prefix_append (p x : string) : String.prefix p (p +:+ x) = true.
Proof.
  induction p as [|a p IH]; [now destruct x|]. simpl.
  destruct (ascii_dec a a); [exact IH | congruence].
Qed.

Lemma clean_plain (header k : string) (pre post : list byte) :
  bytes_of_string header = pre ++ bytes_of_string k ++ post ->
  white_space pre -> white_space post -> trimmed k ->
  strings.HasPrefix k "Bearer " = false ->
  middleware.clean header = k.
Proof.
  intros Hs Hpre Hpost Hk Hp. unfold middleware.clean.
  rewrite (TrimSpace_white header k pre post Hs Hpre Hpost Hk). now rewrite Hp.
Qed.

Lemma clean_bearer (header k : string) (pre mid post : list byte) :
  bytes_of_string header
  = pre ++ bytes_of_string "Bearer " ++ mid ++ bytes_of_string k ++ post ->
  white_space pre -> white_space mid -> white_space post ->
  trimmed k -> k <> "" ->
  middleware.clean header = k.
Proof.
  intros Hs Hpre Hmid Hpost Hk Hne.
  set (t := "Bearer " +:+ string_of_bytes mid +:+ k).
  assert (Hbt : bytes_of_string t = bytes_of_string "Bearer " ++ mid ++ bytes_of_string k).
  { unfold t. now rewrite !bytes_of_string_app, bytes_of_string_of_bytes. }
  assert (Hkb : bytes_of_string k <> []).
  { intros H. apply Hne. rewrite <- (string_of_bytes_of_string k), H. reflexivity. }
  assert (Ht : trimmed t).
  { apply trimmed_iff. split; [rewrite Hbt; reflexivity|].
    rewrite Hbt, app_assoc, rev_app_distr. apply trimmed_iff in Hk.
    apply ends_in_space_back.
    - intros H. apply Hkb. rewrite <- (rev_involutive (bytes_of_string k)), H. reflexivity.
    - exact (proj2 Hk).
    - apply no_lead_white; [exact Hmid|]. vm_compute. repeat split. }
  assert (Htrim : strings.TrimSpace header = t).
  { apply (TrimSpace_white header t pre post); auto.
    rewrite Hbt, Hs. now rewrite <- !app_assoc. }
  unfold middleware.clean. rewrite Htrim.
  assert (Hp : strings.HasPrefix t "Bearer " = true) by apply prefix_append.
  rewrite Hp. unfold strings.TrimPrefix. rewrite Hp.
  apply (TrimSpace_white _ k mid []); auto using white_space_nil.
  rewrite bytes_of_string_of_bytes, Hbt, app_nil_r. reflexivity.
Qed.

(** Every header is of one of these two forms. *)
Lemma clean_decompose (header : string) :
  trimmed (middleware.clean header)
  /\ ((exists pre post,
         bytes_of_string header = pre ++ bytes_of_string (middleware.clean header) ++ post
         /\ white_space pre /\ white_space post
         /\ strings.HasPrefix (middleware.clean header) "Bearer " = false)
      \/ (exists pre mid post,
            bytes_of_string header
            = pre ++ bytes_of_string "Bearer " ++ mid
                  ++ bytes_of_string (middleware.clean header) ++ post
            /\ white_space pre /\ white_space mid /\ white_space post
            /\ middleware.clean header <> "")).
Proof.
  destruct (TrimSpace_decompose header) as (pre & post & Hs & Hpre & Hpost & Ht).
  pose proof (TrimSpace_after_prefix header) as Hne.
  unfold middleware.clean.
  destruct (strings.HasPrefix (strings.TrimSpace header) "Bearer ") eqn:Hp.
  - specialize (Hne eq_refl).
    set (rest := strings.TrimPrefix (strings.TrimSpace header) "Bearer ") in *.
    destruct (TrimSpace_decompose rest) as (mid & post' & Hr & Hmid & Hpost' & Hk).
    split; [exact Hk|]. right. exists pre, mid, (post' ++ post).
    split; [|auto using white_space_app].
    rewrite Hs, (prefix_split _ _ Hp).
    assert (Hrest : bytes_of_string rest
                    = skipn (String.length "Bearer ")
                        (bytes_of_string (strings.TrimSpace header))).
    { unfold rest, strings.TrimPrefix. rewrite Hp. apply bytes_of_string_of_bytes. }
    rewrite <- Hrest, Hr. now rewrite <- !app_assoc.
  - split; [exact Ht|]. left. exists pre, post. auto.
Qed.

Lemma clean_empty_white (header : string) :
  middleware.clean header = "" <-> white_space (bytes_of_string header).
Proof.
  split.
  - intros He. destruct (clean_decompose header)
      as [_ [(pre & post & Hs & Hpre & Hpost & _) | (pre & mid & post & _ & _ & _ & _ & Hne)]];
      [|contradiction].
    rewrite Hs, He. cbn [bytes_of_string String.list_ascii_of_string app].
    now apply white_space_app.
  - intros Hw. apply (clean_plain header "" (bytes_of_string header) []);
      auto using white_space_nil.
    + cbn [bytes_of_string String.list_ascii_of_string app]. now rewrite app_nil_r.
    + apply trimmed_iff. split; reflexivity.
Qed.

(** ** The gate *)

Lemma attach_spec (ak : APIKey) (c : gin.Context) :
  gin.Keys (attach ak c) !! "api_key" = Some (gin.any_APIKey ak)
  /\ gin.Keys (attach ak c) !! "api_key_id" = Some (gin.any_uint (APIKey.ID ak))
  /\ gin.Keys (attach ak c) !! "api_key_name" = Some (gin.any_string (APIKey.Name ak))
  /\ gin.Header (attach ak c) = gin.Header c
  /\ gin.index (attach ak c) = gin.index c
  /\ gin.Written (attach ak c) = gin.Written c.
Proof.
  unfold attach, gin.Set_. simpl. repeat split.
  - rewrite lookup_insert_ne by discriminate.
    rewrite lookup_insert_ne by discriminate. apply lookup_insert_eq.
  - rewrite lookup_insert_ne by discriminate. apply lookup_insert_eq.
  - apply lookup_insert_eq.
Qed.

Lemma reject_spec (message : string) (c : gin.Context) :
  gin.IsAborted (reject message c) = true
  /\ gin.Written (reject message c)
     = gin.Written c ++ [(401, middleware.unauthorized message)]
  /\ gin.Keys (reject message c) = gin.Keys c.
Proof. repeat split. Qed.

Section Gate.
Context (apiKeyService : service.APIKeyService).
Context (Next : gin.Context -> prog gin.Context).
Context {S : Type} (h : forall X, event X -> S -> X * S).

Lemma gate_missing (c : gin.Context) :
  gin.GetHeader c "X-API-Key" = "" ->
  middleware.APIKeyAuthMiddleware apiKeyService Next c
  = Ret (reject "API key is required" c).
Proof. intros H. unfold middleware.APIKeyAuthMiddleware. rewrite H. reflexivity. Qed.

Lemma gate_blank (c : gin.Context) :
  gin.GetHeader c "X-API-Key" <> "" ->
  middleware.clean (gin.GetHeader c "X-API-Key") = "" ->
  middleware.APIKeyAuthMiddleware apiKeyService Next c
  = Ret (reject "API key cannot be empty" c).
Proof.
  intros H1 H2. unfold middleware.APIKeyAuthMiddleware.
  rewrite (string_eqb_false _ _ H1), H2. reflexivity.
Qed.

Lemma gate_validates (c : gin.Context) :
  gin.GetHeader c "X-API-Key" <> "" ->
  middleware.clean (gin.GetHeader c "X-API-Key") <> "" ->
  middleware.APIKeyAuthMiddleware apiKeyService Next c
  = (service.ValidateAPIKey apiKeyService (middleware.clean (gin.GetHeader c "X-API-Key"))
     ≫= fun r =>
          match r with
          | Err _ => Ret (reject "Invalid API key" c)
          | Ok validatedAPIKey => Next (attach validatedAPIKey c)
          end).
Proof.
  intros H1 H2. unfold middleware.APIKeyAuthMiddleware.
  rewrite (string_eqb_false _ _ H1), (string_eqb_false _ _ H2). reflexivity.
Qed.

Lemma gate_invalid (c : gin.Context) (s s' : S) (err : error) :
  gin.GetHeader c "X-API-Key" <> "" ->
  middleware.clean (gin.GetHeader c "X-API-Key") <> "" ->
  run h (service.ValidateAPIKey apiKeyService
           (middleware.clean (gin.GetHeader c "X-API-Key"))) s = (Err err, s') ->
  run h (middleware.APIKeyAuthMiddleware apiKeyService Next c) s
  = (reject "Invalid API key" c, s')
  /\ trace h (middleware.APIKeyAuthMiddleware apiKeyService Next c) s
     = trace h (service.ValidateAPIKey apiKeyService
                  (middleware.clean (gin.GetHeader c "X-API-Key"))) s.
Proof.
  intros H1 H2 Hv. rewrite (gate_validates c H1 H2). split.
  - rewrite run_bind, Hv. reflexivity.
  - rewrite trace_bind, Hv. simpl. apply app_nil_r.
Qed.

Lemma gate_valid (c : gin.Context) (s s' : S) (ak : APIKey) :
  gin.GetHeader c "X-API-Key" <> "" ->
  middleware.clean (gin.GetHeader c "X-API-Key") <> "" ->
  run h (service.ValidateAPIKey apiKeyService
           (middleware.clean (gin.GetHeader c "X-API-Key"))) s = (Ok ak, s') ->
  run h (middleware.APIKeyAuthMiddleware apiKeyService Next c) s
  = run h (Next (attach ak c)) s'.
Proof.
  intros H1 H2 Hv. rewrite (gate_validates c H1 H2), run_bind, Hv. reflexivity.
Qed.

End Gate.

Example clean_examples :
  middleware.clean "  sk-abc " = "sk-abc"
  /\ middleware.clean "Bearer sk-abc" = "sk-abc"
  /\ middleware.clean "  Bearer   sk-abc  " = "sk-abc"
  /\ middleware.clean "   " = ""
  /\ middleware.clean "bearer sk-abc" = "bearer sk-abc"
  /\ middleware.clean "Bearer " = "Bearer".
Proof. repeat split. Qed.

(** C9.  The gate reads the header [X-API-Key].  When the header is absent
    or empty, or empty once cleaned, the gate answers 401 and aborts,
    whatever the service and the rest of the chain are: neither is run.
    Otherwise it presents the cleaned header to [ValidateAPIKey]; on a
    failure it answers 401 and aborts, having made the calls of the
    validation only; on success it attaches the key, its ID and its name to
    the context, changes nothing else in it, and runs the rest of the
    chain.

    The cleaned header is the header without the white space around it
    and, when what is left begins with [Bearer ], without that prefix and
    the white space behind it.  It is trimmed, and the header is the
    cleaned header between white space, with or without the prefix; a
    header of one of these two forms is cleaned to its middle.  So the
    cleaned header is empty exactly when the header is white space; the
    prefix is stripped once, and only when a key follows it: [Bearer]
    between white space is presented as the key [Bearer]. *)
Theorem gate_contract :
  forall (apiKeyService : service.APIKeyService)
         (Next : gin.Context -> prog gin.Context) (c : gin.Context),
    let header := gin.GetHeader c "X-API-Key" in
    let key := middleware.clean header in
    let gate := middleware.APIKeyAuthMiddleware apiKeyService Next c in
    ((gin.Header c !! "X-API-Key" = None \/ gin.Header c !! "X-API-Key" = Some "") ->
       gate = Ret (reject "API key is required" c))
    /\ (header <> "" -> key = "" -> gate = Ret (reject "API key cannot be empty" c))
    /\ (header <> "" -> key <> "" ->
          forall (S : Type) (h : forall X, event X -> S -> X * S) (s s' : S),
            (forall err,
                run h (service.ValidateAPIKey apiKeyService key) s = (Err err, s') ->
                run h gate s = (reject "Invalid API key" c, s')
                /\ trace h gate s = trace h (service.ValidateAPIKey apiKeyService key) s)
            /\ (forall ak,
                  run h (service.ValidateAPIKey apiKeyService key) s = (Ok ak, s') ->
                  run h gate s = run h (Next (attach ak c)) s'
                  /\ gin.Keys (attach ak c) !! "api_key_id"
                     = Some (gin.any_uint (APIKey.ID ak))
                  /\ gin.Keys (attach ak c) !! "api_key_name"
                     = Some (gin.any_string (APIKey.Name ak))
                  /\ gin.Header (attach ak c) = gin.Header c
                  /\ gin.index (attach ak c) = gin.index c
                  /\ gin.Written (attach ak c) = gin.Written c))
    /\ (forall message,
          gin.IsAborted (reject message c) = true
          /\ gin.Written (reject message c)
             = gin.Written c ++ [(401, middleware.unauthorized message)]
          /\ gin.Keys (reject message c) = gin.Keys c)
    /\ trimmed key
    /\ ((exists pre post,
           bytes_of_string header = pre ++ bytes_of_string key ++ post
           /\ white_space pre /\ white_space post
           /\ strings.HasPrefix key "Bearer " = false)
        \/ (exists pre mid post,
              bytes_of_string header
              = pre ++ bytes_of_string "Bearer " ++ mid ++ bytes_of_string key ++ post
              /\ white_space pre /\ white_space mid /\ white_space post
              /\ key <> ""))
    /\ (forall (k : string) (pre post : list byte),
          bytes_of_string header = pre ++ bytes_of_string k ++ post ->
          white_space pre -> white_space post -> trimmed k ->
          strings.HasPrefix k "Bearer " = false ->
          key = k)
    /\ (forall (k : string) (pre mid post : list byte),
          bytes_of_string header
          = pre ++ bytes_of_string "Bearer " ++ mid ++ bytes_of_string k ++ post ->
          white_space pre -> white_space mid -> white_space post ->
          trimmed k -> k <> "" ->
          key = k)
    /\ (key = "" <-> white_space (bytes_of_string header))
    /\ (forall pre post : list byte,
          bytes_of_string header = pre ++ bytes_of_string "Bearer" ++ post ->
          white_space pre -> white_space post ->
          key = "Bearer").
Proof.
  intros svc Next c header key gate.
  split; [|split; [|split; [|split; [|split; [|split; [|split; [|split; [|split]]]]]]]].
  - intros H. apply gate_missing. unfold gin.GetHeader. destruct H as [-> | ->]; reflexivity.
  - apply gate_blank.
  - intros Hh Hk S h s s'. split.
    + intros err Hv. exact (gate_invalid svc Next h c s s' err Hh Hk Hv).
    + intros ak Hv. split; [exact (gate_valid svc Next h c s s' ak Hh Hk Hv)|].
      destruct (attach_spec ak c) as (_ & H2 & H3 & H4 & H5 & H6). auto.
  - intros message. apply reject_spec.
  - apply clean_decompose.
  - apply clean_decompose.
  - intros k pre post. apply clean_plain.
  - intros k pre mid post. apply clean_bearer.
  - apply clean_empty_white.
  - intros pre post Hs Hpre Hpost. apply (clean_plain header "Bearer" pre post); auto.
    apply trimmed_iff. split; reflexivity.
Qed.

Lemma bearer_request_key :
  middleware.clean (gin.GetHeader bearer_request "X-API-Key") = boundary_secret.
Proof. vm_compute. reflexivity. Qed.

Lemma boundary_secret_validated :
  run handle (service.ValidateAPIKey service.NewAPIKeyService boundary_secret) boundary_world
  = (Ok boundary_key, boundary_world).
Proof. vm_compute. reflexivity. Qed.

Lemma gate_contract_witness :
  exec (middleware.APIKeyAuthMiddleware service.NewAPIKeyService Ret bearer_request)
       boundary_world
  = (attach boundary_key bearer_request, boundary_world).
Proof.
  destruct (gate_contract service.NewAPIKeyService Ret bearer_request) as (_ & _ & H & _).
  rewrite bearer_request_key in H.
  destruct (H ltac:(discriminate) ltac:(discriminate) World handle boundary_world boundary_world)
    as [_ Hok].
  destruct (Hok boundary_key boundary_secret_validated) as [Hrun _].
  exact Hrun.
Defined.

(** ** Failed validations *)

Lemma invalid_at_IsValid (w : World) (ak : APIKey) :
  invalid_at (clock w) ak -> fst (exec (models.IsValid ak) w) = false.
Proof.
  intros Hinv. destruct (fst (exec (models.IsValid ak) w)) eqn:Hv; [|reflexivity].
  apply IsValid_exec_true in Hv. destruct Hv as [Hact Hexp].
  destruct Hinv as [Hoff | [e [He Hlt]]]; [congruence|].
  destruct Hexp as [Hnone | [e' [He' Hle]]]; [congruence|].
  rewrite He in He'. injection He' as <-. lia.
Qed.

(** C1, as the code has it.  A secret that the store does not find and a
    secret whose record is inactive or expired both make [ValidateAPIKey]
    fail, without touching the world, but with two different errors:
    "invalid API key" and "API key is not valid".  It is the gate that
    answers both with one and the same 401 response, "Invalid API key", and
    aborts. *)
Theorem validation_failures_merge_at_gate :
  forall (w : World) (key : string),
    key <> "" ->
    let found := repository.GetByKey (util.HashAPIKey key) (db w) in
    (forall err, found = Err err ->
       exec (service.apiKeyService.ValidateAPIKey key) w
       = (Err (errors_New "invalid API key"), w))
    /\ (forall ak, found = Ok ak -> invalid_at (clock w) ak ->
          exec (service.apiKeyService.ValidateAPIKey key) w
          = (Err (errors_New "API key is not valid"), w))
    /\ (forall (Next : gin.Context -> prog gin.Context) (c : gin.Context),
          gin.GetHeader c "X-API-Key" <> "" ->
          middleware.clean (gin.GetHeader c "X-API-Key") = key ->
          (exists err, found = Err err)
          \/ (exists ak, found = Ok ak /\ invalid_at (clock w) ak) ->
          exec (middleware.APIKeyAuthMiddleware service.NewAPIKeyService Next c) w
          = (reject "Invalid API key" c, w)).
Proof.
  intros w key Hkey found.
  assert (H1 : forall err, found = Err err ->
                 exec (service.apiKeyService.ValidateAPIKey key) w
                 = (Err (errors_New "invalid API key"), w)).
  { intros err Hf. rewrite (ValidateAPIKey_exec key w Hkey). fold found. now rewrite Hf. }
  assert (H2 : forall ak, found = Ok ak -> invalid_at (clock w) ak ->
                 exec (service.apiKeyService.ValidateAPIKey key) w
                 = (Err (errors_New "API key is not valid"), w)).
  { intros ak Hf Hinv. rewrite (ValidateAPIKey_exec key w Hkey). fold found. rewrite Hf.
    now rewrite (invalid_at_IsValid w ak Hinv). }
  split; [exact H1|]. split; [exact H2|].
  intros Next c Hh Hc Hfail. subst key.
  destruct Hfail as [[err Hf] | [ak [Hf Hinv]]].
  - exact (proj1 (gate_invalid service.NewAPIKeyService Next handle c w w _ Hh Hkey
                    (H1 err Hf))).
  - exact (proj1 (gate_invalid service.NewAPIKeyService Next handle c w w _ Hh Hkey
                    (H2 ak Hf Hinv))).
Qed.

Lemma inactive_key_found :
  repository.GetByKey (util.HashAPIKey inactive_secret) (db inactive_world) = Ok inactive_key.
Proof. vm_compute. reflexivity. Qed.

Lemma unknown_key_not_found :
  repository.GetByKey (util.HashAPIKey "sk-unknown") (db inactive_world)
  = Err (errors_New "API key not found").
Proof. vm_compute. reflexivity. Qed.

Lemma validation_failures_merge_at_gate_witness :
  exec (service.apiKeyService.ValidateAPIKey inactive_secret) inactive_world
  = (Err (errors_New "API key is not valid"), inactive_world).
Proof.
  destruct (validation_failures_merge_at_gate inactive_world inactive_secret
              ltac:(discriminate)) as (_ & H & _).
  apply (H inactive_key inactive_key_found). left. reflexivity.
Defined.

(** C1 as stated fails: in one and the same world the caller of
    [ValidateAPIKey] gets "invalid API key" for a secret the store does not
    know and "API key is not valid" for the secret of an inactive record,
    and so tells the two cases apart. *)
Lemma validation_failures_are_distinguishable :
  repository.GetByKey (util.HashAPIKey "sk-unknown") (db inactive_world)
  = Err (errors_New "API key not found")
  /\ repository.GetByKey (util.HashAPIKey inactive_secret) (db inactive_world)
     = Ok inactive_key
  /\ APIKey.Active inactive_key = false
  /\ fst (exec (service.apiKeyService.ValidateAPIKey "sk-unknown") inactive_world)
     = Err (errors_New "invalid API key")
  /\ fst (exec (service.apiKeyService.ValidateAPIKey inactive_secret) inactive_world)
     = Err (errors_New "API key is not valid")
  /\ fst (exec (service.apiKeyService.ValidateAPIKey "sk-unknown") inactive_world)
     <> fst (exec (service.apiKeyService.ValidateAPIKey inactive_secret) inactive_world).
Proof.
  assert (H1 : fst (exec (service.apiKeyService.ValidateAPIKey "sk-unknown") inactive_world)
               = Err (errors_New "invalid API key")) by (vm_compute; reflexivity).
  assert (H2 : fst (exec (service.apiKeyService.ValidateAPIKey inactive_secret) inactive_world)
               = Err (errors_New "API key is not valid")) by (vm_compute; reflexivity).
  split; [exact unknown_key_not_found|]. split; [exact inactive_key_found|].
  split; [reflexivity|]. split; [exact H1|]. split; [exact H2|].
  rewrite H1, H2. discriminate.
Qed.

(** ** The key store *)

Lemma NoDup_map_inj {A B} (f : A -> B) (l : list A) (x y : A) :
  List.NoDup (map f l) -> In x l -> In y l -> f x = f y -> x = y.
Proof.
  induction l as [|a l IH]; simpl; intros Hnd Hx Hy Hf; [contradiction|].
  inversion Hnd as [|? ? Hnotin Hnd']; subst.
  destruct Hx as [-> | Hx], Hy as [-> | Hy]; auto.
  - exfalso. apply Hnotin. rewrite Hf. now apply in_map.
  - exfalso. apply Hnotin. rewrite <- Hf. now apply in_map.
Qed.

Lemma existsb_false_forall {A} (f : A -> bool) (l : list A) :
  existsb f l = false <-> forall x, In x l -> f x = false.
Proof.
  induction l as [|a l IH]; simpl; [tauto|].
  rewrite orb_false_iff, IH. split.
  - intros [Ha Hl] x [<- | Hx]; auto.
  - intros H. split; auto.
Qed.

Lemma first_by_ID_In (l : list APIKey) (r : APIKey) :
  gorm.first_by_ID l = Some r -> In r l.
Proof.
  revert r. induction l as [|a l IH]; simpl; intros r H; [discriminate|].
  destruct (gorm.first_by_ID l) as [m|] eqn:Hm.
  - destruct (APIKey.ID a <=? APIKey.ID m)%N; injection H as <-; auto.
  - injection H as <-. now left.
Qed.

Lemma first_by_ID_None (l : list APIKey) : gorm.first_by_ID l = None -> l = [].
Proof.
  destruct l as [|a l]; simpl; [reflexivity|].
  destruct (gorm.first_by_ID l) as [m|]; [|discriminate].
  destruct (APIKey.ID a <=? APIKey.ID m)%N; discriminate.
Qed.

Lemma Where_In (cond : APIKey -> bool) (db : gorm.DB) (r : APIKey) :
  In r (gorm.Where cond db) <-> In r (gorm.rows db) /\ gorm.live r = true /\ cond r = true.
Proof. unfold gorm.Where. rewrite List.filter_In, andb_true_iff. tauto. Qed.

Lemma First_Ok (cond : APIKey -> bool) (db : gorm.DB) (r : APIKey) :
  gorm.First cond db = Ok r -> In r (gorm.rows db) /\ gorm.live r = true /\ cond r = true.
Proof.
  unfold gorm.First. destruct (gorm.first_by_ID _) as [m|] eqn:Hm; [|discriminate].
  intros [= <-]. apply Where_In. now apply first_by_ID_In.
Qed.

Lemma First_Err (cond : APIKey -> bool) (db : gorm.DB) (err : error) :
  gorm.First cond db = Err err -> err = ErrRecordNotFound /\ gorm.Where cond db = [].
Proof.
  unfold gorm.First. destruct (gorm.first_by_ID _) as [m|] eqn:Hm; [discriminate|].
  intros [= <-]. split; [reflexivity | now apply first_by_ID_None].
Qed.

Lemma GetByID_Ok (id : N) (db : gorm.DB) (r : APIKey) :
  repository.GetByID id db = Ok r ->
  id <> 0%N /\ In r (gorm.rows db) /\ gorm.live r = true /\ APIKey.ID r = id.
Proof.
  unfold repository.GetByID. destruct (N.eqb_spec id 0); [discriminate|].
  destruct (gorm.First _ db) as [m|err] eqn:Hf.
  - intros [= <-]. apply First_Ok in Hf. destruct Hf as (Hin & Hlive & Hid).
    apply N.eqb_eq in Hid. auto.
  - destruct (repository.is_ErrRecordNotFound err); discriminate.
Qed.

Lemma GetByKey_Ok (key : string) (db : gorm.DB) (r : APIKey) :
  repository.GetByKey key db = Ok r ->
  key <> "" /\ In r (gorm.rows db) /\ gorm.live r = true /\ APIKey.Key r = key.
Proof.
  unfold repository.GetByKey. destruct (String.eqb_spec key ""); [discriminate|].
  destruct (gorm.First _ db) as [m|err] eqn:Hf.
  - intros [= <-]. apply First_Ok in Hf. destruct Hf as (Hin & Hlive & Hk).
    apply String.eqb_eq in Hk. auto.
  - destruct (repository.is_ErrRecordNotFound err); discriminate.
Qed.

(** A lookup that fails on this table fails with "API key not found" or,
    for the empty hash, "key is required". *)
Lemma GetByKey_Err (key : string) (db : gorm.DB) (err : error) :
  repository.GetByKey key db = Err err ->
  (key = "" /\ err = errors_New "key is required")
  \/ (key <> "" /\ err = errors_New "API key not found"
      /\ forall r, In r (gorm.rows db) -> gorm.live r = true -> APIKey.Key r <> key).
Proof.
  unfold repository.GetByKey. destruct (String.eqb_spec key "") as [->|Hk].
  - intros [= <-]. now left.
  - destruct (gorm.First _ db) as [m|e] eqn:Hf; [discriminate|].
    apply First_Err in Hf. destruct Hf as [-> Hnil]. simpl. intros [= <-].
    right. split; [exact Hk|]. split; [reflexivity|].
    intros r Hin Hlive Hkey.
    assert (Hr : In r (gorm.Where (repository.key_is key) db)).
    { apply Where_In. split; [exact Hin|]. split; [exact Hlive|].
      unfold repository.key_is. now apply String.eqb_eq. }
    rewrite Hnil in Hr. destruct Hr.
Qed.

Lemma ExistsByKey_true (key : string) (db : gorm.DB) :
  repository.ExistsByKey key db = true
  <-> key <> "" /\ exists r, In r (gorm.rows db) /\ gorm.live r = true /\ APIKey.Key r = key.
Proof.
  unfold repository.ExistsByKey, gorm.Count.
  destruct (String.eqb_spec key "") as [->|Hk].
  - split; [discriminate | intros [H _]; now destruct H].
  - destruct (gorm.Where (repository.key_is key) db) as [|r l] eqn:Hw; simpl.
    + split; [discriminate|]. intros [_ [r (Hin & Hlive & Hkey)]].
      assert (Hr : In r (gorm.Where (repository.key_is key) db)).
      { apply Where_In. repeat split; auto. unfold repository.key_is.
        now apply String.eqb_eq. }
      rewrite Hw in Hr. destruct Hr.
    + split; [|reflexivity]. intros _. split; [exact Hk|]. exists r.
      assert (Hr : In r (gorm.Where (repository.key_is key) db)) by (rewrite Hw; now left).
      apply Where_In in Hr. destruct Hr as (Hin & Hlive & Hkey).
      apply String.eqb_eq in Hkey. auto.
Qed.

Lemma ExistsByKey_false (key : string) (db : gorm.DB) :
  key <> "" ->
  repository.ExistsByKey key db = false ->
  gorm.Where (repository.key_is key) db = [].
Proof.
  intros Hk. unfold repository.ExistsByKey, gorm.Count.
  rewrite (string_eqb_false _ _ Hk).
  destruct (gorm.Where _ db); [reflexivity | discriminate].
Qed.

Lemma NoDup_snoc {A} (l : list A) (x : A) :
  List.NoDup l -> ~ In x l -> List.NoDup (l ++ [x]).
Proof.
  induction l as [|a l IH]; simpl; intros Hnd Hx.
  - constructor; [intros [] | constructor].
  - inversion Hnd as [|? ? Ha Hl]; subst. constructor.
    + rewrite in_app_iff. simpl. intros [H | [H | []]]; [auto | subst; auto].
    + apply IH; auto.
Qed.

Lemma map_frame_ID (l l' : list APIKey) :
  map frame l' = map frame l -> map APIKey.ID l' = map APIKey.ID l.
Proof.
  intros H. apply (f_equal (map (fun t => fst (fst (fst t))))) in H.
  rewrite !map_map in H. exact H.
Qed.

Lemma map_frame_Key (l l' : list APIKey) :
  map frame l' = map frame l -> map APIKey.Key l' = map APIKey.Key l.
Proof.
  intros H. apply (f_equal (map (fun t => snd (fst (fst t))))) in H.
  rewrite !map_map in H. exact H.
Qed.

Lemma consistent_frame (db db' : gorm.DB) :
  map frame (gorm.rows db') = map frame (gorm.rows db) -> consistent db -> consistent db'.
Proof.
  intros H [Hid Hkey]. split.
  - now rewrite (map_frame_ID _ _ H).
  - now rewrite (map_frame_Key _ _ H).
Qed.

(** The two outcomes of an INSERT. *)
Lemma gorm_Create_cases (now : Time) (value : APIKey) (db : gorm.DB) :
  let row := gorm.to_insert now value db in
  ((exists r, In r (gorm.rows db)
              /\ (APIKey.ID r = APIKey.ID row \/ APIKey.Key r = APIKey.Key value))
   /\ gorm.rows (fst (gorm.Create now value db)) = gorm.rows db
   /\ exists constraint,
        snd (gorm.Create now value db) = (value, Some (gorm.unique_violation constraint)))
  \/ ((forall r, In r (gorm.rows db) ->
                 APIKey.ID r <> APIKey.ID row /\ APIKey.Key r <> APIKey.Key value)
      /\ gorm.rows (fst (gorm.Create now value db)) = gorm.rows db ++ [row]
      /\ snd (gorm.Create now value db) = (row, None)).
Proof.
  intros row. unfold gorm.Create. fold row.
  destruct (existsb (gorm.same_ID row) (gorm.rows db)) eqn:Hid.
  - left. apply existsb_exists in Hid. destruct Hid as (r & Hin & Hr).
    apply N.eqb_eq in Hr. split; [exists r; auto|]. split; [reflexivity|].
    eexists. reflexivity.
  - destruct (existsb (gorm.same_Key row) (gorm.rows db)) eqn:Hkey.
    + left. apply existsb_exists in Hkey. destruct Hkey as (r & Hin & Hr).
      apply String.eqb_eq in Hr. simpl in Hr. split; [exists r; auto|].
      split; [reflexivity|]. eexists. reflexivity.
    + right. split; [|split; reflexivity]. intros r Hin.
      rewrite existsb_false_forall in Hid, Hkey.
      specialize (Hid r Hin). specialize (Hkey r Hin).
      apply N.eqb_neq in Hid. apply String.eqb_neq in Hkey. simpl in Hkey. auto.
Qed.

Lemma consistent_gorm_Create (now : Time) (value : APIKey) (db : gorm.DB) :
  consistent db -> consistent (fst (gorm.Create now value db)).
Proof.
  intros [Hid Hkey]. unfold consistent.
  destruct (gorm_Create_cases now value db) as [(_ & -> & _) | (Hfresh & -> & _)];
    [split; assumption|].
  rewrite !map_app. simpl. split; apply NoDup_snoc; auto.
  - intros Hin. apply in_map_iff in Hin. destruct Hin as (r & Hr & Hin).
    now apply (proj1 (Hfresh r Hin)).
  - intros Hin. apply in_map_iff in Hin. destruct Hin as (r & Hr & Hin).
    now apply (proj2 (Hfresh r Hin)).
Qed.

(** Saving a record that carries the identity, the hash and the marks of
    a live row of a consistent table overwrites that row and no other. *)
Lemma gorm_Save_existing (now : Time) (value old : APIKey) (db : gorm.DB) :
  consistent db ->
  In old (gorm.rows db) -> gorm.live old = true ->
  APIKey.ID old <> 0%N ->
  APIKey.ID value = APIKey.ID old -> APIKey.Key value = APIKey.Key old ->
  gorm.Save now value db
  = (gorm.Make (map (fun r => if (APIKey.ID r =? APIKey.ID old)%N
                              then gorm.with_UpdatedAt now value else r) (gorm.rows db))
               (gorm.seq db),
     (gorm.with_UpdatedAt now value, None)).
Proof.
  intros [Hids Hkeys] Hin Hlive Hnz Hid Hkey. unfold gorm.Save.
  rewrite Hid. rewrite (proj2 (N.eqb_neq _ _) Hnz).
  assert (Hhit : existsb (fun r => gorm.live r && gorm.same_ID value r) (gorm.rows db) = true).
  { apply existsb_exists. exists old. split; [exact Hin|].
    unfold gorm.same_ID. rewrite Hlive, Hid, N.eqb_refl. reflexivity. }
  rewrite Hhit.
  assert (Hclash : existsb (fun r => negb (gorm.same_ID value r) && gorm.same_Key value r)
                     (gorm.rows db) = false).
  { apply existsb_false_forall. intros r Hr.
    unfold gorm.same_ID, gorm.same_Key. rewrite Hid, Hkey.
    destruct (String.eqb_spec (APIKey.Key old) (APIKey.Key r)) as [Heq|];
      [|apply andb_false_r].
    rewrite (NoDup_map_inj APIKey.Key _ old r Hkeys Hin Hr Heq), N.eqb_refl. reflexivity. }
  rewrite Hclash. f_equal. f_equal. apply map_ext_in. intros r Hr.
  unfold gorm.same_ID. rewrite Hid, (N.eqb_sym (APIKey.ID old)).
  destruct (N.eqb_spec (APIKey.ID r) (APIKey.ID old)) as [Heq|];
    [|now rewrite andb_false_r].
  rewrite (NoDup_map_inj APIKey.ID _ r old Hids Hr Hin Heq), Hlive. reflexivity.
Qed.

(** The two outcomes of [Update] on a consistent table. *)
Lemma Update_cases (now : Time) (apiKey : APIKey) (db : gorm.DB) :
  consistent db ->
  (exists err, repository.Update now apiKey db = (db, (apiKey, Some err)))
  \/ (exists old,
        In old (gorm.rows db) /\ gorm.live old = true
        /\ APIKey.ID old = APIKey.ID apiKey /\ APIKey.ID apiKey <> 0%N
        /\ APIKey.Name apiKey <> ""
        /\ repository.Update now apiKey db
           = (gorm.Make (map (fun r => if (APIKey.ID r =? APIKey.ID apiKey)%N
                                       then updated now apiKey old else r) (gorm.rows db))
                        (gorm.seq db),
              (updated now apiKey old, None))).
Proof.
  intros Hc. unfold repository.Update.
  destruct (N.eqb_spec (APIKey.ID apiKey) 0) as [|Hnz]; [left; eexists; reflexivity|].
  destruct (String.eqb_spec (APIKey.Name apiKey) "") as [|Hname];
    [left; eexists; reflexivity|].
  destruct (repository.GetByID (APIKey.ID apiKey) db) as [old|err] eqn:Hget;
    [|left; eexists; reflexivity].
  right. exists old. apply GetByID_Ok in Hget. destruct Hget as (_ & Hin & Hlive & Hid).
  repeat (split; [assumption|]).
  rewrite (gorm_Save_existing now _ old db Hc Hin Hlive); simpl; try congruence.
  unfold updated, gorm.with_UpdatedAt. simpl. rewrite Hid. reflexivity.
Qed.

Lemma Update_frame_rows (now : Time) (apiKey : APIKey) (db : gorm.DB) :
  consistent db ->
  map frame (gorm.rows (fst (repository.Update now apiKey db))) = map frame (gorm.rows db)
  /\ gorm.seq (fst (repository.Update now apiKey db)) = gorm.seq db.
Proof.
  intros Hc. destruct (Update_cases now apiKey db Hc)
    as [[err ->] | (old & Hin & Hlive & Hid & _ & _ & ->)]; [split; reflexivity|].
  simpl. split; [|reflexivity]. rewrite map_map. apply map_ext_in. intros r Hr.
  destruct (N.eqb_spec (APIKey.ID r) (APIKey.ID apiKey)) as [Heq|]; [|reflexivity].
  destruct Hc as [Hids _].
  assert (r = old) as -> by (apply (NoDup_map_inj APIKey.ID _ r old Hids Hr Hin); congruence).
  reflexivity.
Qed.

Lemma consistent_Update (now : Time) (apiKey : APIKey) (db : gorm.DB) :
  consistent db -> consistent (fst (repository.Update now apiKey db)).
Proof.
  intros Hc. apply (consistent_frame db); [|exact Hc].
  apply (Update_frame_rows now apiKey db Hc).
Qed.

Lemma consistent_Create (now : Time) (apiKey : APIKey) (db : gorm.DB) :
  consistent db -> consistent (fst (repository.Create now apiKey db)).
Proof.
  intros Hc. unfold repository.Create.
  destruct (_ =? _)%string; [exact Hc|].
  destruct (_ =? _)%string; [exact Hc|].
  destruct (repository.ExistsByKey _ db); [exact Hc|].
  now apply consistent_gorm_Create.
Qed.

Lemma consistent_Delete (now : Time) (id : N) (db : gorm.DB) :
  consistent db -> consistent (fst (repository.Delete now id db)).
Proof.
  intros Hc. unfold repository.Delete.
  destruct (id =? 0)%N; [exact Hc|].
  destruct (repository.GetByID id db); [|exact Hc].
  unfold gorm.Delete. simpl. destruct Hc as [Hids Hkeys]. split; simpl.
  - rewrite map_map. erewrite map_ext; [exact Hids|].
    intros r. simpl. destruct (_ && _); reflexivity.
  - rewrite map_map. erewrite map_ext; [exact Hkeys|].
    intros r. simpl. destruct (_ && _); reflexivity.
Qed.

Lemma reachable_consistent (db : gorm.DB) : reachable db -> consistent db.
Proof.
  induction 1 as [| now apiKey db _ IH | now apiKey db _ IH | now id db _ IH].
  - split; constructor.
  - now apply consistent_Create.
  - now apply consistent_Update.
  - now apply consistent_Delete.
Qed.

(** ** Updating a stored key *)

Lemma UpdateAPIKey_exec_db (w : World) (id : N) (req : UpdateAPIKeyRequest) :
  db (snd (exec (service.apiKeyService.UpdateAPIKey id req) w)) = db w
  \/ exists apiKey,
       db (snd (exec (service.apiKeyService.UpdateAPIKey id req) w))
       = fst (repository.Update (clock w) apiKey (db w)).
Proof.
  unfold exec, service.apiKeyService.UpdateAPIKey.
  destruct (id =? 0)%N; [now left|].
  destruct (_ =? _)%string; [now left|].
  cbn. destruct (repository.GetByID id (db w)) as [existing|err]; [|now left].
  right. exists (models.FromUpdateRequest existing req). cbn.
  destruct (repository.Update _ _ _) as [db' [ak' [err|]]]; reflexivity.
Qed.

(** C7.  On a table that satisfies its constraints, [Update] leaves the
    ID, the key hash, the creation time and the deletion mark of every
    stored record as they were, whatever record it is given, and so does an
    update through the service.  When it succeeds, the record with the given
    ID has taken the name, the description, the active flag and the expiry
    of the argument (and the time of the update); every other record is
    untouched.  When it fails the table is unchanged. *)
Theorem Update_writes_mutable_fields_only :
  forall (w : World) (apiKey : APIKey) (id : N) (req : UpdateAPIKeyRequest),
    consistent (db w) ->
    let out := repository.Update (clock w) apiKey (db w) in
    map frame (gorm.rows (fst out)) = map frame (gorm.rows (db w))
    /\ (forall apiKey',
          snd out = (apiKey', None) ->
          exists old,
            In old (gorm.rows (db w)) /\ gorm.live old = true
            /\ APIKey.ID old = APIKey.ID apiKey
            /\ apiKey' = updated (clock w) apiKey old
            /\ APIKey.Key apiKey' = APIKey.Key old
            /\ gorm.rows (fst out)
               = map (fun r => if (APIKey.ID r =? APIKey.ID apiKey)%N then apiKey' else r)
                     (gorm.rows (db w)))
    /\ (forall apiKey' err, snd out = (apiKey', Some err) -> fst out = db w)
    /\ map frame (gorm.rows (db (snd (exec (service.apiKeyService.UpdateAPIKey id req) w))))
       = map frame (gorm.rows (db w)).
Proof.
  intros w apiKey id req Hc out. split; [apply (Update_frame_rows _ _ _ Hc)|].
  split; [|split].
  - intros apiKey' Hout. subst out.
    destruct (Update_cases (clock w) apiKey (db w) Hc)
      as [[err Herr] | (old & Hin & Hlive & Hid & _ & _ & Hup)].
    + rewrite Herr in Hout. discriminate.
    + rewrite Hup in Hout |- *. injection Hout as <-. exists old. auto 10.
  - intros apiKey' err Hout. subst out.
    destruct (Update_cases (clock w) apiKey (db w) Hc)
      as [[err' Herr] | (old & _ & _ & _ & _ & _ & Hup)].
    + now rewrite Herr.
    + rewrite Hup in Hout. discriminate.
  - destruct (UpdateAPIKey_exec_db w id req) as [-> | [ak ->]]; [reflexivity|].
    apply (Update_frame_rows _ _ _ Hc).
Qed.

Lemma two_keys_consistent : consistent (db two_keys).
Proof.
  split; simpl; repeat constructor; simpl; intuition discriminate.
Qed.

Lemma Update_writes_mutable_fields_only_witness :
  map frame (gorm.rows (db (snd (exec (service.apiKeyService.UpdateAPIKey 1
                                         (UpdateAPIKeyRequest.Make "ops2" "" false None))
                                      two_keys))))
  = [ (1%N, boundary_hash, 10, None); (2%N, inactive_hash, 20, Some 30) ].
Proof.
  destruct (Update_writes_mutable_fields_only two_keys first_key 1
              (UpdateAPIKeyRequest.Make "ops2" "" false None) two_keys_consistent)
    as (_ & _ & _ & H).
  exact H.
Defined.

(** ** Creating a key in the store *)

Lemma first_by_ID_Some (l : list APIKey) : l <> [] -> exists r, gorm.first_by_ID l = Some r.
Proof.
  destruct l as [|a l]; [congruence|]. intros _. simpl.
  destruct (gorm.first_by_ID l) as [m|]; [|eauto].
  destruct (APIKey.ID a <=? APIKey.ID m)%N; eauto.
Qed.

Lemma First_found (cond : APIKey -> bool) (db : gorm.DB) (r : APIKey) :
  In r (gorm.rows db) -> gorm.live r = true -> cond r = true ->
  exists m, gorm.First cond db = Ok m.
Proof.
  intros Hin Hlive Hcond. unfold gorm.First.
  destruct (first_by_ID_Some (gorm.Where cond db)) as [m ->]; [|eauto].
  intros Hnil. assert (Hr : In r (gorm.Where cond db)) by (apply Where_In; auto).
  rewrite Hnil in Hr. destruct Hr.
Qed.

(** On a table that satisfies its constraints the live record with a given
    hash is the one a lookup by hash returns. *)
Lemma GetByKey_unique (db : gorm.DB) (ak : APIKey) (key : string) :
  consistent db -> key <> "" ->
  In ak (gorm.rows db) -> gorm.live ak = true -> APIKey.Key ak = key ->
  repository.GetByKey key db = Ok ak.
Proof.
  intros [_ Hkeys] Hk Hin Hlive Hkey. unfold repository.GetByKey.
  rewrite (string_eqb_false _ _ Hk).
  destruct (First_found (repository.key_is key) db ak Hin Hlive) as [m Hm].
  { unfold repository.key_is. now apply String.eqb_eq. }
  rewrite Hm. apply First_Ok in Hm. destruct Hm as (Hmin & _ & Hmk).
  apply String.eqb_eq in Hmk. f_equal.
  apply (NoDup_map_inj APIKey.Key _ m ak Hkeys Hmin Hin). congruence.
Qed.

Lemma GetByID_unique (db : gorm.DB) (ak : APIKey) :
  consistent db -> APIKey.ID ak <> 0%N ->
  In ak (gorm.rows db) -> gorm.live ak = true ->
  repository.GetByID (APIKey.ID ak) db = Ok ak.
Proof.
  intros [Hids _] Hnz Hin Hlive. unfold repository.GetByID.
  rewrite (proj2 (N.eqb_neq _ _) Hnz).
  destruct (First_found (repository.id_is (APIKey.ID ak)) db ak Hin Hlive) as [m Hm].
  { unfold repository.id_is. apply N.eqb_refl. }
  rewrite Hm. apply First_Ok in Hm. destruct Hm as (Hmin & _ & Hmid).
  apply N.eqb_eq in Hmid. f_equal.
  apply (NoDup_map_inj APIKey.ID _ m ak Hids Hmin Hin). congruence.
Qed.

Lemma GetByID_not_found (db : gorm.DB) (id : N) :
  id <> 0%N ->
  (forall r, In r (gorm.rows db) -> gorm.live r = true -> APIKey.ID r <> id) ->
  repository.GetByID id db = Err (errors_New "API key not found").
Proof.
  intros Hnz Hnone. unfold repository.GetByID. rewrite (proj2 (N.eqb_neq _ _) Hnz).
  destruct (gorm.First _ db) as [m|err] eqn:Hf.
  - apply First_Ok in Hf. destruct Hf as (Hin & Hlive & Hid). apply N.eqb_eq in Hid.
    exfalso. now apply (Hnone m Hin Hlive).
  - apply First_Err in Hf. destruct Hf as [-> _]. reflexivity.
Qed.

Lemma GetByKey_not_found (db : gorm.DB) (key : string) :
  key <> "" ->
  (forall r, In r (gorm.rows db) -> gorm.live r = true -> APIKey.Key r <> key) ->
  repository.GetByKey key db = Err (errors_New "API key not found").
Proof.
  intros Hk Hnone. unfold repository.GetByKey. rewrite (string_eqb_false _ _ Hk).
  destruct (gorm.First _ db) as [m|err] eqn:Hf.
  - apply First_Ok in Hf. destruct Hf as (Hin & Hlive & Hkey). apply String.eqb_eq in Hkey.
    exfalso. now apply (Hnone m Hin Hlive).
  - apply First_Err in Hf. destruct Hf as [-> _]. reflexivity.
Qed.

(** C8, as the code has it.  [Create] fails with "name is required" on an
    empty name and with "key is required" on an empty hash.  With both
    present it fails with "API key already exists", which the handler
    answers with 409 Conflict, when a record the store can see (a live one)
    has the same hash.  When no live record has the hash, the INSERT is
    made: it is refused by the primary key when the ID is taken, and by the
    unique index when a row has the hash, which can only be a logically
    deleted one; the error is then the one of the driver, not "API key
    already exists" (500 in the handler), and the table keeps its rows.
    When no row at all has the hash and the ID is free, the record is
    appended with its identity and timestamps, and on a table that
    satisfies its constraints a record not handed over as deleted is found
    again by its hash and by its ID.  An ID drawn from the sequence is
    free.  The constraints of the table survive, so that in no table the
    repository can produce do two records share a hash. *)
Theorem Create_contract :
  forall (now : Time) (apiKey : APIKey) (db : gorm.DB),
    let out := repository.Create now apiKey db in
    let row := gorm.to_insert now apiKey db in
    (APIKey.Name apiKey = "" ->
       out = (db, (apiKey, Some (errors_New "name is required"))))
    /\ (APIKey.Name apiKey <> "" -> APIKey.Key apiKey = "" ->
          out = (db, (apiKey, Some (errors_New "key is required"))))
    /\ (APIKey.Name apiKey <> "" -> APIKey.Key apiKey <> "" ->
          (exists r, In r (gorm.rows db) /\ gorm.live r = true
                     /\ APIKey.Key r = APIKey.Key apiKey) ->
          out = (db, (apiKey, Some (errors_New "API key already exists")))
          /\ handler.CreateAPIKey_status (errors_New "API key already exists")
             = handler.StatusConflict)
    /\ (APIKey.Name apiKey <> "" -> APIKey.Key apiKey <> "" ->
          (forall r, In r (gorm.rows db) -> gorm.live r = true ->
                     APIKey.Key r <> APIKey.Key apiKey) ->
          ((exists r, In r (gorm.rows db) /\ APIKey.ID r = APIKey.ID row) ->
             gorm.rows (fst out) = gorm.rows db
             /\ snd out = (apiKey, Some (gorm.unique_violation "api_keys_pkey")))
          /\ ((forall r, In r (gorm.rows db) -> APIKey.ID r <> APIKey.ID row) ->
              (exists r, In r (gorm.rows db) /\ APIKey.Key r = APIKey.Key apiKey) ->
              gorm.rows (fst out) = gorm.rows db
              /\ snd out = (apiKey, Some (gorm.unique_violation "idx_api_keys_key")))
          /\ (forall constraint,
                gorm.unique_violation constraint <> errors_New "API key already exists"
                /\ handler.CreateAPIKey_status (gorm.unique_violation constraint)
                   = handler.StatusInternalServerError))
    /\ (APIKey.Name apiKey <> "" -> APIKey.Key apiKey <> "" ->
          (forall r, In r (gorm.rows db) ->
                     APIKey.Key r <> APIKey.Key apiKey /\ APIKey.ID r <> APIKey.ID row) ->
          gorm.rows (fst out) = gorm.rows db ++ [row]
          /\ snd out = (row, None)
          /\ APIKey.Name row = APIKey.Name apiKey
          /\ APIKey.Key row = APIKey.Key apiKey
          /\ APIKey.DeletedAt row = APIKey.DeletedAt apiKey
          /\ APIKey.ID row <> 0%N
          /\ (APIKey.ID apiKey = 0%N -> APIKey.ID row = (gorm.seq db + 1)%N)
          /\ (APIKey.CreatedAt apiKey = 0 -> APIKey.CreatedAt row = now)
          /\ (APIKey.UpdatedAt apiKey = 0 -> APIKey.UpdatedAt row = now)
          /\ (consistent db -> APIKey.DeletedAt apiKey = None ->
              repository.GetByKey (APIKey.Key apiKey) (fst out) = Ok row
              /\ repository.GetByID (APIKey.ID row) (fst out) = Ok row
              /\ repository.ExistsByKey (APIKey.Key apiKey) (fst out) = true))
    /\ (sequenced db -> APIKey.ID apiKey = 0%N ->
        forall r, In r (gorm.rows db) -> APIKey.ID r <> APIKey.ID row)
    /\ (consistent db -> consistent (fst out))
    /\ (reachable db ->
          List.NoDup (map APIKey.Key (gorm.rows db))
          /\ List.NoDup (map APIKey.Key (gorm.rows (fst out)))).
Proof.
  intros now apiKey db out row.
  assert (Hnz : APIKey.ID row <> 0%N).
  { subst row. simpl. destruct (N.eqb_spec (APIKey.ID apiKey) 0); [lia | assumption]. }
  split; [intros Hn; subst out; unfold repository.Create; now rewrite Hn|].
  split; [intros Hn Hk; subst out; unfold repository.Create;
          now rewrite (string_eqb_false _ _ Hn), Hk|].
  split; [|split; [|split; [|split; [|split]]]].
  - intros Hn Hk Hdup. subst out. unfold repository.Create.
    rewrite (string_eqb_false _ _ Hn), (string_eqb_false _ _ Hk).
    rewrite (proj2 (ExistsByKey_true _ db) (conj Hk Hdup)). split; reflexivity.
  - intros Hn Hk Hnolive.
    assert (Hout : out = gorm.Create now apiKey db).
    { subst out. unfold repository.Create.
      rewrite (string_eqb_false _ _ Hn), (string_eqb_false _ _ Hk).
      destruct (repository.ExistsByKey _ db) eqn:He; [|reflexivity].
      apply ExistsByKey_true in He. destruct He as (_ & r & Hin & Hlive & Hr).
      exfalso. exact (Hnolive r Hin Hlive Hr). }
    rewrite Hout. unfold gorm.Create. fold row. split; [|split].
    + intros (r & Hin & Hr).
      assert (existsb (gorm.same_ID row) (gorm.rows db) = true) as ->.
      { apply existsb_exists. exists r. split; [exact Hin|].
        unfold gorm.same_ID. apply N.eqb_eq. congruence. }
      split; reflexivity.
    + intros Hfree (r & Hin & Hr).
      assert (existsb (gorm.same_ID row) (gorm.rows db) = false) as ->.
      { destruct (existsb _ _) eqn:He; [|reflexivity].
        apply existsb_exists in He. destruct He as (r' & Hin' & Hr').
        unfold gorm.same_ID in Hr'. apply N.eqb_eq in Hr'.
        exfalso. apply (Hfree r' Hin'). congruence. }
      assert (existsb (gorm.same_Key row) (gorm.rows db) = true) as ->.
      { apply existsb_exists. exists r. split; [exact Hin|].
        unfold gorm.same_Key. apply String.eqb_eq. subst row. simpl. congruence. }
      split; reflexivity.
    + intros constraint. split; [discriminate | reflexivity].
  - intros Hn Hk Hfresh.
    assert (Hout : out = gorm.Create now apiKey db).
    { subst out. unfold repository.Create.
      rewrite (string_eqb_false _ _ Hn), (string_eqb_false _ _ Hk).
      destruct (repository.ExistsByKey _ db) eqn:He; [|reflexivity].
      apply ExistsByKey_true in He. destruct He as (_ & r & Hin & _ & Hr).
      exfalso. now apply (proj1 (Hfresh r Hin)). }
    destruct (gorm_Create_cases now apiKey db)
      as [((r & Hin & [Hr | Hr]) & _) | (_ & Hrows & Hsnd)].
    + exfalso. now apply (proj2 (Hfresh r Hin)).
    + exfalso. now apply (proj1 (Hfresh r Hin)).
    + fold row in Hrows, Hsnd. rewrite <- Hout in Hrows, Hsnd.
      split; [exact Hrows|]. split; [exact Hsnd|].
      split; [reflexivity|]. split; [reflexivity|]. split; [reflexivity|].
      split; [exact Hnz|].
      split; [intros Hz; subst row; simpl; now rewrite Hz|].
      split; [intros Hz; subst row; simpl; now rewrite Hz|].
      split; [intros Hz; subst row; simpl; now rewrite Hz|].
      intros Hc Hdel.
      pose proof (consistent_Create now apiKey db Hc) as Hc'. fold out in Hc'.
      assert (Hin : In row (gorm.rows (fst out)))
        by (rewrite Hrows; apply in_or_app; right; now left).
      assert (Hlive : gorm.live row = true)
        by (subst row; unfold gorm.live; simpl; now rewrite Hdel).
      split; [now apply GetByKey_unique|]. split; [now apply GetByID_unique|].
      apply ExistsByKey_true. split; [exact Hk|]. exists row. auto.
  - intros Hseq Hz r Hin. specialize (Hseq r Hin). subst row. simpl. rewrite Hz. simpl. lia.
  - apply consistent_Create.
  - intros Hr. split.
    + apply (reachable_consistent db Hr).
    + apply (reachable_consistent _ (reachable_Create now apiKey db Hr)).
Qed.

Lemma Create_contract_witness :
  repository.Create 1000 (APIKey.Make 0 "ops3" boundary_hash "" true None 0 0 None)
    (db two_keys)
  = (db two_keys,
     (APIKey.Make 0 "ops3" boundary_hash "" true None 0 0 None,
      Some (errors_New "API key already exists"))).
Proof.
  destruct (Create_contract 1000 (APIKey.Make 0 "ops3" boundary_hash "" true None 0 0 None)
              (db two_keys)) as (_ & _ & H & _).
  apply H; [discriminate | discriminate |].
  exists first_key. split; [now left | split; reflexivity].
Defined.

(** C8 as stated fails.  The second record of the table is logically
    deleted, so the store sees no record with its hash: the probe answers
    false and the lookup finds nothing.  A record with a name and that hash
    is all the same not persisted: the unique index refuses the row and
    [Create] returns the error of the driver, which is neither "API key
    already exists" nor a validation error, and which the handler answers
    with 500, not 409.  The table keeps its rows. *)
Lemma Create_refuses_hash_of_deleted_record :
  let apiKey := APIKey.Make 0 "ops3" inactive_hash "" true None 0 0 None in
  let out := repository.Create 1000 apiKey (db two_keys) in
  APIKey.Name apiKey <> "" /\ APIKey.Key apiKey <> ""
  /\ In second_key (gorm.rows (db two_keys))
  /\ APIKey.Key second_key = APIKey.Key apiKey
  /\ APIKey.DeletedAt second_key = Some 30
  /\ repository.ExistsByKey (APIKey.Key apiKey) (db two_keys) = false
  /\ repository.GetByKey (APIKey.Key apiKey) (db two_keys)
     = Err (errors_New "API key not found")
  /\ snd out = (apiKey, Some (gorm.unique_violation "idx_api_keys_key"))
  /\ gorm.unique_violation "idx_api_keys_key" <> errors_New "API key already exists"
  /\ handler.CreateAPIKey_status (gorm.unique_violation "idx_api_keys_key") = 500
  /\ gorm.rows (fst out) = gorm.rows (db two_keys).
Proof.
  cbv zeta. split; [discriminate|]. split; [discriminate|].
  split; [right; now left|]. split; [reflexivity|]. split; [reflexivity|].
  split; [vm_compute; reflexivity|]. split; [vm_compute; reflexivity|].
  split; [vm_compute; reflexivity|]. split; [discriminate|].
  split; [reflexivity|]. vm_compute. reflexivity.
Qed.

(** ** Creating a key and presenting it *)

Lemma CreateAPIKey_exec (req : CreateAPIKeyRequest) (w : World) :
  exec (service.apiKeyService.CreateAPIKey req) w
  = if (CreateAPIKeyRequest.Name req =? "")%string then
      (Err (errors_New "name is required"), w)
    else
      match entropy w with
      | Err err => (Err err, w)
      | Ok src =>
          let plainTextKey := "sk-" +:+ hex.EncodeToString (util.fill src 32) in
          let out := repository.Create (clock w) (fresh_record req plainTextKey) (db w) in
          match snd (snd out) with
          | Some err => (Err err, with_db (fst out) w)
          | None =>
              (Ok (models.ToResponseWithKey (fst (snd out)) plainTextKey),
               with_db (fst out) w)
          end
      end.
Proof.
  unfold exec, service.apiKeyService.CreateAPIKey.
  destruct (_ =? _)%string; [reflexivity|].
  unfold models.FromCreateRequest, util.GenerateAPIKey. cbn.
  destruct (entropy w) as [src|err]; [|reflexivity]. cbn.
  fold (fresh_record req ("sk-" +:+ hex.EncodeToString (util.fill src 32))).
  destruct (repository.Create _ _ _) as [db' [ak' [err|]]]; reflexivity.
Qed.

Lemma generated_key_nonempty (src : nat -> byte) :
  "sk-" +:+ hex.EncodeToString (util.fill src 32) <> "".
Proof. discriminate. Qed.

(** C6, as the code has it.  When [CreateAPIKey] succeeds, presenting the
    plaintext key of its response to [ValidateAPIKey] succeeds at every
    later reading [t] of the clock at which the expiry of the request, if it
    has one, has not passed; the record returned is the one stored, with the
    name of the request. *)
Theorem create_then_validate :
  forall (w w1 : World) (req : CreateAPIKeyRequest) (resp : APIKeyResponse) (t : Time),
    exec (service.apiKeyService.CreateAPIKey req) w = (Ok resp, w1) ->
    (CreateAPIKeyRequest.ExpiresAt req = None
     \/ exists expiresAt, CreateAPIKeyRequest.ExpiresAt req = Some expiresAt /\ t <= expiresAt) ->
    CreateAPIKeyRequest.Name req <> ""
    /\ exists ak,
         exec (service.apiKeyService.ValidateAPIKey (APIKeyResponse.Key resp)) (with_clock t w1)
         = (Ok ak, with_clock t w1)
         /\ APIKey.Name ak = CreateAPIKeyRequest.Name req
         /\ APIKey.ID ak = APIKeyResponse.ID resp
         /\ APIKey.Key ak = util.HashAPIKey (APIKeyResponse.Key resp)
         /\ In ak (gorm.rows (db w1)).
Proof.
  intros w w1 req resp t Hcreate Hexp. rewrite CreateAPIKey_exec in Hcreate.
  destruct (String.eqb_spec (CreateAPIKeyRequest.Name req) "") as [|Hname]; [discriminate|].
  split; [exact Hname|].
  destruct (entropy w) as [src|err]; [|discriminate].
  set (plain := "sk-" +:+ hex.EncodeToString (util.fill src 32)) in *.
  cbv zeta in Hcreate. set (rec := fresh_record req plain) in *.
  assert (Hplain : plain <> "") by apply generated_key_nonempty.
  pose proof (HashAPIKey_nonempty plain) as Hhash.
  unfold repository.Create in Hcreate.
  change (APIKey.Name rec) with (CreateAPIKeyRequest.Name req) in Hcreate.
  change (APIKey.Key rec) with (util.HashAPIKey plain) in Hcreate.
  rewrite (string_eqb_false _ _ Hname), (string_eqb_false _ _ Hhash) in Hcreate.
  destruct (repository.ExistsByKey (util.HashAPIKey plain) (db w)) eqn:Hex; [discriminate|].
  apply (ExistsByKey_false _ _ Hhash) in Hex.
  destruct (gorm_Create_cases (clock w) rec (db w))
    as [(_ & _ & c & Herr) | (_ & Hrows & Hout)].
  { rewrite Herr in Hcreate. discriminate. }
  rewrite Hout in Hcreate. cbn [fst snd] in Hcreate. injection Hcreate as <- <-.
  set (row := gorm.to_insert (clock w) rec (db w)) in *.
  exists row.
  cbn [APIKeyResponse.Key APIKeyResponse.ID models.ToResponseWithKey].
  assert (Hget : repository.GetByKey (util.HashAPIKey plain)
                   (fst (gorm.Create (clock w) rec (db w))) = Ok row).
  { assert (Hlive : gorm.live row = true) by reflexivity.
    assert (Hkey : repository.key_is (util.HashAPIKey plain) row = true)
      by apply String.eqb_refl.
    unfold repository.GetByKey. rewrite (string_eqb_false _ _ Hhash).
    unfold gorm.First, gorm.Where. rewrite Hrows, List.filter_app.
    fold (gorm.Where (repository.key_is (util.HashAPIKey plain)) (db w)). rewrite Hex.
    cbn [List.filter app]. rewrite Hlive, Hkey. reflexivity. }
  split; [|split; [reflexivity | split; [reflexivity | split; [reflexivity|]]]].
  - rewrite (ValidateAPIKey_exec plain _ Hplain). cbn [db with_db with_clock].
    rewrite Hget.
    assert (Hvalid : fst (exec (models.IsValid row)
                            (with_clock t (with_db (fst (gorm.Create (clock w) rec (db w))) w)))
                     = true).
    { apply IsValid_exec_true. split; [reflexivity|]. exact Hexp. }
    rewrite Hvalid. reflexivity.
  - cbn [db with_db]. rewrite Hrows. apply in_or_app. right. now left.
Qed.

Lemma ops_key_created :
  exec (service.apiKeyService.CreateAPIKey ops_request) sample_world
  = (Ok ops_response, snd ops_created).
Proof. vm_compute. reflexivity. Qed.

Lemma create_then_validate_witness :
  exists ak,
    exec (service.apiKeyService.ValidateAPIKey (APIKeyResponse.Key ops_response))
         (with_clock 2000 (snd ops_created))
    = (Ok ak, with_clock 2000 (snd ops_created))
    /\ APIKey.Name ak = "ops".
Proof.
  destruct (create_then_validate sample_world (snd ops_created) ops_request ops_response 2000
              ops_key_created (or_introl eq_refl)) as (_ & ak & Hrun & Hname & _).
  exists ak. split; [exact Hrun | exact Hname].
Defined.

(** C6 as stated fails: the name is not empty and the key is created, but
    its expiry (500) lies before the time of creation (1000), and validating
    the returned plaintext at once fails with "API key is not valid". *)
Lemma create_then_validate_expired :
  CreateAPIKeyRequest.Name expired_request <> ""
  /\ exec (service.apiKeyService.CreateAPIKey expired_request) sample_world
     = (Ok expired_response, snd expired_created)
  /\ String.length (APIKeyResponse.Key expired_response) = 67%nat
  /\ APIKeyResponse.Name expired_response = "ops"
  /\ exec (service.apiKeyService.ValidateAPIKey (APIKeyResponse.Key expired_response))
          (snd expired_created)
     = (Err (errors_New "API key is not valid"), snd expired_created).
Proof.
  split; [discriminate|]. split; [vm_compute; reflexivity|].
  split; [reflexivity|]. split; [reflexivity|]. vm_compute. reflexivity.
Qed.

(** ** The scenarios of the specification *)

(** Create a key named "ops": the response contains a 67-character key
    that starts with the prefix; validating exactly that key succeeds with
    the record named "ops"; validating the key with its last character
    changed fails. *)
Example scenario_create_validate :
  String.length (APIKeyResponse.Key ops_response) = 67%nat
  /\ strings.HasPrefix (APIKeyResponse.Key ops_response) "sk-" = true
  /\ (exists ak,
        fst (exec (service.apiKeyService.ValidateAPIKey (APIKeyResponse.Key ops_response))
                  (snd ops_created)) = Ok ak
        /\ APIKey.Name ak = "ops")
  /\ APIKeyResponse.Key ops_response
     = "sk-abaeb1b4b7babdc0c3c6c9cccfd2d5d8dbdee1e4e7eaedf0f3f6f9fcff020508"
  /\ fst (exec (service.apiKeyService.ValidateAPIKey
                  "sk-abaeb1b4b7babdc0c3c6c9cccfd2d5d8dbdee1e4e7eaedf0f3f6f9fcff020509")
               (snd ops_created))
     = Err (errors_New "invalid API key").
Proof.
  split; [reflexivity|]. split; [reflexivity|]. split; [|split].
  - eexists. split; [vm_compute; reflexivity | reflexivity].
  - reflexivity.
  - vm_compute. reflexivity.
Qed.

(** Create a key, update it with [active = false], then validate the
    original plaintext: validation fails. *)
Example scenario_deactivate :
  let updated :=
    exec (service.apiKeyService.UpdateAPIKey (APIKeyResponse.ID ops_response)
            (UpdateAPIKeyRequest.Make "ops" "deploys" false None))
         (snd ops_created) in
  is_Ok (fst updated) = true
  /\ fst (exec (service.apiKeyService.ValidateAPIKey (APIKeyResponse.Key ops_response))
               (snd updated))
     = Err (errors_New "API key is not valid").
Proof. vm_compute. split; reflexivity. Qed.

(** Delete the key: the record is kept, marked as deleted, and validation
    no longer finds it. *)
Example scenario_delete :
  let deleted :=
    exec (service.apiKeyService.DeleteAPIKey (APIKeyResponse.ID ops_response))
         (snd ops_created) in
  fst deleted = None
  /\ length (gorm.rows (db (snd deleted))) = 1%nat
  /\ fst (exec (service.apiKeyService.ValidateAPIKey (APIKeyResponse.Key ops_response))
               (snd deleted))
     = Err (errors_New "invalid API key").
Proof. vm_compute. repeat split; reflexivity. Qed.

(** * Further properties *)

Arguments strconv.ParseUint10 : simpl never.

(** ** Looking keys up *)

(** X12.  The probe and the lookup agree: [ExistsByKey] answers true for
    exactly the hashes that [GetByKey] finds, on every table; for the empty
    hash the probe answers false and the lookup fails. *)
Theorem ExistsByKey_agrees_with_GetByKey :
  forall (key : string) (db : gorm.DB),
    repository.ExistsByKey key db = is_Ok (repository.GetByKey key db).
Proof.
  intros key db. destruct (repository.GetByKey key db) as [ak|err] eqn:Hget; simpl.
  - apply GetByKey_Ok in Hget. destruct Hget as (Hk & Hin & Hlive & Hkey).
    apply ExistsByKey_true. split; [exact Hk|]. exists ak. auto.
  - destruct (repository.ExistsByKey key db) eqn:Hex; [|reflexivity].
    apply ExistsByKey_true in Hex. destruct Hex as (Hk & r & Hin & Hlive & Hkey).
    apply GetByKey_Err in Hget. destruct Hget as [[Hempty _] | (_ & _ & Hnone)];
      [contradiction|].
    exfalso. now apply (Hnone r Hin Hlive).
Qed.

(** X13.  A record that [Create] has stored, and that was not handed over
    as deleted, is found again: [GetByKey] on its hash and [GetByID] on the
    identity it was given return exactly the stored row, and [ExistsByKey]
    answers true. *)
Theorem Create_then_lookup :
  forall (now : Time) (apiKey row : APIKey) (db db' : gorm.DB),
    consistent db ->
    APIKey.DeletedAt apiKey = None ->
    repository.Create now apiKey db = (db', (row, None)) ->
    repository.GetByKey (APIKey.Key apiKey) db' = Ok row
    /\ repository.GetByID (APIKey.ID row) db' = Ok row
    /\ repository.ExistsByKey (APIKey.Key apiKey) db' = true
    /\ APIKey.ID row <> 0%N.
Proof.
  intros now apiKey row db db' Hc Hdel Hcreate.
  pose proof (consistent_Create now apiKey db Hc) as Hc'. rewrite Hcreate in Hc'.
  simpl in Hc'. unfold repository.Create in Hcreate.
  destruct (String.eqb_spec (APIKey.Name apiKey) ""); [discriminate|].
  destruct (String.eqb_spec (APIKey.Key apiKey) "") as [|Hk]; [discriminate|].
  destruct (repository.ExistsByKey _ db); [discriminate|].
  destruct (gorm_Create_cases now apiKey db) as [(_ & _ & c & Herr) | (_ & Hrows & Hout)].
  { rewrite Hcreate in Herr. discriminate. }
  rewrite Hcreate in Hrows, Hout. simpl in Hrows, Hout. injection Hout as Hrow.
  assert (Hin : In row (gorm.rows db')) by (rewrite Hrows; apply in_or_app; right; now left).
  assert (Hlive : gorm.live row = true) by (rewrite Hrow; unfold gorm.live; simpl; now rewrite Hdel).
  assert (Hkey : APIKey.Key row = APIKey.Key apiKey) by (now rewrite Hrow).
  assert (Hnz : APIKey.ID row <> 0%N).
  { rewrite Hrow. simpl. destruct (N.eqb_spec (APIKey.ID apiKey) 0); [lia | assumption]. }
  split; [now apply GetByKey_unique|]. split; [now apply GetByID_unique|].
  split; [|exact Hnz].
  apply ExistsByKey_true. split; [exact Hk|]. exists row. auto.
Qed.

Lemma Create_then_lookup_witness :
  repository.GetByKey "h3" (fst (repository.Create 1000
                                   (APIKey.Make 0 "ops3" "h3" "" true None 0 0 None)
                                   (db two_keys)))
  = Ok (APIKey.Make 3 "ops3" "h3" "" true None 1000 1000 None).
Proof.
  apply (Create_then_lookup 1000 (APIKey.Make 0 "ops3" "h3" "" true None 0 0 None)
           (APIKey.Make 3 "ops3" "h3" "" true None 1000 1000 None) (db two_keys)).
  - exact two_keys_consistent.
  - reflexivity.
  - vm_compute. reflexivity.
Defined.

(** ** The gate in front of the store *)

Lemma clean_empty : middleware.clean "" = "".
Proof. reflexivity. Qed.

Lemma Validate_service_exec (key : string) (w : World) :
  run handle (service.ValidateAPIKey service.NewAPIKeyService key) w
  = exec (service.apiKeyService.ValidateAPIKey key) w.
Proof. reflexivity. Qed.

(** What validation answers in a world, by the records of the store. *)
Lemma ValidateAPIKey_granted (w : World) (key : string) (ak : APIKey) :
  exec (service.apiKeyService.ValidateAPIKey key) w = (Ok ak, w) ->
  key <> "" /\ grants w key ak.
Proof.
  intros Hv. destruct (String.eqb_spec key "") as [->|Hk]; [discriminate|].
  split; [exact Hk|]. rewrite (ValidateAPIKey_exec key w Hk) in Hv.
  destruct (repository.GetByKey _ (db w)) as [r|err] eqn:Hget; [|discriminate].
  destruct (fst (exec (models.IsValid r) w)) eqn:Hvalid; [|discriminate].
  injection Hv as ->. apply GetByKey_Ok in Hget. destruct Hget as (_ & Hin & Hlive & Hkey).
  apply IsValid_exec_true in Hvalid. destruct Hvalid as [Hact Hexp].
  repeat split; assumption.
Qed.

Lemma ValidateAPIKey_total (w : World) (key : string) :
  exists r, exec (service.apiKeyService.ValidateAPIKey key) w = (r, w).
Proof.
  destruct (String.eqb_spec key "") as [->|Hk]; [eexists; reflexivity|].
  rewrite (ValidateAPIKey_exec key w Hk).
  destruct (repository.GetByKey _ (db w)); [|eauto].
  destruct (fst (exec (models.IsValid _) w)); eauto.
Qed.

Lemma granted_ValidateAPIKey (w : World) (key : string) (ak : APIKey) :
  consistent (db w) -> key <> "" -> grants w key ak ->
  exec (service.apiKeyService.ValidateAPIKey key) w = (Ok ak, w).
Proof.
  intros Hc Hk (Hin & Hlive & Hact & Hexp & Hkey).
  rewrite (ValidateAPIKey_exec key w Hk).
  rewrite (GetByKey_unique (db w) ak _ Hc (HashAPIKey_nonempty key) Hin Hlive Hkey).
  assert (Hv : fst (exec (models.IsValid ak) w) = true)
    by (apply IsValid_exec_true; split; assumption).
  now rewrite Hv.
Qed.

(** X1.  The gate in front of the real service and store.  Either it
    rejects the request with 401, or the store holds a live, active record
    that has not expired and whose hash is the hash of the cleaned header,
    and the rest of the chain runs with that record attached; up to there
    the world is as it was.  On a table that satisfies its constraints such
    a record always opens the gate.  When the store has no live record, the
    gate rejects every request. *)
Theorem gate_opens_iff_granted :
  forall (w : World) (Next : gin.Context -> prog gin.Context) (c : gin.Context),
    let key := middleware.clean (gin.GetHeader c "X-API-Key") in
    let gate := middleware.APIKeyAuthMiddleware service.NewAPIKeyService Next c in
    ((exists message, exec gate w = (reject message c, w))
     \/ (exists ak, key <> "" /\ grants w key ak
                    /\ exec gate w = exec (Next (attach ak c)) w))
    /\ (consistent (db w) ->
        forall ak, key <> "" -> grants w key ak ->
                   exec gate w = exec (Next (attach ak c)) w)
    /\ ((forall r, In r (gorm.rows (db w)) -> gorm.live r = false) ->
        exists message, exec gate w = (reject message c, w)).
Proof.
  intros w Next c key gate.
  assert (Hcases :
    (exists message, exec gate w = (reject message c, w))
    \/ (exists ak, key <> "" /\ grants w key ak
                   /\ exec gate w = exec (Next (attach ak c)) w)).
  { destruct (String.eqb_spec (gin.GetHeader c "X-API-Key") "") as [Hh|Hh].
    { left. eexists. unfold gate. now rewrite (gate_missing _ Next c Hh). }
    destruct (String.eqb_spec key "") as [Hk|Hk].
    { left. eexists. unfold gate. now rewrite (gate_blank _ Next c Hh Hk). }
    destruct (ValidateAPIKey_total w key) as [[ak|err] Hv].
    - right. exists ak. destruct (ValidateAPIKey_granted w key ak Hv) as [_ Hg].
      split; [exact Hk|]. split; [exact Hg|].
      exact (gate_valid service.NewAPIKeyService Next handle c w w ak Hh Hk Hv).
    - left. eexists.
      exact (proj1 (gate_invalid service.NewAPIKeyService Next handle c w w err Hh Hk Hv)). }
  split; [exact Hcases|]. split.
  - intros Hc ak Hk Hg.
    assert (Hh : gin.GetHeader c "X-API-Key" <> "").
    { intros Hh. apply Hk. unfold key. rewrite Hh. exact clean_empty. }
    exact (gate_valid service.NewAPIKeyService Next handle c w w ak Hh Hk
             (granted_ValidateAPIKey w key ak Hc Hk Hg)).
  - intros Hdead. destruct Hcases as [Hrej | (ak & _ & (Hin & Hlive & _) & _)];
      [exact Hrej|].
    rewrite (Hdead ak Hin) in Hlive. discriminate.
Qed.

Lemma gate_opens_iff_granted_witness :
  exec (middleware.APIKeyAuthMiddleware service.NewAPIKeyService Ret bearer_request)
       boundary_world
  = exec (Ret (attach boundary_key bearer_request)) boundary_world.
Proof.
  destruct (gate_opens_iff_granted boundary_world Ret bearer_request) as (_ & H & _).
  rewrite bearer_request_key in H. apply H.
  - split; simpl; repeat constructor; simpl; intuition discriminate.
  - discriminate.
  - split; [now left|]. split; [reflexivity|]. split; [reflexivity|].
    split; [right; exists 1000; split; [reflexivity | simpl; lia]|].
    vm_compute. reflexivity.
Defined.

(** X3.  What the gate attaches is what a handler reads back: after
    [attach] the three getters return the validated record, its ID and its
    name; a rejection leaves the keys of the context alone; and a getter
    answers "absent" when its key is missing or holds a value of another
    type. *)
Theorem context_getters_read_attached_key :
  forall (ak : APIKey) (c : gin.Context),
    middleware.GetAPIKeyFromContext (attach ak c) = Some (gin.any_APIKey ak)
    /\ middleware.GetAPIKeyIDFromContext (attach ak c) = (APIKey.ID ak, true)
    /\ middleware.GetAPIKeyNameFromContext (attach ak c) = (APIKey.Name ak, true)
    /\ (forall message,
          middleware.GetAPIKeyFromContext (reject message c)
          = middleware.GetAPIKeyFromContext c
          /\ middleware.GetAPIKeyIDFromContext (reject message c)
             = middleware.GetAPIKeyIDFromContext c
          /\ middleware.GetAPIKeyNameFromContext (reject message c)
             = middleware.GetAPIKeyNameFromContext c)
    /\ (forall name, gin.Keys c !! "api_key_id" = Some (gin.any_string name) ->
                     middleware.GetAPIKeyIDFromContext c = (0%N, false))
    /\ (forall id, gin.Keys c !! "api_key_name" = Some (gin.any_uint id) ->
                   middleware.GetAPIKeyNameFromContext c = ("", false))
    /\ (gin.Keys c !! "api_key_id" = None ->
        middleware.GetAPIKeyIDFromContext c = (0%N, false))
    /\ (gin.Keys c !! "api_key_name" = None ->
        middleware.GetAPIKeyNameFromContext c = ("", false)).
Proof.
  intros ak c. destruct (attach_spec ak c) as (H1 & H2 & H3 & _).
  unfold middleware.GetAPIKeyFromContext, middleware.GetAPIKeyIDFromContext,
    middleware.GetAPIKeyNameFromContext.
  rewrite H1, H2, H3. repeat split; try (intros ? ->; reflexivity); intros ->; reflexivity.
Qed.

Lemma context_getters_read_attached_key_witness :
  middleware.GetAPIKeyIDFromContext
    (gin.MkContext ∅ {[ "api_key_id" := gin.any_string "7" ]} 0 [])
  = (0%N, false).
Proof.
  destruct (context_getters_read_attached_key boundary_key
              (gin.MkContext ∅ {[ "api_key_id" := gin.any_string "7" ]} 0 []))
    as (_ & _ & _ & _ & H & _).
  apply (H "7"). reflexivity.
Defined.

(** X19.  Time alone can only take validity away: a secret that validates
    at a reading of the clock validates, with the same record, at every
    earlier reading on the same table. *)
Theorem validation_antitone_in_time :
  forall (w : World) (key : string) (ak : APIKey) (t t' : Time),
    t <= t' ->
    exec (service.apiKeyService.ValidateAPIKey key) (with_clock t' w) = (Ok ak, with_clock t' w) ->
    exec (service.apiKeyService.ValidateAPIKey key) (with_clock t w) = (Ok ak, with_clock t w).
Proof.
  intros w key ak t t' Hle Hv.
  destruct (String.eqb_spec key "") as [->|Hk]; [discriminate|].
  rewrite (ValidateAPIKey_exec key _ Hk) in Hv. rewrite (ValidateAPIKey_exec key _ Hk).
  cbn [db with_clock] in Hv |- *.
  destruct (repository.GetByKey _ (db w)) as [r|err]; [|discriminate].
  destruct (fst (exec (models.IsValid r) (with_clock t' w))) eqn:Hvalid; [|discriminate].
  injection Hv as ->.
  apply IsValid_exec_true in Hvalid. destruct Hvalid as [Hact Hexp].
  assert (Hv : fst (exec (models.IsValid ak) (with_clock t w)) = true).
  { apply IsValid_exec_true. split; [exact Hact|].
    destruct Hexp as [Hnone | (e & He & Hlt)]; [now left|].
    right. exists e. split; [exact He | simpl in *; lia]. }
  now rewrite Hv.
Qed.

Lemma validation_antitone_in_time_witness :
  exec (service.apiKeyService.ValidateAPIKey boundary_secret) (with_clock 3 boundary_world)
  = (Ok boundary_key, with_clock 3 boundary_world).
Proof.
  apply (validation_antitone_in_time boundary_world boundary_secret boundary_key 3 1000).
  - lia.
  - vm_compute. reflexivity.
Defined.

(** ** Deleting a key *)

Lemma GetByID_Err (id : N) (db : gorm.DB) (err : error) :
  repository.GetByID id db = Err err ->
  (id = 0%N /\ err = errors_New "invalid API key ID")
  \/ (id <> 0%N /\ err = errors_New "API key not found"
      /\ forall r, In r (gorm.rows db) -> gorm.live r = true -> APIKey.ID r <> id).
Proof.
  unfold repository.GetByID. destruct (N.eqb_spec id 0) as [->|Hnz].
  - intros [= <-]. now left.
  - destruct (gorm.First _ db) as [m|e] eqn:Hf; [discriminate|].
    apply First_Err in Hf. destruct Hf as [-> Hnil]. simpl. intros [= <-].
    right. split; [exact Hnz|]. split; [reflexivity|].
    intros r Hin Hlive Hid.
    assert (Hr : In r (gorm.Where (repository.id_is id) db)).
    { apply Where_In. split; [exact Hin|]. split; [exact Hlive|].
      unfold repository.id_is. now apply N.eqb_eq. }
    rewrite Hnil in Hr. destruct Hr.
Qed.

(** The two outcomes of [Delete] on a consistent table. *)
Lemma Delete_cases (now : Time) (id : N) (db : gorm.DB) :
  consistent db ->
  (exists err,
     repository.Delete now id db = (db, Some err)
     /\ ((id = 0%N /\ err = errors_New "invalid API key ID")
         \/ (id <> 0%N /\ err = errors_New "API key not found"
             /\ forall r, In r (gorm.rows db) -> gorm.live r = true -> APIKey.ID r <> id)))
  \/ (exists old,
        In old (gorm.rows db) /\ gorm.live old = true /\ APIKey.ID old = id /\ id <> 0%N
        /\ repository.Delete now id db
           = (gorm.Make (map (mark_deleted now id) (gorm.rows db)) (gorm.seq db), None)).
Proof.
  intros [Hids _]. unfold repository.Delete.
  destruct (N.eqb_spec id 0) as [->|Hnz]; [left; eexists; split; [reflexivity | now left]|].
  destruct (repository.GetByID id db) as [old|err] eqn:Hget.
  - right. exists old. apply GetByID_Ok in Hget. destruct Hget as (_ & Hin & Hlive & Hid).
    repeat (split; [assumption|]). unfold gorm.Delete. f_equal. f_equal.
    apply map_ext_in. intros r Hr. unfold mark_deleted.
    destruct (N.eqb_spec (APIKey.ID r) id) as [Heq|]; [|now rewrite andb_false_r].
    assert (r = old) as -> by (apply (NoDup_map_inj APIKey.ID _ r old Hids Hr Hin); congruence).
    now rewrite Hlive.
  - left. exists err. split; [reflexivity|].
    apply GetByID_Err in Hget. destruct Hget as [[Hz _] | H]; [contradiction | now right].
Qed.

Lemma mark_deleted_frame (now : Time) (id : N) (r : APIKey) :
  APIKey.ID (mark_deleted now id r) = APIKey.ID r
  /\ APIKey.Key (mark_deleted now id r) = APIKey.Key r.
Proof. unfold mark_deleted. destruct (_ =? _)%N; split; reflexivity. Qed.

Lemma live_after_mark (now : Time) (id : N) (rows : list APIKey) (r' : APIKey) :
  In r' (map (mark_deleted now id) rows) -> gorm.live r' = true ->
  In r' rows /\ APIKey.ID r' <> id.
Proof.
  intros Hin Hlive. apply in_map_iff in Hin. destruct Hin as (r & <- & Hr).
  unfold mark_deleted in *. destruct (N.eqb_spec (APIKey.ID r) id); [discriminate|]. auto.
Qed.

(** X4.  [Delete] is logical.  On a table that satisfies its constraints
    a successful [Delete] keeps every row and every column but the deletion
    mark of the one live record with the given ID; from then on that record
    is found neither by ID nor by hash, the probe for its hash answers
    false, and deleting it again fails with "API key not found".  A failed
    [Delete] (ID zero, or no live record with the ID) leaves the table
    untouched. *)
Theorem Delete_is_logical :
  forall (now : Time) (id : N) (db : gorm.DB),
    consistent db ->
    let out := repository.Delete now id db in
    length (gorm.rows (fst out)) = length (gorm.rows db)
    /\ (snd out = None ->
        exists old,
          In old (gorm.rows db) /\ gorm.live old = true /\ APIKey.ID old = id
          /\ gorm.rows (fst out) = map (mark_deleted now id) (gorm.rows db)
          /\ In (gorm.with_DeletedAt now old) (gorm.rows (fst out))
          /\ repository.GetByID id (fst out) = Err (errors_New "API key not found")
          /\ is_Ok (repository.GetByKey (APIKey.Key old) (fst out)) = false
          /\ repository.ExistsByKey (APIKey.Key old) (fst out) = false
          /\ forall now', repository.Delete now' id (fst out)
                          = (fst out, Some (errors_New "API key not found")))
    /\ (forall err,
          snd out = Some err ->
          fst out = db
          /\ (err = errors_New "invalid API key ID" \/ err = errors_New "API key not found")).
Proof.
  intros now id db Hc out. subst out.
  destruct (Delete_cases now id db Hc)
    as [(err & -> & Herr) | (old & Hin & Hlive & Hid & Hnz & ->)]; simpl.
  - split; [reflexivity|]. split; [discriminate|]. intros e [= <-]. split; [reflexivity|].
    destruct Herr as [[_ ->] | (_ & -> & _)]; auto.
  - split; [apply length_map|]. split; [|discriminate]. intros _. exists old.
    set (db' := gorm.Make (map (mark_deleted now id) (gorm.rows db)) (gorm.seq db)).
    assert (Hdead : forall r, In r (gorm.rows db') -> gorm.live r = true -> APIKey.ID r <> id).
    { intros r Hr Hl. now apply (live_after_mark now id (gorm.rows db) r). }
    assert (Hnf : repository.GetByID id db' = Err (errors_New "API key not found"))
      by (now apply GetByID_not_found).
    assert (Hnokey : forall r, In r (gorm.rows db') -> gorm.live r = true ->
                               APIKey.Key r <> APIKey.Key old).
    { intros r Hr Hl Hk. destruct (live_after_mark now id _ r Hr Hl) as [Hr0 Hne].
      destruct Hc as [_ Hkeys].
      apply Hne. rewrite (NoDup_map_inj APIKey.Key _ r old Hkeys Hr0 Hin Hk). exact Hid. }
    repeat (split; [assumption|]). split; [reflexivity|]. split.
    { apply in_map_iff. exists old. split; [|exact Hin].
      unfold mark_deleted. now rewrite Hid, N.eqb_refl. }
    split; [exact Hnf|]. split.
    { destruct (repository.GetByKey (APIKey.Key old) db') as [m|] eqn:Hget; [|reflexivity].
      apply GetByKey_Ok in Hget. destruct Hget as (_ & Hm & Hl & Hk).
      exfalso. now apply (Hnokey m Hm Hl). }
    split.
    { destruct (repository.ExistsByKey (APIKey.Key old) db') eqn:Hex; [|reflexivity].
      apply ExistsByKey_true in Hex. destruct Hex as (_ & m & Hm & Hl & Hk).
      exfalso. now apply (Hnokey m Hm Hl). }
    intros now'. unfold repository.Delete.
    rewrite (proj2 (N.eqb_neq _ _) Hnz), Hnf. reflexivity.
Qed.

Lemma Delete_is_logical_witness :
  repository.GetByID 1 (fst (repository.Delete 2000 1 (db two_keys)))
  = Err (errors_New "API key not found").
Proof.
  destruct (Delete_is_logical 2000 1 (db two_keys) two_keys_consistent) as (_ & H & _).
  destruct (H eq_refl) as (old & _ & _ & _ & _ & _ & Hget & _). exact Hget.
Defined.

(** ** The service over the store *)

Lemma DeleteAPIKey_exec (id : N) (w : World) :
  exec (service.apiKeyService.DeleteAPIKey id) w
  = if (id =? 0)%N then (Some (errors_New "invalid API key ID"), w)
    else (snd (repository.Delete (clock w) id (db w)),
          with_db (fst (repository.Delete (clock w) id (db w))) w).
Proof.
  unfold exec, service.apiKeyService.DeleteAPIKey. destruct (id =? 0)%N; [reflexivity|].
  cbn. destruct (repository.Delete _ _ _). reflexivity.
Qed.

Lemma GetAPIKeyByID_exec (id : N) (w : World) :
  exec (service.apiKeyService.GetAPIKeyByID id) w
  = if (id =? 0)%N then (Err (errors_New "invalid API key ID"), w)
    else match repository.GetByID id (db w) with
         | Err err => (Err err, w)
         | Ok apiKey => (Ok (models.ToResponseWithoutKey apiKey), w)
         end.
Proof.
  unfold exec, service.apiKeyService.GetAPIKeyByID. destruct (id =? 0)%N; [reflexivity|].
  cbn. destruct (repository.GetByID _ _); reflexivity.
Qed.

Lemma GetAllAPIKeys_exec (w : World) :
  exec service.apiKeyService.GetAllAPIKeys w
  = (Ok (map models.ToResponseWithoutKey (gorm.Find (db w))), w).
Proof. reflexivity. Qed.

Lemma UpdateAPIKey_exec (id : N) (req : UpdateAPIKeyRequest) (w : World) :
  exec (service.apiKeyService.UpdateAPIKey id req) w
  = if (id =? 0)%N then (Err (errors_New "invalid API key ID"), w)
    else if (UpdateAPIKeyRequest.Name req =? "")%string then
      (Err (errors_New "name is required"), w)
    else
      match repository.GetByID id (db w) with
      | Err err => (Err err, w)
      | Ok existing =>
          let out :=
            repository.Update (clock w) (models.FromUpdateRequest existing req) (db w) in
          match snd (snd out) with
          | Some err => (Err err, with_db (fst out) w)
          | None => (Ok (models.ToResponseWithoutKey (fst (snd out))), with_db (fst out) w)
          end
      end.
Proof.
  unfold exec, service.apiKeyService.UpdateAPIKey. destruct (id =? 0)%N; [reflexivity|].
  destruct (_ =? _)%string; [reflexivity|]. cbn.
  destruct (repository.GetByID _ _) as [existing|err]; [|reflexivity]. cbn.
  destruct (repository.Update _ _ _) as [db' [ak' [err|]]]; reflexivity.
Qed.

(** X5.  Deletion is final.  After a successful [DeleteAPIKey] on a table
    that satisfies its constraints, the plaintext of the deleted key fails
    validation with "invalid API key" at every time; the record can be
    neither read, updated nor deleted again through the service ("API key
    not found"), and the list of keys no longer shows its ID. *)
Theorem deleted_key_is_gone :
  forall (w w1 : World) (id : N) (key : string) (old : APIKey),
    consistent (db w) ->
    exec (service.apiKeyService.DeleteAPIKey id) w = (None, w1) ->
    In old (gorm.rows (db w)) -> APIKey.ID old = id ->
    key <> "" -> APIKey.Key old = util.HashAPIKey key ->
    (forall t, exec (service.apiKeyService.ValidateAPIKey key) (with_clock t w1)
               = (Err (errors_New "invalid API key"), with_clock t w1))
    /\ exec (service.apiKeyService.GetAPIKeyByID id) w1
       = (Err (errors_New "API key not found"), w1)
    /\ (forall req, UpdateAPIKeyRequest.Name req <> "" ->
                    exec (service.apiKeyService.UpdateAPIKey id req) w1
                    = (Err (errors_New "API key not found"), w1))
    /\ exec (service.apiKeyService.DeleteAPIKey id) w1
       = (Some (errors_New "API key not found"), w1)
    /\ (forall resps resp,
          fst (exec service.apiKeyService.GetAllAPIKeys w1) = Ok resps ->
          In resp resps -> APIKeyResponse.ID resp <> id).
Proof.
  intros w w1 id key old Hc Hdel Hin Hid Hk Hkey. rewrite DeleteAPIKey_exec in Hdel.
  destruct (N.eqb_spec id 0) as [|Hnz]; [discriminate|].
  injection Hdel as Hnone <-.
  destruct (Delete_cases (clock w) id (db w) Hc)
    as [(err & Herr & _) | (old' & Hin' & Hlive' & Hid' & _ & Hout)].
  { rewrite Herr in Hnone. discriminate. }
  assert (old' = old) as ->.
  { destruct Hc as [Hids _]. apply (NoDup_map_inj APIKey.ID _ old' old Hids Hin' Hin). congruence. }
  rewrite Hout. cbn [fst snd].
  set (db' := gorm.Make (map (mark_deleted (clock w) id) (gorm.rows (db w))) (gorm.seq (db w))).
  assert (Hdead : forall r, In r (gorm.rows db') -> gorm.live r = true -> APIKey.ID r <> id).
  { intros r Hr Hl. now apply (live_after_mark (clock w) id (gorm.rows (db w)) r). }
  assert (Hnf : repository.GetByID id db' = Err (errors_New "API key not found"))
    by (now apply GetByID_not_found).
  assert (Hnokey : repository.GetByKey (util.HashAPIKey key) db'
                   = Err (errors_New "API key not found")).
  { apply GetByKey_not_found; [apply HashAPIKey_nonempty|].
    intros r Hr Hl Hrk. destruct (live_after_mark _ id _ r Hr Hl) as [Hr0 Hne].
    destruct Hc as [_ Hkeys]. apply Hne.
    rewrite (NoDup_map_inj APIKey.Key _ r old Hkeys Hr0 Hin); congruence. }
  split; [|split; [|split; [|split]]].
  - intros t. rewrite (ValidateAPIKey_exec key _ Hk). cbn [db with_db with_clock].
    now rewrite Hnokey.
  - rewrite GetAPIKeyByID_exec, (proj2 (N.eqb_neq _ _) Hnz). cbn [db with_db].
    now rewrite Hnf.
  - intros req Hname. rewrite UpdateAPIKey_exec, (proj2 (N.eqb_neq _ _) Hnz).
    rewrite (string_eqb_false _ _ Hname). cbn [db with_db]. now rewrite Hnf.
  - rewrite DeleteAPIKey_exec, (proj2 (N.eqb_neq _ _) Hnz). cbn [db with_db clock].
    unfold repository.Delete. rewrite (proj2 (N.eqb_neq _ _) Hnz), Hnf. reflexivity.
  - intros resps resp Hall Hresp. rewrite GetAllAPIKeys_exec in Hall.
    cbn [fst db with_db] in Hall. injection Hall as <-.
    apply in_map_iff in Hresp. destruct Hresp as (r & <- & Hr).
    apply Where_In in Hr. destruct Hr as (Hr & Hl & _). simpl. now apply Hdead.
Qed.

Lemma ops_created_consistent : consistent (db (snd ops_created)).
Proof. split; simpl; repeat constructor; simpl; intuition. Qed.

Lemma ops_row_stored :
  In ops_row (gorm.rows (db (snd ops_created)))
  /\ APIKey.ID ops_row = 1%N
  /\ APIKey.Key ops_row = util.HashAPIKey (APIKeyResponse.Key ops_response).
Proof. split; [now left|]. split; [reflexivity|]. vm_compute. reflexivity. Qed.

Lemma ops_key_deleted :
  exec (service.apiKeyService.DeleteAPIKey 1) (snd ops_created) = (None, ops_deleted).
Proof. vm_compute. reflexivity. Qed.

Lemma deleted_key_is_gone_witness :
  exec (service.apiKeyService.ValidateAPIKey (APIKeyResponse.Key ops_response))
       (with_clock 5000 ops_deleted)
  = (Err (errors_New "invalid API key"), with_clock 5000 ops_deleted).
Proof.
  destruct ops_row_stored as (Hin & Hid & Hkey).
  destruct (deleted_key_is_gone (snd ops_created) ops_deleted 1
              (APIKeyResponse.Key ops_response) ops_row
              ops_created_consistent ops_key_deleted Hin Hid ltac:(discriminate) Hkey)
    as [H _].
  exact (H 5000).
Defined.

(** ** Updating through the service, and validity *)

(** X6.  A successful update decides validity.  After [UpdateAPIKey]
    has succeeded on a table that satisfies its constraints, the plaintext
    of the updated key validates, at a reading [t] of the clock, exactly
    when the request set the key active and its expiry is absent or not
    before [t]; the record returned then carries the name of the request and
    the old hash.  Otherwise validation fails with "API key is not valid". *)
Theorem update_decides_validity :
  forall (w w1 : World) (id : N) (req : UpdateAPIKeyRequest) (resp : APIKeyResponse)
         (key : string) (old : APIKey) (t : Time),
    consistent (db w) ->
    exec (service.apiKeyService.UpdateAPIKey id req) w = (Ok resp, w1) ->
    In old (gorm.rows (db w)) -> APIKey.ID old = id ->
    key <> "" -> APIKey.Key old = util.HashAPIKey key ->
    let valid :=
      UpdateAPIKeyRequest.Active req = true
      /\ (UpdateAPIKeyRequest.ExpiresAt req = None
          \/ exists expiresAt,
               UpdateAPIKeyRequest.ExpiresAt req = Some expiresAt /\ t <= expiresAt) in
    let stored := updated (clock w) (models.FromUpdateRequest old req) old in
    resp = models.ToResponseWithoutKey stored
    /\ APIKey.Name stored = UpdateAPIKeyRequest.Name req
    /\ APIKey.Key stored = util.HashAPIKey key
    /\ (valid ->
        exec (service.apiKeyService.ValidateAPIKey key) (with_clock t w1)
        = (Ok stored, with_clock t w1))
    /\ (~ valid ->
        exec (service.apiKeyService.ValidateAPIKey key) (with_clock t w1)
        = (Err (errors_New "API key is not valid"), with_clock t w1)).
Proof.
  intros w w1 id req resp key old t Hc Hup Hin Hid Hk Hkey valid stored.
  rewrite UpdateAPIKey_exec in Hup.
  destruct (N.eqb_spec id 0) as [|Hnz]; [discriminate|].
  destruct (String.eqb_spec (UpdateAPIKeyRequest.Name req) ""); [discriminate|].
  destruct (repository.GetByID id (db w)) as [existing|err] eqn:Hget; [|discriminate].
  apply GetByID_Ok in Hget. destruct Hget as (_ & Hein & Helive & Heid).
  assert (existing = old) as ->.
  { destruct Hc as [Hids _]. apply (NoDup_map_inj APIKey.ID _ existing old Hids Hein Hin).
    congruence. }
  cbv zeta in Hup.
  pose proof (consistent_Update (clock w) (models.FromUpdateRequest old req) (db w) Hc) as Hc'.
  destruct (Update_cases (clock w) (models.FromUpdateRequest old req) (db w) Hc)
    as [[err Herr] | (old' & Hin' & Hlive' & Hid' & _ & _ & Hout)].
  { rewrite Herr in Hup. discriminate. }
  assert (old' = old) as ->.
  { destruct Hc as [Hids _]. apply (NoDup_map_inj APIKey.ID _ old' old Hids Hin' Hin).
    exact Hid'. }
  rewrite Hout in Hup, Hc'. cbn [fst snd] in Hup, Hc'. injection Hup as <- <-.
  fold stored in Hc' |- *.
  set (db' := gorm.Make _ (gorm.seq (db w))) in *.
  assert (Hstored : In stored (gorm.rows db')).
  { apply in_map_iff. exists old. split; [|exact Hin]. simpl. now rewrite N.eqb_refl. }
  assert (Hlive : gorm.live stored = true) by exact Helive.
  assert (Hget : repository.GetByKey (util.HashAPIKey key) db' = Ok stored).
  { apply GetByKey_unique; auto using HashAPIKey_nonempty. }
  split; [reflexivity|]. split; [reflexivity|]. split; [exact Hkey|].
  split.
  - intros Hvalid. rewrite (ValidateAPIKey_exec key _ Hk). cbn [db with_db with_clock].
    rewrite Hget.
    assert (Hv : fst (exec (models.IsValid stored) (with_clock t (with_db db' w))) = true)
      by (apply IsValid_exec_true; exact Hvalid).
    now rewrite Hv.
  - intros Hinvalid. rewrite (ValidateAPIKey_exec key _ Hk). cbn [db with_db with_clock].
    rewrite Hget.
    destruct (fst (exec (models.IsValid stored) (with_clock t (with_db db' w)))) eqn:Hv;
      [|reflexivity].
    apply IsValid_exec_true in Hv. contradiction.
Qed.

Lemma ops_key_switched_off :
  exec (service.apiKeyService.UpdateAPIKey 1 ops_off_request) (snd ops_created) = ops_off.
Proof. vm_compute. reflexivity. Qed.

Lemma update_decides_validity_witness :
  exec (service.apiKeyService.ValidateAPIKey (APIKeyResponse.Key ops_response))
       (with_clock 5000 (snd ops_off))
  = (Err (errors_New "API key is not valid"), with_clock 5000 (snd ops_off)).
Proof.
  destruct ops_row_stored as (Hin & Hid & Hkey).
  destruct (update_decides_validity (snd ops_created) (snd ops_off) 1 ops_off_request
              (models.ToResponseWithoutKey
                 (updated 1000 (models.FromUpdateRequest ops_row ops_off_request) ops_row))
              (APIKeyResponse.Key ops_response) ops_row 5000
              ops_created_consistent ops_key_switched_off Hin Hid ltac:(discriminate) Hkey)
    as (_ & _ & _ & _ & H).
  apply H. intros [Hact _]. discriminate.
Defined.

(** X18.  [Update] returns the record as it is stored: on a table that
    satisfies its constraints, reading the record back by its ID, or by its
    hash, gives exactly the record [Update] left in its argument, which has
    the hash of the stored record whatever hash the caller put in. *)
Theorem Update_then_lookup :
  forall (now : Time) (apiKey apiKey' : APIKey) (db db' : gorm.DB),
    consistent db ->
    repository.Update now apiKey db = (db', (apiKey', None)) ->
    repository.GetByID (APIKey.ID apiKey) db' = Ok apiKey'
    /\ APIKey.ID apiKey' = APIKey.ID apiKey
    /\ (APIKey.Key apiKey' <> "" -> repository.GetByKey (APIKey.Key apiKey') db' = Ok apiKey')
    /\ exists old, In old (gorm.rows db) /\ APIKey.ID old = APIKey.ID apiKey
                   /\ APIKey.Key apiKey' = APIKey.Key old.
Proof.
  intros now apiKey apiKey' db db' Hc Hup.
  pose proof (consistent_Update now apiKey db Hc) as Hc'. rewrite Hup in Hc'. simpl in Hc'.
  destruct (Update_cases now apiKey db Hc)
    as [[err Herr] | (old & Hin & Hlive & Hid & Hnz & _ & Hout)].
  { rewrite Herr in Hup. discriminate. }
  rewrite Hout in Hup. injection Hup as <- <-.
  set (db' := gorm.Make _ (gorm.seq db)) in *.
  assert (Hstored : In (updated now apiKey old) (gorm.rows db')).
  { apply in_map_iff. exists old. split; [|exact Hin]. now rewrite Hid, N.eqb_refl. }
  assert (Hl : gorm.live (updated now apiKey old) = true) by exact Hlive.
  split; [|split; [exact Hid | split]].
  - rewrite <- Hid. apply (GetByID_unique db' (updated now apiKey old)); auto.
    simpl. congruence.
  - intros Hk. now apply GetByKey_unique.
  - exists old. auto.
Qed.

Lemma Update_then_lookup_witness :
  repository.GetByID 1
    (fst (repository.Update 3000 (APIKey.Make 1 "ops2" "forged" "" false None 0 0 None)
            (db two_keys)))
  = Ok (APIKey.Make 1 "ops2" boundary_hash "" false None 10 3000 None).
Proof.
  apply (Update_then_lookup 3000 (APIKey.Make 1 "ops2" "forged" "" false None 0 0 None)
           (APIKey.Make 1 "ops2" boundary_hash "" false None 10 3000 None) (db two_keys)).
  - exact two_keys_consistent.
  - vm_compute. reflexivity.
Defined.

(** ** What creation stores *)

Lemma Create_fresh_record (w : World) (req : CreateAPIKeyRequest) (plain : string) :
  CreateAPIKeyRequest.Name req <> "" ->
  repository.Create (clock w) (fresh_record req plain) (db w)
  = if repository.ExistsByKey (util.HashAPIKey plain) (db w) then
      (db w, (fresh_record req plain, Some (errors_New "API key already exists")))
    else gorm.Create (clock w) (fresh_record req plain) (db w).
Proof.
  intros Hname. unfold repository.Create.
  change (APIKey.Name (fresh_record req plain)) with (CreateAPIKeyRequest.Name req).
  change (APIKey.Key (fresh_record req plain)) with (util.HashAPIKey plain).
  now rewrite (string_eqb_false _ _ Hname), (string_eqb_false _ _ (HashAPIKey_nonempty plain)).
Qed.

(** X8.  Only the hash is stored.  When [CreateAPIKey] succeeds the table
    has grown by exactly one row, behind the rows it had: the row carries
    the SHA-256 hash of the plaintext key of the response, which differs
    from the plaintext, the name, description and expiry of the request, the
    active flag set, the ID of the response and the time of creation.  When
    it fails the rows of the table are unchanged. *)
Theorem CreateAPIKey_stores_hash_only :
  forall (w w1 : World) (req : CreateAPIKeyRequest),
    (forall resp,
        exec (service.apiKeyService.CreateAPIKey req) w = (Ok resp, w1) ->
        exists row,
          gorm.rows (db w1) = gorm.rows (db w) ++ [row]
          /\ APIKey.Key row = util.HashAPIKey (APIKeyResponse.Key resp)
          /\ APIKey.Key row <> APIKeyResponse.Key resp
          /\ APIKey.Name row = CreateAPIKeyRequest.Name req
          /\ APIKey.Description row = CreateAPIKeyRequest.Description req
          /\ APIKey.ExpiresAt row = CreateAPIKeyRequest.ExpiresAt req
          /\ APIKey.Active row = true
          /\ APIKey.ID row = APIKeyResponse.ID resp
          /\ APIKey.ID row = (gorm.seq (db w) + 1)%N
          /\ APIKey.CreatedAt row = clock w /\ APIKey.UpdatedAt row = clock w
          /\ APIKey.DeletedAt row = None
          /\ String.length (APIKeyResponse.Key resp) = 67%nat)
    /\ (forall err,
          exec (service.apiKeyService.CreateAPIKey req) w = (Err err, w1) ->
          gorm.rows (db w1) = gorm.rows (db w)).
Proof.
  intros w w1 req. rewrite CreateAPIKey_exec.
  destruct (String.eqb_spec (CreateAPIKeyRequest.Name req) "") as [|Hname];
    [split; [discriminate | now intros err [= _ <-]]|].
  destruct (entropy w) as [src|rerr]; [|split; [discriminate | now intros err [= _ <-]]].
  cbv zeta. set (plain := "sk-" +:+ hex.EncodeToString (util.fill src 32)).
  assert (Hlen : String.length plain = 67%nat).
  { unfold plain. rewrite length_string_app, EncodeToString_length.
    unfold util.fill. now rewrite length_map, length_seq. }
  rewrite (Create_fresh_record w req plain Hname).
  destruct (repository.ExistsByKey _ (db w));
    [split; [discriminate | now intros err [= _ <-]]|].
  set (rec := fresh_record req plain).
  destruct (gorm_Create_cases (clock w) rec (db w))
    as [(_ & Hrows & c & Herr) | (_ & Hrows & Hrow)].
  - rewrite Herr. cbn [fst snd]. split; [discriminate|]. intros err [= _ <-]. exact Hrows.
  - rewrite Hrow. cbn [fst snd]. split; [|discriminate].
    intros resp [= <- <-]. exists (gorm.to_insert (clock w) rec (db w)).
    cbn [db with_db]. split; [exact Hrows|]. split; [reflexivity|]. split.
    { intros Heq. apply (f_equal String.length) in Heq.
      cbn [APIKeyResponse.Key models.ToResponseWithKey] in Heq.
      change (APIKey.Key (gorm.to_insert (clock w) rec (db w)))
        with (util.HashAPIKey plain) in Heq.
      rewrite HashAPIKey_length, Hlen in Heq. discriminate. }
    repeat (split; [reflexivity|]). exact Hlen.
Qed.

Lemma CreateAPIKey_stores_hash_only_witness :
  exists row,
    gorm.rows (db (snd ops_created)) = gorm.rows (db sample_world) ++ [row]
    /\ APIKey.Key row = util.HashAPIKey (APIKeyResponse.Key ops_response).
Proof.
  destruct (CreateAPIKey_stores_hash_only sample_world (snd ops_created) ops_request)
    as [H _].
  destruct (H ops_response ops_key_created) as (row & H1 & H2 & _).
  exists row. split; [exact H1 | exact H2].
Defined.

(** X11.  [CreateAPIKey] reaches the store at most once, whatever the
    repository is.  With an empty name it makes no call at all; with a name
    and a random source that delivers, its one call to the store is
    [Create], on a record with no ID yet, the active flag set, and the hash
    of the generated key in place of the key; and what it returns is the
    error of that call or, when there is none, the record [Create] left,
    with the generated key in the clear. *)
Theorem CreateAPIKey_store_calls :
  forall (S : Type) (h : forall X, event X -> S -> X * S) (s : S) (req : CreateAPIKeyRequest),
    (CreateAPIKeyRequest.Name req = "" ->
       service.apiKeyService.CreateAPIKey req = Ret (Err (errors_New "name is required")))
    /\ (CreateAPIKeyRequest.Name req <> "" ->
        forall src, fst (h _ rand_Read s) = Ok src ->
                    let plainTextKey := "sk-" +:+ hex.EncodeToString (util.fill src 32) in
                    let created :=
                      fst (h _ (Repo_Create (fresh_record req plainTextKey))
                             (snd (h _ rand_Read s))) in
                    store_calls (trace h (service.apiKeyService.CreateAPIKey req) s)
                    = [Call (Repo_Create (fresh_record req plainTextKey))]
                    /\ fst (run h (service.apiKeyService.CreateAPIKey req) s)
                       = match snd created with
                         | Some err => Err err
                         | None => Ok (models.ToResponseWithKey (fst created) plainTextKey)
                         end).
Proof.
  intros S h s req. unfold service.apiKeyService.CreateAPIKey.
  split; [intros ->; reflexivity|].
  intros Hname; rewrite (string_eqb_false _ _ Hname);
    unfold models.FromCreateRequest, util.GenerateAPIKey; cbn.
  intros src Hsrc. destruct (h _ rand_Read s) as [r s1]. simpl in Hsrc. subst r. cbn.
  fold (fresh_record req ("sk-" +:+ hex.EncodeToString (util.fill src 32))).
  destruct (h _ (Repo_Create _) s1) as [[ak [err|]] s2]; split; reflexivity.
Qed.

Lemma CreateAPIKey_store_calls_witness :
  store_calls (trace handle (service.apiKeyService.CreateAPIKey ops_request) sample_world)
  = [Call (Repo_Create
             (fresh_record ops_request
                ("sk-" +:+ hex.EncodeToString (util.fill sample_entropy 32))))].
Proof.
  destruct (CreateAPIKey_store_calls World handle sample_world ops_request) as (_ & H).
  apply H; [discriminate | reflexivity].
Defined.

(** X7.  No read shows a key.  Whatever the repository answers, a
    response that [GetAPIKeyByID], [GetAllAPIKeys] or [UpdateAPIKey] returns
    has the mask in place of the key, and so has every body the reading
    handlers write. *)
Theorem read_responses_mask_the_key :
  forall (S : Type) (h : forall X, event X -> S -> X * S) (s s' : S),
    (forall id resp,
        run h (service.apiKeyService.GetAPIKeyByID id) s = (Ok resp, s') ->
        APIKeyResponse.Key resp = "***")
    /\ (forall resps,
          run h service.apiKeyService.GetAllAPIKeys s = (Ok resps, s') ->
          Forall (fun resp => APIKeyResponse.Key resp = "***") resps)
    /\ (forall id req resp,
          run h (service.apiKeyService.UpdateAPIKey id req) s = (Ok resp, s') ->
          APIKeyResponse.Key resp = "***")
    /\ (forall idStr status resp,
          run h (api_key_handler.GetAPIKeyByID the_handler idStr) s
          = ((status, api_key_handler.obj_key resp), s') ->
          APIKeyResponse.Key resp = "***")
    /\ (forall status resps,
          run h (api_key_handler.GetAPIKeys the_handler) s
          = ((status, api_key_handler.obj_keys resps), s') ->
          Forall (fun resp => APIKeyResponse.Key resp = "***") resps).
Proof.
  intros S h s s'.
  assert (H1 : forall id resp s1,
             run h (service.apiKeyService.GetAPIKeyByID id) s = (Ok resp, s1) ->
             APIKeyResponse.Key resp = "***").
  { intros id resp s1. unfold service.apiKeyService.GetAPIKeyByID.
    destruct (id =? 0)%N; [discriminate|]. cbn.
    destruct (h _ (Repo_GetByID id) s) as [[ak|err] s2]; cbn; [|discriminate].
    now intros [= <- _]. }
  assert (H2 : forall resps s1,
             run h service.apiKeyService.GetAllAPIKeys s = (Ok resps, s1) ->
             Forall (fun resp => APIKeyResponse.Key resp = "***") resps).
  { intros resps s1. unfold service.apiKeyService.GetAllAPIKeys. cbn.
    destruct (h _ Repo_GetAll s) as [[aks|err] s2]; cbn; [|discriminate].
    intros [= <- _]. apply Forall_map. apply Forall_forall. reflexivity. }
  split; [intros id resp; apply H1|]. split; [intros resps; apply H2|]. split; [|split].
  - intros id req resp. unfold service.apiKeyService.UpdateAPIKey.
    destruct (id =? 0)%N; [discriminate|]. destruct (_ =? _)%string; [discriminate|]. cbn.
    destruct (h _ (Repo_GetByID id) s) as [[ak|err] s2]; cbn; [|discriminate].
    destruct (h _ (Repo_Update _) s2) as [[ak' [err|]] s3]; cbn; [discriminate|].
    now intros [= <- _].
  - intros idStr status resp. unfold api_key_handler.GetAPIKeyByID.
    destruct (strconv.ParseUint10 idStr 32) as [id [e|]]; [discriminate|].
    change (service.GetAPIKeyByID (api_key_handler.apiKeyService the_handler))
      with service.apiKeyService.GetAPIKeyByID.
    rewrite run_bind.
    destruct (run h (service.apiKeyService.GetAPIKeyByID (Z.to_N id)) s)
      as [[r|err] s1] eqn:Hrun; cbn; [|discriminate].
    intros [= _ <- _]. exact (H1 _ _ _ Hrun).
  - intros status resps. unfold api_key_handler.GetAPIKeys.
    change (service.GetAllAPIKeys (api_key_handler.apiKeyService the_handler))
      with service.apiKeyService.GetAllAPIKeys.
    rewrite run_bind.
    destruct (run h service.apiKeyService.GetAllAPIKeys s) as [[r|err] s1] eqn:Hrun; cbn;
      [|discriminate].
    intros [= _ <- _]. exact (H2 _ _ eq_refl).
Qed.

Lemma read_responses_mask_the_key_witness :
  APIKeyResponse.Key (models.ToResponseWithoutKey first_key) = "***".
Proof.
  destruct (read_responses_mask_the_key World handle two_keys two_keys) as [H _].
  apply (H 1%N). vm_compute. reflexivity.
Defined.

(** ** The invariants of the table *)

Lemma sequenced_same_IDs (db db' : gorm.DB) :
  map APIKey.ID (gorm.rows db') = map APIKey.ID (gorm.rows db) ->
  gorm.seq db' = gorm.seq db ->
  sequenced db -> sequenced db'.
Proof.
  intros Hids Hseq Hs r Hr. rewrite Hseq.
  assert (Hin : In (APIKey.ID r) (map APIKey.ID (gorm.rows db')))
    by (now apply in_map).
  rewrite Hids in Hin. apply in_map_iff in Hin. destruct Hin as (r0 & <- & Hr0).
  now apply Hs.
Qed.

Lemma sequenced_Update (now : Time) (apiKey : APIKey) (db : gorm.DB) :
  consistent db -> sequenced db -> sequenced (fst (repository.Update now apiKey db)).
Proof.
  intros Hc. destruct (Update_frame_rows now apiKey db Hc) as [Hframe Hseq].
  apply sequenced_same_IDs; [now apply map_frame_ID | exact Hseq].
Qed.

Lemma sequenced_Delete (now : Time) (id : N) (db : gorm.DB) :
  consistent db -> sequenced db -> sequenced (fst (repository.Delete now id db)).
Proof.
  intros Hc. destruct (Delete_cases now id db Hc) as [(err & -> & _) | (old & _ & _ & _ & _ & ->)];
    [auto|].
  apply sequenced_same_IDs; [|reflexivity]. simpl. rewrite map_map.
  apply map_ext. intros r. apply (mark_deleted_frame now id r).
Qed.

Lemma sequenced_gorm_Create (now : Time) (value : APIKey) (db : gorm.DB) :
  APIKey.ID value = 0%N -> sequenced db -> sequenced (fst (gorm.Create now value db)).
Proof.
  unfold sequenced. intros Hz Hs r Hr. unfold gorm.Create in *. rewrite Hz in *.
  cbn [N.eqb] in *.
  destruct (existsb _ _); [|destruct (existsb _ _)]; cbn [fst gorm.rows gorm.seq] in *.
  - specialize (Hs r Hr). lia.
  - specialize (Hs r Hr). lia.
  - apply in_app_or in Hr. destruct Hr as [Hr | [<- | []]].
    + specialize (Hs r Hr). lia.
    + simpl. rewrite Hz. simpl. lia.
Qed.

Lemma well_formed_same (w : World) (t : Time) : well_formed w -> well_formed (with_clock t w).
Proof. exact (fun H => H). Qed.

(** X17.  The service keeps the table in order.  If the table satisfies
    its primary key and its unique index and its identifiers come from the
    sequence, it still does after any of the six methods of the service,
    whatever their arguments and whether they succeed or fail. *)
Theorem service_keeps_table_well_formed :
  forall w : World,
    well_formed w ->
    (forall req, well_formed (snd (exec (service.apiKeyService.CreateAPIKey req) w)))
    /\ (forall id, well_formed (snd (exec (service.apiKeyService.GetAPIKeyByID id) w)))
    /\ well_formed (snd (exec service.apiKeyService.GetAllAPIKeys w))
    /\ (forall id req, well_formed (snd (exec (service.apiKeyService.UpdateAPIKey id req) w)))
    /\ (forall id, well_formed (snd (exec (service.apiKeyService.DeleteAPIKey id) w)))
    /\ (forall key, well_formed (snd (exec (service.apiKeyService.ValidateAPIKey key) w))).
Proof.
  intros w [Hc Hs]. split; [|split; [|split; [|split; [|split]]]].
  - intros req. rewrite CreateAPIKey_exec.
    destruct (String.eqb_spec (CreateAPIKeyRequest.Name req) "") as [|Hname]; [now split|].
    destruct (entropy w) as [src|err]; [|now split]. cbv zeta.
    set (plain := "sk-" +:+ _).
    assert (Hwf : well_formed
                    (with_db (fst (repository.Create (clock w) (fresh_record req plain) (db w)))
                       w)).
    { split; cbn [db with_db]; [now apply consistent_Create|].
      rewrite (Create_fresh_record w req plain Hname).
      destruct (repository.ExistsByKey _ _); [exact Hs|].
      now apply sequenced_gorm_Create. }
    destruct (snd (snd _)); exact Hwf.
  - intros id. rewrite GetAPIKeyByID_exec. destruct (id =? 0)%N; [now split|].
    destruct (repository.GetByID _ _); now split.
  - rewrite GetAllAPIKeys_exec. now split.
  - intros id req. rewrite UpdateAPIKey_exec. destruct (id =? 0)%N; [now split|].
    destruct (_ =? _)%string; [now split|].
    destruct (repository.GetByID _ _) as [existing|err]; [|now split]. cbv zeta.
    assert (Hwf : well_formed
                    (with_db (fst (repository.Update (clock w)
                                     (models.FromUpdateRequest existing req) (db w))) w)).
    { split; cbn [db with_db]; [now apply consistent_Update | now apply sequenced_Update]. }
    destruct (snd (snd _)); exact Hwf.
  - intros id. rewrite DeleteAPIKey_exec. destruct (id =? 0)%N; [now split|].
    split; cbn [snd db with_db]; [now apply consistent_Delete | now apply sequenced_Delete].
  - intros key. destruct (ValidateAPIKey_total w key) as [r ->]. now split.
Qed.

Lemma sample_world_well_formed : well_formed sample_world.
Proof. split; [split; constructor | intros r []]. Qed.

Lemma service_keeps_table_well_formed_witness : well_formed (snd ops_created).
Proof.
  destruct (service_keeps_table_well_formed sample_world sample_world_well_formed) as [H _].
  exact (H ops_request).
Defined.

(** ** When creation succeeds *)

(** X10.  When creation succeeds.  With a name, a random source that
    delivers, a table whose identifiers come from the sequence and no row
    that holds the hash of the new key,
    [CreateAPIKey] succeeds: the response carries the plaintext key, the
    name of the request and the next identifier, and the key is active. *)
Lemma CreateAPIKey_succeeds (w : World) (req : CreateAPIKeyRequest) (src : nat -> byte) :
  let plainTextKey := "sk-" +:+ hex.EncodeToString (util.fill src 32) in
  CreateAPIKeyRequest.Name req <> "" ->
  entropy w = Ok src ->
  sequenced (db w) ->
  (forall r, In r (gorm.rows (db w)) -> APIKey.Key r <> util.HashAPIKey plainTextKey) ->
  exists resp w1,
    exec (service.apiKeyService.CreateAPIKey req) w = (Ok resp, w1)
    /\ APIKeyResponse.Key resp = plainTextKey
    /\ APIKeyResponse.Name resp = CreateAPIKeyRequest.Name req
    /\ APIKeyResponse.ID resp = (gorm.seq (db w) + 1)%N
    /\ APIKeyResponse.Active resp = true
    /\ sequenced (db w1).
Proof.
  intros plain Hname Hsrc Hseq Hfresh. rewrite CreateAPIKey_exec, Hsrc.
  rewrite (string_eqb_false _ _ Hname). cbv zeta. fold plain.
  set (rec := fresh_record req plain).
  pose proof (HashAPIKey_nonempty plain) as Hhash.
  assert (Hcreate : repository.Create (clock w) rec (db w) = gorm.Create (clock w) rec (db w)).
  { unfold repository.Create.
    change (APIKey.Name rec) with (CreateAPIKeyRequest.Name req).
    change (APIKey.Key rec) with (util.HashAPIKey plain).
    rewrite (string_eqb_false _ _ Hname), (string_eqb_false _ _ Hhash).
    destruct (repository.ExistsByKey _ (db w)) eqn:Hex; [|reflexivity].
    apply ExistsByKey_true in Hex. destruct Hex as (_ & r & Hin & _ & Hr).
    exfalso. now apply (Hfresh r Hin). }
  rewrite Hcreate.
  destruct (gorm_Create_cases (clock w) rec (db w))
    as [((r & Hin & [Hr | Hr]) & _) | (_ & Hrows & Hout)].
  - exfalso. specialize (Hseq r Hin). simpl in Hr. lia.
  - exfalso. now apply (Hfresh r Hin).
  - rewrite Hout. cbn [fst snd]. eexists. eexists. split; [reflexivity|].
    cbn [APIKeyResponse.Key APIKeyResponse.Name APIKeyResponse.ID APIKeyResponse.Active
         models.ToResponseWithKey].
    repeat (split; [reflexivity|]).
    intros r Hr. cbn [db with_db] in Hr. rewrite Hrows in Hr.
    unfold gorm.Create. destruct (existsb _ _); [|destruct (existsb _ _)]; simpl;
      apply in_app_or in Hr; destruct Hr as [Hr | [<- | []]];
      try (specialize (Hseq r Hr); lia); simpl; lia.
Qed.

Lemma CreateAPIKey_succeeds_witness :
  exists resp w1,
    exec (service.apiKeyService.CreateAPIKey ops_request) sample_world = (Ok resp, w1)
    /\ APIKeyResponse.Name resp = "ops"
    /\ APIKeyResponse.ID resp = 1%N.
Proof.
  destruct (CreateAPIKey_succeeds sample_world ops_request sample_entropy
              ltac:(discriminate) eq_refl ltac:(intros r []) ltac:(intros r []))
    as (resp & w1 & H1 & _ & H2 & H3 & _).
  exists resp, w1. split; [exact H1|]. split; [exact H2 | exact H3].
Defined.

(** ** Parsing the ID of a path *)

Lemma is_digit_range (c : byte) : is_digit c = true <-> 48 <= byte_val c <= 57.
Proof. unfold is_digit. rewrite andb_true_iff, !Z.leb_le. tauto. Qed.

Lemma byte_val_range (c : byte) : 0 <= byte_val c < 256.
Proof. destruct c as [[] [] [] [] [] [] [] []]; vm_compute; split; congruence. Qed.

Lemma decimal_from_ge (cs : list byte) (n : Z) :
  Forall (fun c => is_digit c = true) cs -> 0 <= n ->
  n <= fold_left (fun n c => n * 10 + (byte_val c - 48)) cs n.
Proof.
  revert n. induction cs as [|c cs IH]; intros n Hd Hn; simpl; [lia|].
  inversion Hd as [|? ? Hc Hcs]; subst. apply is_digit_range in Hc.
  specialize (IH (n * 10 + (byte_val c - 48)) Hcs). lia.
Qed.

Lemma classic_all_digits (cs : list byte) :
  Forall (fun c => is_digit c = true) cs \/ ~ Forall (fun c => is_digit c = true) cs.
Proof.
  induction cs as [|c cs [IH | IH]].
  - left. constructor.
  - destruct (is_digit c) eqn:Hc.
    + left. now constructor.
    + right. intros H. inversion H; subst. congruence.
  - right. intros H. inversion H; subst. contradiction.
Qed.

(** The loop of [ParseUint] in base 10, from a number [n] within range. *)
Lemma digits_spec (maxVal : Z) (cs : list byte) (n : Z) :
  0 <= n <= maxVal -> maxVal <= strconv.maxUint64 ->
  let value := fold_left (fun n c => n * 10 + (byte_val c - 48)) cs n in
  let r := strconv.digits 10 (strconv.maxUint64 / 10 + 1) maxVal cs n in
  (Forall (fun c => is_digit c = true) cs -> value <= maxVal -> r = (value, None))
  /\ (Forall (fun c => is_digit c = true) cs -> maxVal < value -> r = (maxVal, Some strconv.ErrRange))
  /\ (~ Forall (fun c => is_digit c = true) cs -> exists v e, r = (v, Some e)).
Proof.
  change (strconv.maxUint64 / 10 + 1) with 1844674407370955162.
  change strconv.maxUint64 with 18446744073709551615.
  revert n. induction cs as [|c cs IH]; intros n Hn Hmax; cbv zeta.
  { simpl. split; [reflexivity|]. split; [lia|]. intros H. exfalso. apply H. constructor. }
  cbn [strconv.digits fold_left].
  destruct (is_digit c) eqn:Hc.
  - pose proof (proj1 (is_digit_range c) Hc) as Hr.
    unfold is_digit in Hc. rewrite Hc.
    assert (Hd : (10 <=? byte_val c - 48) = false) by (apply Z.leb_gt; lia). rewrite Hd.
    set (d := byte_val c - 48) in *.
    assert (Hge : forall x, Forall (fun c => is_digit c = true) cs -> 0 <= x ->
                            x <= fold_left (fun n c => n * 10 + (byte_val c - 48)) cs x)
      by (intros x Hx H0; now apply decimal_from_ge).
    destruct (Z.leb_spec 1844674407370955162 n) as [Hcut|Hcut].
    { split; [|split].
      - intros Hall Hv. inversion Hall; subst. specialize (Hge (n * 10 + d) H2). lia.
      - reflexivity.
      - eauto. }
    destruct (Z_lt_le_dec (n * 10 + d) (2 ^ 64)) as [Hsmall|Hbig].
    + rewrite (Z.mod_small (n * 10 + d)) by lia.
      assert (Hlt : (n * 10 + d <? n * 10) = false) by (apply Z.ltb_ge; lia). rewrite Hlt.
      destruct (Z.ltb_spec maxVal (n * 10 + d)) as [Hover|Hin]; cbn [orb].
      * split; [|split].
        -- intros Hall Hv. inversion Hall; subst. specialize (Hge (n * 10 + d) H2). lia.
        -- reflexivity.
        -- eauto.
      * destruct (IH (n * 10 + d)) as (H1 & H2 & H3); [lia | lia|].
        split; [|split].
        -- intros Hall. inversion Hall; subst. now apply H1.
        -- intros Hall. inversion Hall; subst. now apply H2.
        -- intros Hnot. apply H3. intros Hcs. apply Hnot. constructor; [|exact Hcs].
           unfold is_digit. exact Hc.
    + assert (Hmod : (n * 10 + d) mod 2 ^ 64 = n * 10 + d - 2 ^ 64).
      { symmetry. apply (Z.mod_unique_pos _ _ 1); lia. }
      rewrite Hmod.
      assert (Hlt : (n * 10 + d - 2 ^ 64 <? n * 10) = true) by (apply Z.ltb_lt; lia).
      rewrite Hlt. cbn [orb]. split; [|split].
      * intros Hall Hv. inversion Hall; subst. specialize (Hge (n * 10 + d) H2). lia.
      * reflexivity.
      * eauto.
  - split; [|split].
    + intros Hall. inversion Hall; subst. congruence.
    + intros Hall. inversion Hall; subst. congruence.
    + intros _. unfold is_digit in Hc. rewrite Hc.
      destruct ((97 <=? strconv.lower (byte_val c)) && (strconv.lower (byte_val c) <=? 122))
        eqn:Hl; [|eauto].
      apply andb_true_iff in Hl. destruct Hl as [Hl _]. apply Z.leb_le in Hl.
      assert (Hd : (10 <=? strconv.lower (byte_val c) - 97 + 10) = true)
        by (apply Z.leb_le; lia).
      rewrite Hd. eauto.
Qed.

(** X14.  Which IDs the handlers accept.  [ParseUint(s, 10, bitSize)]
    succeeds exactly on the non-empty strings of decimal digits whose value
    fits in [bitSize] bits, and then returns that value: no sign, no space,
    no underscore, but any number of leading zeros.  The empty string is a
    syntax error, a string of digits that is too large a range error with
    the largest value; every other string is an error too. *)
Theorem ParseUint10_accepts_decimal_digits :
  forall (s : string) (bitSize : Z),
    1 <= bitSize <= 64 ->
    let maxVal := 2 ^ bitSize - 1 in
    let all_digits := Forall (fun c => is_digit c = true) (bytes_of_string s) in
    (forall n, strconv.ParseUint10 s bitSize = (n, None)
               <-> s <> "" /\ all_digits /\ decimal (bytes_of_string s) = n /\ n <= maxVal)
    /\ (s = "" -> strconv.ParseUint10 s bitSize = (0, Some strconv.ErrSyntax))
    /\ (s <> "" -> all_digits -> maxVal < decimal (bytes_of_string s) ->
        strconv.ParseUint10 s bitSize = (maxVal, Some strconv.ErrRange))
    /\ (~ all_digits -> exists v e, strconv.ParseUint10 s bitSize = (v, Some e)).
Proof.
  intros s bitSize Hb maxVal all_digits. unfold strconv.ParseUint10. fold maxVal.
  assert (Hmax : 0 <= maxVal <= strconv.maxUint64).
  { unfold maxVal, strconv.maxUint64.
    assert (2 ^ 1 <= 2 ^ bitSize) by (apply Z.pow_le_mono_r; lia).
    assert (2 ^ bitSize <= 2 ^ 64) by (apply Z.pow_le_mono_r; lia). lia. }
  destruct (digits_spec maxVal (bytes_of_string s) 0 ltac:(lia) ltac:(lia)) as (H1 & H2 & H3).
  fold (decimal (bytes_of_string s)) in H1, H2. fold all_digits in H1, H2, H3.
  destruct (String.eqb_spec s "") as [->|Hs].
  - split; [|split; [reflexivity | split; [congruence|]]].
    + intros n. split; [discriminate | intros [H _]; congruence].
    + intros H. exfalso. apply H. constructor.
  - split; [|split; [congruence | split; [intros _; exact H2 | exact H3]]].
    intros n. split.
    + intros Hp. destruct (classic_all_digits (bytes_of_string s)) as [Hall | Hnot].
      * destruct (Z_le_gt_dec (decimal (bytes_of_string s)) maxVal) as [Hle | Hgt].
        -- rewrite (H1 Hall Hle) in Hp. injection Hp as <-. auto.
        -- rewrite (H2 Hall ltac:(lia)) in Hp. discriminate.
      * destruct (H3 Hnot) as (v & e & He). rewrite He in Hp. discriminate.
    + intros (_ & Hall & <- & Hle). now apply H1.
Qed.

Lemma ParseUint10_accepts_decimal_digits_witness :
  strconv.ParseUint10 "007" 32 = (7, None).
Proof.
  destruct (ParseUint10_accepts_decimal_digits "007" 32 ltac:(lia)) as [H _].
  apply H. split; [discriminate|]. split; [repeat constructor|]. split; [reflexivity|].
  vm_compute. discriminate.
Defined.

(** ** The handlers over the store *)

Lemma ParseUint10_cases (s : string) :
  (parses s /\ strconv.ParseUint10 s 32 = (decimal (bytes_of_string s), None))
  \/ (~ parses s /\ exists v e, strconv.ParseUint10 s 32 = (v, Some e)).
Proof.
  unfold parses, strconv.ParseUint10.
  destruct (String.eqb_spec s "") as [->|Hs]; [right; split; [tauto | eauto]|].
  destruct (digits_spec (2 ^ 32 - 1) (bytes_of_string s) 0) as (H1 & H2 & H3);
    [lia | unfold strconv.maxUint64; lia|].
  fold (decimal (bytes_of_string s)) in H1, H2.
  destruct (classic_all_digits (bytes_of_string s)) as [Hall | Hnot].
  - destruct (Z_le_gt_dec (decimal (bytes_of_string s)) (2 ^ 32 - 1)) as [Hle | Hgt].
    + left. split; [auto|]. now apply H1.
    + right. split; [intros (_ & _ & H); lia|]. rewrite (H2 Hall ltac:(lia)). eauto.
  - right. split; [tauto|]. now apply H3.
Qed.

Lemma GetAPIKeyByID_handler_exec (idStr : string) (w : World) :
  exec (api_key_handler.GetAPIKeyByID the_handler idStr) w
  = match strconv.ParseUint10 idStr 32 with
    | (_, Some _) => (api_key_handler.invalid_id, w)
    | (id, None) =>
        match fst (exec (service.apiKeyService.GetAPIKeyByID (Z.to_N id)) w) with
        | Err err =>
            ((api_key_handler.lookup_status err,
              api_key_handler.obj_error
                (ErrorResponse.Make "Failed to retrieve API key" (Error err))), w)
        | Ok apiKey => ((api_key_handler.StatusOK, api_key_handler.obj_key apiKey), w)
        end
    end.
Proof.
  unfold exec, api_key_handler.GetAPIKeyByID.
  destruct (strconv.ParseUint10 idStr 32) as [id [e|]]; [reflexivity|].
  change (service.GetAPIKeyByID (api_key_handler.apiKeyService the_handler))
    with service.apiKeyService.GetAPIKeyByID.
  rewrite run_bind. fold (exec (service.apiKeyService.GetAPIKeyByID (Z.to_N id)) w).
  rewrite GetAPIKeyByID_exec. destruct (_ =? _)%N; [reflexivity|].
  destruct (repository.GetByID _ _); reflexivity.
Qed.

(** X15.  What [GET /api-keys/:id] answers.  The handler never changes
    the world.  A path ID that is not a decimal number of 32 bits gets 400;
    the ID zero gets 404 with "invalid API key ID"; an ID without a live
    record gets 404 with "API key not found"; and the ID of a live record,
    on a table that satisfies its constraints, gets 200 with that record,
    its key masked. *)
Theorem GetAPIKeyByID_handler_answers :
  forall (w : World) (idStr : string),
    consistent (db w) ->
    let out := exec (api_key_handler.GetAPIKeyByID the_handler idStr) w in
    let failed message :=
      (handler.StatusNotFound,
       api_key_handler.obj_error (ErrorResponse.Make "Failed to retrieve API key" message)) in
    snd out = w
    /\ (~ parses idStr -> fst out = api_key_handler.invalid_id)
    /\ (parses idStr -> parsed_id idStr = 0%N -> fst out = failed "invalid API key ID")
    /\ (parses idStr -> parsed_id idStr <> 0%N ->
        (forall r, In r (gorm.rows (db w)) -> gorm.live r = true ->
                   APIKey.ID r <> parsed_id idStr) ->
        fst out = failed "API key not found")
    /\ (parses idStr -> parsed_id idStr <> 0%N ->
        forall r, In r (gorm.rows (db w)) -> gorm.live r = true ->
                  APIKey.ID r = parsed_id idStr ->
                  fst out = (api_key_handler.StatusOK,
                             api_key_handler.obj_key (models.ToResponseWithoutKey r))).
Proof.
  intros w idStr Hc out failed. subst out. rewrite GetAPIKeyByID_handler_exec.
  destruct (ParseUint10_cases idStr) as [[Hp ->] | [Hnp (v & e & ->)]].
  - fold (parsed_id idStr). rewrite GetAPIKeyByID_exec.
    destruct (N.eqb_spec (parsed_id idStr) 0) as [Hz|Hnz].
    + repeat split; try reflexivity; try contradiction.
    + split.
      { destruct (repository.GetByID _ _); reflexivity. }
      split; [intros H; contradiction|]. split; [intros _ H; contradiction|]. split.
      * intros _ _ Hnone. now rewrite (GetByID_not_found _ _ Hnz Hnone).
      * intros _ _ r Hin Hlive Hid. rewrite <- Hid.
        rewrite (GetByID_unique (db w) r Hc); [reflexivity | congruence | auto | auto].
  - repeat split; try reflexivity; intros; contradiction.
Qed.

Lemma GetAPIKeyByID_handler_answers_witness :
  fst (exec (api_key_handler.GetAPIKeyByID the_handler "2") two_keys)
  = (404, api_key_handler.obj_error
            (ErrorResponse.Make "Failed to retrieve API key" "API key not found")).
Proof.
  destruct (GetAPIKeyByID_handler_answers two_keys "2" two_keys_consistent)
    as (_ & _ & _ & H & _).
  apply H.
  - split; [discriminate|]. split; [repeat constructor | vm_compute; discriminate].
  - discriminate.
  - intros r [<- | [<- | []]] Hlive; [discriminate | discriminate].
Defined.

Lemma DeleteAPIKey_handler_exec (idStr : string) (w : World) :
  exec (api_key_handler.DeleteAPIKey the_handler idStr) w
  = match strconv.ParseUint10 idStr 32 with
    | (_, Some _) => (api_key_handler.invalid_id, w)
    | (id, None) =>
        match fst (exec (service.apiKeyService.DeleteAPIKey (Z.to_N id)) w) with
        | Some err =>
            ((api_key_handler.lookup_status err,
              api_key_handler.obj_error
                (ErrorResponse.Make "Failed to delete API key" (Error err))),
             snd (exec (service.apiKeyService.DeleteAPIKey (Z.to_N id)) w))
        | None =>
            ((api_key_handler.StatusNoContent, api_key_handler.no_body),
             snd (exec (service.apiKeyService.DeleteAPIKey (Z.to_N id)) w))
        end
    end.
Proof.
  unfold exec, api_key_handler.DeleteAPIKey.
  destruct (strconv.ParseUint10 idStr 32) as [id [e|]]; [reflexivity|].
  change (service.DeleteAPIKey (api_key_handler.apiKeyService the_handler))
    with service.apiKeyService.DeleteAPIKey.
  rewrite run_bind.
  destruct (run handle (service.apiKeyService.DeleteAPIKey (Z.to_N id)) w) as [[err|] w1];
    reflexivity.
Qed.

(** X16.  What [DELETE /api-keys/:id] answers.  A path ID that is not a
    decimal number of 32 bits gets 400, the ID zero 404 with "invalid API
    key ID", an ID without a live record 404 with "API key not found", all
    three with the world unchanged.  The ID of a live record, on a table
    that satisfies its constraints, gets 204 without a body, the record is
    marked as deleted, and the same request made again gets 404 with "API
    key not found". *)
Theorem DeleteAPIKey_handler_answers :
  forall (w : World) (idStr : string),
    consistent (db w) ->
    let out := exec (api_key_handler.DeleteAPIKey the_handler idStr) w in
    let failed message :=
      (handler.StatusNotFound,
       api_key_handler.obj_error (ErrorResponse.Make "Failed to delete API key" message)) in
    (~ parses idStr -> out = (api_key_handler.invalid_id, w))
    /\ (parses idStr -> parsed_id idStr = 0%N -> out = (failed "invalid API key ID", w))
    /\ (parses idStr -> parsed_id idStr <> 0%N ->
        (forall r, In r (gorm.rows (db w)) -> gorm.live r = true ->
                   APIKey.ID r <> parsed_id idStr) ->
        out = (failed "API key not found", w))
    /\ (parses idStr -> parsed_id idStr <> 0%N ->
        forall r, In r (gorm.rows (db w)) -> gorm.live r = true ->
                  APIKey.ID r = parsed_id idStr ->
                  fst out = (api_key_handler.StatusNoContent, api_key_handler.no_body)
                  /\ gorm.rows (db (snd out))
                     = map (mark_deleted (clock w) (parsed_id idStr)) (gorm.rows (db w))
                  /\ exec (api_key_handler.DeleteAPIKey the_handler idStr) (snd out)
                     = (failed "API key not found", snd out)).
Proof.
  intros w idStr Hc out failed. subst out. rewrite DeleteAPIKey_handler_exec.
  destruct (ParseUint10_cases idStr) as [[Hp Hparse] | [Hnp (v & e & ->)]];
    [|repeat split; try reflexivity; intros; contradiction].
  rewrite Hparse. fold (parsed_id idStr). rewrite DeleteAPIKey_exec.
  destruct (N.eqb_spec (parsed_id idStr) 0) as [Hz|Hnz].
  { repeat split; try reflexivity; try contradiction. }
  cbn [fst snd].
  destruct (Delete_cases (clock w) (parsed_id idStr) (db w) Hc)
    as [(err & Herr & Hwhy) | (old & Hin & Hlive & Hid & _ & Hout)].
  - rewrite Herr. cbn [fst snd].
    destruct Hwhy as [[Hz _] | (_ & -> & Hnone)]; [contradiction|].
    split; [intros H; contradiction|]. split; [intros _ H; contradiction|]. split.
    + intros _ _ _. destruct w; reflexivity.
    + intros _ _ r Hr Hl Hrid. exfalso. now apply (Hnone r Hr Hl).
  - rewrite Hout. cbn [fst snd].
    split; [intros H; contradiction|]. split; [intros _ H; contradiction|]. split.
    + intros _ _ Hnone. exfalso. now apply (Hnone old Hin Hlive).
    + intros _ _ r Hr Hl Hrid. split; [reflexivity|]. split; [reflexivity|].
      rewrite DeleteAPIKey_handler_exec, Hparse. fold (parsed_id idStr).
      rewrite DeleteAPIKey_exec, (proj2 (N.eqb_neq _ _) Hnz). cbn [db with_db clock fst snd].
      set (db' := gorm.Make _ (gorm.seq (db w))).
      assert (Hnf : repository.GetByID (parsed_id idStr) db'
                    = Err (errors_New "API key not found")).
      { apply GetByID_not_found; [exact Hnz|]. intros r' Hr' Hl'.
        now apply (live_after_mark (clock w) _ (gorm.rows (db w)) r'). }
      unfold repository.Delete. rewrite (proj2 (N.eqb_neq _ _) Hnz), Hnf. reflexivity.
Qed.

Lemma DeleteAPIKey_handler_answers_witness :
  fst (exec (api_key_handler.DeleteAPIKey the_handler "01") two_keys)
  = (204, api_key_handler.no_body).
Proof.
  destruct (DeleteAPIKey_handler_answers two_keys "01" two_keys_consistent)
    as (_ & _ & _ & H).
  destruct (H ltac:(split; [discriminate|]; split; [repeat constructor | vm_compute; discriminate])
              ltac:(discriminate) first_key ltac:(now left) eq_refl eq_refl) as [H1 _].
  exact H1.
Defined.

(** ** Cleaning the header *)

(** X2.  When the gate says "API key cannot be empty".  The cleaned
    header is empty exactly when the header consists of white space only:
    a header that starts, once trimmed, with [Bearer ] always yields a
    non-empty key.  So the gate answers "API key cannot be empty" for the
    non-empty headers of white space, and presents every other non-empty
    header to the validation, with a non-empty key. *)
Theorem clean_empty_iff_blank :
  forall header : string,
    (middleware.clean header = "" <-> strings.TrimSpace header = "")
    /\ (strings.HasPrefix (strings.TrimSpace header) "Bearer " = true ->
        middleware.clean header <> "")
    /\ forall (apiKeyService : service.APIKeyService)
              (Next : gin.Context -> prog gin.Context) (c : gin.Context),
         gin.GetHeader c "X-API-Key" = header -> header <> "" ->
         (strings.TrimSpace header = "" ->
            middleware.APIKeyAuthMiddleware apiKeyService Next c
            = Ret (reject "API key cannot be empty" c))
         /\ (strings.TrimSpace header <> "" ->
             middleware.clean header <> ""
             /\ middleware.APIKeyAuthMiddleware apiKeyService Next c
                = (service.ValidateAPIKey apiKeyService (middleware.clean header)
                   ≫= fun r =>
                        match r with
                        | Err _ => Ret (reject "Invalid API key" c)
                        | Ok validatedAPIKey => Next (attach validatedAPIKey c)
                        end)).
Proof.
  intros header.
  assert (Hiff : middleware.clean header = "" <-> strings.TrimSpace header = "").
  { unfold middleware.clean.
    destruct (strings.HasPrefix (strings.TrimSpace header) "Bearer ") eqn:Hp; [|tauto].
    split.
    - intros H. now apply TrimSpace_after_prefix in H.
    - intros H. rewrite H in Hp. discriminate. }
  split; [exact Hiff|]. split.
  - intros Hp Hc. unfold middleware.clean in Hc. rewrite Hp in Hc.
    now apply TrimSpace_after_prefix in Hc.
  - intros svc Next c <- Hh. split.
    + intros Hblank. apply gate_blank; [exact Hh | now apply Hiff].
    + intros Hnb. assert (Hk : middleware.clean (gin.GetHeader c "X-API-Key") <> "")
        by (intros H; now apply Hiff in H).
      split; [exact Hk | now apply gate_validates].
Qed.

Lemma clean_empty_iff_blank_witness :
  middleware.clean "Bearer   sk-abc " <> "".
Proof.
  destruct (clean_empty_iff_blank "Bearer   sk-abc ") as (_ & H & _).
  apply H. reflexivity.
Defined.

(** ** The list of keys *)

Lemma GetAPIKeys_handler_exec (w : World) :
  exec (api_key_handler.GetAPIKeys the_handler) w
  = ((api_key_handler.StatusOK,
      api_key_handler.obj_keys (map models.ToResponseWithoutKey (gorm.Find (db w)))), w).
Proof. reflexivity. Qed.

Lemma Find_app (rows : list APIKey) (row : APIKey) (n m : N) :
  gorm.live row = true ->
  gorm.Find (gorm.Make (rows ++ [row]) n) = gorm.Find (gorm.Make rows m) ++ [row].
Proof.
  intros Hl. unfold gorm.Find, gorm.Where. cbn [gorm.rows].
  rewrite List.filter_app. cbn [List.filter]. now rewrite Hl.
Qed.

Lemma Find_mark_deleted (now : Time) (id : N) (rows : list APIKey) (n m : N) :
  map models.ToResponseWithoutKey (gorm.Find (gorm.Make (map (mark_deleted now id) rows) n))
  = List.filter (fun resp => negb (APIKeyResponse.ID resp =? id)%N)
      (map models.ToResponseWithoutKey (gorm.Find (gorm.Make rows m))).
Proof.
  unfold gorm.Find, gorm.Where. cbn [gorm.rows].
  induction rows as [|r rows IH]; [reflexivity|]. cbn [map List.filter].
  destruct (N.eqb_spec (APIKey.ID r) id) as [Hid|Hid].
  - assert (mark_deleted now id r = gorm.with_DeletedAt now r) as ->
      by (unfold mark_deleted; now rewrite (proj2 (N.eqb_eq _ _) Hid)).
    change (gorm.live (gorm.with_DeletedAt now r)) with false. cbn [andb]. rewrite IH.
    destruct (gorm.live r); [|reflexivity]. cbn [andb map List.filter].
    change (APIKeyResponse.ID (models.ToResponseWithoutKey r)) with (APIKey.ID r).
    now rewrite (proj2 (N.eqb_eq _ _) Hid).
  - assert (mark_deleted now id r = r) as ->
      by (unfold mark_deleted; now rewrite (proj2 (N.eqb_neq _ _) Hid)).
    destruct (gorm.live r); [|exact IH]. cbn [andb map List.filter].
    change (APIKeyResponse.ID (models.ToResponseWithoutKey r)) with (APIKey.ID r).
    rewrite (proj2 (N.eqb_neq _ _) Hid). cbn [negb]. now f_equal.
Qed.

Lemma Find_replace (id : N) (new : APIKey) (rows : list APIKey) (n m : N) :
  APIKey.ID new = id ->
  (forall r, In r rows -> APIKey.ID r = id -> gorm.live r = gorm.live new) ->
  map models.ToResponseWithoutKey
    (gorm.Find (gorm.Make (map (fun r => if (APIKey.ID r =? id)%N then new else r) rows) n))
  = map (fun resp => if (APIKeyResponse.ID resp =? id)%N
                     then models.ToResponseWithoutKey new else resp)
      (map models.ToResponseWithoutKey (gorm.Find (gorm.Make rows m))).
Proof.
  intros Hnew. unfold gorm.Find, gorm.Where. cbn [gorm.rows].
  induction rows as [|r rows IH]; intros Hrows; [reflexivity|]. cbn [map List.filter].
  assert (IH' := IH (fun r' Hr' => Hrows r' (or_intror Hr'))).
  destruct (N.eqb_spec (APIKey.ID r) id) as [Hid|Hid].
  - rewrite <- (Hrows r (or_introl eq_refl) Hid).
    destruct (gorm.live r); [|exact IH']. cbn [andb map].
    change (APIKeyResponse.ID (models.ToResponseWithoutKey r)) with (APIKey.ID r).
    rewrite (proj2 (N.eqb_eq _ _) Hid). now f_equal.
  - destruct (gorm.live r); [|exact IH']. cbn [andb map].
    change (APIKeyResponse.ID (models.ToResponseWithoutKey r)) with (APIKey.ID r).
    rewrite (proj2 (N.eqb_neq _ _) Hid). now f_equal.
Qed.

Lemma listed_after_write (w : World) :
  consistent (db w) ->
  let listed w := map models.ToResponseWithoutKey (gorm.Find (db w)) in
  (forall req resp w1,
      exec (service.apiKeyService.CreateAPIKey req) w = (Ok resp, w1) ->
      listed w1 = listed w ++ [masked resp])
  /\ (forall id w1,
        exec (service.apiKeyService.DeleteAPIKey id) w = (None, w1) ->
        listed w1 = List.filter (fun r => negb (APIKeyResponse.ID r =? id)%N) (listed w))
  /\ (forall id req resp w1,
        exec (service.apiKeyService.UpdateAPIKey id req) w = (Ok resp, w1) ->
        listed w1 = map (fun r => if (APIKeyResponse.ID r =? id)%N then resp else r) (listed w)).
Proof.
  intros Hc listed. subst listed. cbv beta. split; [|split].
  - intros req resp w1. rewrite CreateAPIKey_exec.
    destruct (String.eqb_spec (CreateAPIKeyRequest.Name req) "") as [|Hname]; [discriminate|].
    destruct (entropy w) as [src|rerr]; [|discriminate].
    cbv zeta. set (plain := "sk-" +:+ hex.EncodeToString (util.fill src 32)).
    rewrite (Create_fresh_record w req plain Hname).
    destruct (repository.ExistsByKey _ (db w)); [discriminate|].
    set (rec := fresh_record req plain).
    destruct (gorm_Create_cases (clock w) rec (db w))
      as [(_ & _ & c & Herr) | (_ & Hrows & Hrow)].
    + rewrite Herr. discriminate.
    + rewrite Hrow. cbn [fst snd]. intros [= <- <-]. cbn [db with_db].
      destruct (fst (gorm.Create (clock w) rec (db w))) as [rows' seq'].
      cbn [gorm.rows] in Hrows. subst rows'.
      destruct (db w) as [rows0 seq0] eqn:Hdb. cbn [gorm.rows].
      rewrite (Find_app rows0 (gorm.to_insert (clock w) rec (gorm.Make rows0 seq0))
                 seq' seq0 eq_refl), map_app. reflexivity.
  - intros id w1. rewrite DeleteAPIKey_exec.
    destruct (id =? 0)%N; [discriminate|].
    destruct (Delete_cases (clock w) id (db w) Hc)
      as [(err & -> & _) | (old & _ & _ & _ & _ & ->)]; [discriminate|].
    cbn [fst snd]. intros [= <-]. cbn [db with_db].
    destruct (db w) as [rows0 seq0]. cbn [gorm.rows gorm.seq].
    now rewrite (Find_mark_deleted (clock w) id rows0 seq0 seq0).
  - intros id req resp w1. rewrite UpdateAPIKey_exec.
    destruct (id =? 0)%N; [discriminate|].
    destruct (_ =? _)%string; [discriminate|].
    destruct (repository.GetByID id (db w)) as [existing|err] eqn:Hget; [|discriminate].
    apply GetByID_Ok in Hget. destruct Hget as (_ & Hin & Hlive & Hid).
    cbv zeta.
    destruct (Update_cases (clock w) (models.FromUpdateRequest existing req) (db w) Hc)
      as [[err ->] | (old & Hold & Hlo & Hido & _ & _ & ->)]; [discriminate|].
    cbn [fst snd]. intros [= <- <-]. cbn [db with_db].
    change (APIKey.ID (models.FromUpdateRequest existing req)) with (APIKey.ID existing) in *.
    rewrite Hid in *.
    destruct Hc as [Hids _]. destruct (db w) as [rows0 seq0]. cbn [gorm.rows gorm.seq] in *.
    rewrite (Find_replace id (updated (clock w) (models.FromUpdateRequest existing req) old)
               rows0 seq0 seq0 Hido); [reflexivity|].
    intros r Hr Hrid.
    assert (r = old) as -> by (apply (NoDup_map_inj APIKey.ID _ r old Hids Hr Hold); congruence).
    reflexivity.
Qed.

(** X9.  The list follows the table.  When [GET /api-keys] answers 200,
    the world is as it was and the list holds the live records of the
    table, each with its key masked, and nothing else.  On a table that
    satisfies its constraints, whatever the order of the lists: after a
    successful [CreateAPIKey] the list has the entries it had and the
    response of the creation, its key masked; after a successful
    [DeleteAPIKey] it has the entries it had without those of the deleted
    ID; and after a successful [UpdateAPIKey] it has the entries it had
    with the response of the update for the entry of that ID. *)
Theorem list_follows_the_table :
  forall (w : World) (before : list APIKeyResponse),
    consistent (db w) ->
    fst (exec (api_key_handler.GetAPIKeys the_handler) w)
    = (api_key_handler.StatusOK, api_key_handler.obj_keys before) ->
    let lists w1 after :=
      fst (exec (api_key_handler.GetAPIKeys the_handler) w1)
      = (api_key_handler.StatusOK, api_key_handler.obj_keys after) in
    snd (exec (api_key_handler.GetAPIKeys the_handler) w) = w
    /\ (forall resp,
          In resp before
          <-> exists r, In r (gorm.rows (db w)) /\ gorm.live r = true
                        /\ resp = models.ToResponseWithoutKey r)
    /\ (forall req resp w1 after,
          exec (service.apiKeyService.CreateAPIKey req) w = (Ok resp, w1) ->
          lists w1 after ->
          Permutation after (masked resp :: before))
    /\ (forall id w1 after,
          exec (service.apiKeyService.DeleteAPIKey id) w = (None, w1) ->
          lists w1 after ->
          Permutation after
            (List.filter (fun r => negb (APIKeyResponse.ID r =? id)%N) before))
    /\ (forall id req resp w1 after,
          exec (service.apiKeyService.UpdateAPIKey id req) w = (Ok resp, w1) ->
          lists w1 after ->
          Permutation after
            (map (fun r => if (APIKeyResponse.ID r =? id)%N then resp else r) before)).
Proof.
  intros w before Hc Hbefore lists. subst lists. cbv beta.
  rewrite GetAPIKeys_handler_exec in Hbefore. cbn [fst] in Hbefore. injection Hbefore as <-.
  destruct (listed_after_write w Hc) as (Hcreate & Hdelete & Hupdate).
  split; [now rewrite GetAPIKeys_handler_exec|]. split; [|split; [|split]].
  - intros resp. rewrite in_map_iff. split.
    + intros (r & <- & Hr). apply Where_In in Hr. destruct Hr as (Hin & Hlive & _). eauto.
    + intros (r & Hin & Hlive & ->). exists r. split; [reflexivity|].
      apply Where_In. auto.
  - intros req resp w1 after Hrun Hafter.
    rewrite GetAPIKeys_handler_exec in Hafter. cbn [fst] in Hafter. injection Hafter as <-.
    rewrite (Hcreate req resp w1 Hrun). symmetry. apply Permutation_cons_append.
  - intros id w1 after Hrun Hafter.
    rewrite GetAPIKeys_handler_exec in Hafter. cbn [fst] in Hafter. injection Hafter as <-.
    now rewrite (Hdelete id w1 Hrun).
  - intros id req resp w1 after Hrun Hafter.
    rewrite GetAPIKeys_handler_exec in Hafter. cbn [fst] in Hafter. injection Hafter as <-.
    now rewrite (Hupdate id req resp w1 Hrun).
Qed.

Lemma list_follows_the_table_witness :
  In (models.ToResponseWithoutKey first_key) [models.ToResponseWithoutKey first_key].
Proof.
  destruct (list_follows_the_table two_keys [models.ToResponseWithoutKey first_key]
              two_keys_consistent eq_refl) as (_ & H & _).
  apply H. exists first_key. split; [now left | split; reflexivity].
Defined.

(** ** Creating a key over HTTP *)

Lemma CreateAPIKey_handler_exec (w : World) (req : CreateAPIKeyRequest) :
  exec (api_key_handler.CreateAPIKey the_handler (Ok req)) w
  = match fst (exec (service.apiKeyService.CreateAPIKey req) w) with
    | Err err =>
        ((handler.CreateAPIKey_status err,
          api_key_handler.obj_error
            (ErrorResponse.Make "Failed to create API key" (Error err))),
         snd (exec (service.apiKeyService.CreateAPIKey req) w))
    | Ok apiKey =>
        ((api_key_handler.StatusCreated, api_key_handler.obj_key apiKey),
         snd (exec (service.apiKeyService.CreateAPIKey req) w))
    end.
Proof.
  unfold exec, api_key_handler.CreateAPIKey.
  change (service.CreateAPIKey (api_key_handler.apiKeyService the_handler))
    with service.apiKeyService.CreateAPIKey.
  rewrite run_bind.
  destruct (run handle (service.apiKeyService.CreateAPIKey req) w) as [[resp|err] w1];
    reflexivity.
Qed.

Lemma unique_violation_status (constraint : string) :
  handler.CreateAPIKey_status (gorm.unique_violation constraint)
  = handler.StatusInternalServerError.
Proof. reflexivity. Qed.

(** X20.  What [POST /api-keys] answers.  A body that does not bind gets
    400 "Invalid request body" and the world is unchanged.  For a bound
    request with a name, a random source that delivers and a table whose
    identifiers come from the sequence: if a live record holds the hash of
    the generated key the answer is 409 "API key already exists", the
    world unchanged; if only deleted records hold it, the unique index of
    the table refuses the row and the answer is 500, the rows unchanged;
    and if no record holds it the answer is 201 with the plaintext key,
    the name of the request, the next identifier and the active flag
    set. *)
Theorem CreateAPIKey_handler_answers :
  forall (w : World) (bound : result CreateAPIKeyRequest),
    sequenced (db w) ->
    let out := exec (api_key_handler.CreateAPIKey the_handler bound) w in
    let failed status message :=
      (status,
       api_key_handler.obj_error (ErrorResponse.Make "Failed to create API key" message)) in
    (forall err,
        bound = Err err ->
        out = ((handler.StatusBadRequest,
                api_key_handler.obj_error
                  (ErrorResponse.Make "Invalid request body" (Error err))), w))
    /\ (forall req src,
          bound = Ok req -> CreateAPIKeyRequest.Name req <> "" -> entropy w = Ok src ->
          let plainTextKey := "sk-" +:+ hex.EncodeToString (util.fill src 32) in
          let holds r := APIKey.Key r = util.HashAPIKey plainTextKey in
          ((exists r, In r (gorm.rows (db w)) /\ gorm.live r = true /\ holds r) ->
           out = (failed handler.StatusConflict "API key already exists", w))
          /\ ((forall r, In r (gorm.rows (db w)) -> gorm.live r = true -> ~ holds r) ->
              (exists r, In r (gorm.rows (db w)) /\ holds r) ->
              fst (fst out) = handler.StatusInternalServerError
              /\ gorm.rows (db (snd out)) = gorm.rows (db w))
          /\ ((forall r, In r (gorm.rows (db w)) -> ~ holds r) ->
              exists resp,
                fst out = (api_key_handler.StatusCreated, api_key_handler.obj_key resp)
                /\ APIKeyResponse.Key resp = plainTextKey
                /\ APIKeyResponse.Name resp = CreateAPIKeyRequest.Name req
                /\ APIKeyResponse.ID resp = (gorm.seq (db w) + 1)%N
                /\ APIKeyResponse.Active resp = true)).
Proof.
  intros w bound Hseq out failed. subst out failed. cbv beta.
  split; [now intros err ->|].
  - intros req src -> Hname Hsrc plain holds.
    rewrite CreateAPIKey_handler_exec, CreateAPIKey_exec, Hsrc.
    rewrite (string_eqb_false _ _ Hname). cbv zeta. fold plain.
    rewrite (Create_fresh_record w req plain Hname).
    set (rec := fresh_record req plain).
    destruct (repository.ExistsByKey (util.HashAPIKey plain) (db w)) eqn:Hex.
    + apply ExistsByKey_true in Hex. destruct Hex as (_ & r & Hin & Hlive & Hr).
      cbn [fst snd]. split; [intros _; destruct w; reflexivity|]. split.
      * intros Hnone _. exfalso. exact (Hnone r Hin Hlive Hr).
      * intros Hnone. exfalso. exact (Hnone r Hin Hr).
    + assert (Hnolive : forall r, In r (gorm.rows (db w)) -> gorm.live r = true -> ~ holds r).
      { intros r Hin Hlive Hr.
        assert (repository.ExistsByKey (util.HashAPIKey plain) (db w) = true) as Ht
          by (apply ExistsByKey_true; split; [apply HashAPIKey_nonempty | eauto]).
        rewrite Ht in Hex. discriminate. }
      split; [intros (r & Hin & Hlive & Hr); exfalso; exact (Hnolive r Hin Hlive Hr)|].
      destruct (gorm_Create_cases (clock w) rec (db w))
        as [((r & Hin & Hr) & Hrows & c & Herr) | (Hfresh & Hrows & Hrow)].
      * rewrite Herr. cbn [fst snd db with_db]. split.
        { intros _ _. split; [apply unique_violation_status | exact Hrows]. }
        intros Hnone. exfalso. destruct Hr as [Hr | Hr].
        { specialize (Hseq r Hin). simpl in Hr. lia. }
        { exact (Hnone r Hin Hr). }
      * rewrite Hrow. cbn [fst snd db with_db]. split.
        { intros _ (r & Hin & Hr). exfalso. exact (proj2 (Hfresh r Hin) Hr). }
        intros Hnone. eexists. split; [reflexivity|]. repeat split.
Qed.

Lemma CreateAPIKey_handler_answers_witness :
  exists resp,
    fst (exec (api_key_handler.CreateAPIKey the_handler (Ok ops_request)) sample_world)
    = (201, api_key_handler.obj_key resp)
    /\ APIKeyResponse.Name resp = "ops".
Proof.
  destruct (CreateAPIKey_handler_answers sample_world (Ok ops_request) ltac:(intros r []))
    as (_ & H).
  destruct (H ops_request sample_entropy eq_refl ltac:(discriminate) eq_refl) as (_ & _ & H3).
  destruct (H3 ltac:(intros r [])) as (resp & H1 & _ & H2 & _).
  exists resp. split; [exact H1 | exact H2].
Defined.

(** ** Updating a key over HTTP *)

Lemma UpdateAPIKey_handler_exec (idStr : string) (req : UpdateAPIKeyRequest) (w : World) :
  exec (api_key_handler.UpdateAPIKey the_handler idStr (Ok req)) w
  = match strconv.ParseUint10 idStr 32 with
    | (_, Some _) => (api_key_handler.invalid_id, w)
    | (id, None) =>
        match fst (exec (service.apiKeyService.UpdateAPIKey (Z.to_N id) req) w) with
        | Err err =>
            ((handler.UpdateAPIKey_status err,
              api_key_handler.obj_error
                (ErrorResponse.Make "Failed to update API key" (Error err))),
             snd (exec (service.apiKeyService.UpdateAPIKey (Z.to_N id) req) w))
        | Ok apiKey =>
            ((api_key_handler.StatusOK, api_key_handler.obj_key apiKey),
             snd (exec (service.apiKeyService.UpdateAPIKey (Z.to_N id) req) w))
        end
    end.
Proof.
  unfold exec, api_key_handler.UpdateAPIKey.
  destruct (strconv.ParseUint10 idStr 32) as [id [e|]]; [reflexivity|].
  change (service.UpdateAPIKey (api_key_handler.apiKeyService the_handler))
    with service.apiKeyService.UpdateAPIKey.
  rewrite run_bind.
  destruct (run handle (service.apiKeyService.UpdateAPIKey (Z.to_N id) req) w)
    as [[resp|err] w1]; reflexivity.
Qed.

Lemma Update_live (now : Time) (apiKey r : APIKey) (db : gorm.DB) :
  consistent db ->
  In r (gorm.rows db) -> gorm.live r = true -> APIKey.ID r <> 0%N ->
  APIKey.ID apiKey = APIKey.ID r -> APIKey.Name apiKey <> "" ->
  repository.Update now apiKey db
  = (gorm.Make (map (fun r' => if (APIKey.ID r' =? APIKey.ID r)%N
                               then updated now apiKey r else r') (gorm.rows db))
               (gorm.seq db),
     (updated now apiKey r, None)).
Proof.
  intros Hc Hin Hlive Hnz Hid Hname. unfold repository.Update.
  rewrite Hid, (proj2 (N.eqb_neq _ _) Hnz), (string_eqb_false _ _ Hname).
  rewrite (GetByID_unique db r Hc Hnz Hin Hlive).
  rewrite (gorm_Save_existing now _ r db Hc Hin Hlive); simpl; try congruence.
  reflexivity.
Qed.

(** X21.  What [PUT /api-keys/:id] answers.  The path ID is judged before
    the body: an ID that is not a decimal number of 32 bits gets 400
    "Invalid API key ID" whatever the body; then a body that does not bind
    gets 400 "Invalid request body"; then the ID zero gets 404, a bound
    request with an empty name 400, and an ID without a live record 404,
    all with the world unchanged.  With the ID of a live record, on a table
    that satisfies its constraints, the answer is 200 with the record as
    updated, its key masked, and its ID and time of creation as they were. *)
Theorem UpdateAPIKey_handler_answers :
  forall (w : World) (idStr : string) (bound : result UpdateAPIKeyRequest),
    consistent (db w) ->
    let out := exec (api_key_handler.UpdateAPIKey the_handler idStr bound) w in
    let failed status message :=
      (status,
       api_key_handler.obj_error (ErrorResponse.Make "Failed to update API key" message)) in
    (~ parses idStr -> out = (api_key_handler.invalid_id, w))
    /\ (forall err,
          parses idStr -> bound = Err err ->
          out = ((handler.StatusBadRequest,
                  api_key_handler.obj_error
                    (ErrorResponse.Make "Invalid request body" (Error err))), w))
    /\ (forall req,
          parses idStr -> bound = Ok req ->
          (parsed_id idStr = 0%N ->
           out = (failed handler.StatusNotFound "invalid API key ID", w))
          /\ (parsed_id idStr <> 0%N -> UpdateAPIKeyRequest.Name req = "" ->
              out = (failed handler.StatusBadRequest "name is required", w))
          /\ (parsed_id idStr <> 0%N -> UpdateAPIKeyRequest.Name req <> "" ->
              (forall r, In r (gorm.rows (db w)) -> gorm.live r = true ->
                         APIKey.ID r <> parsed_id idStr) ->
              out = (failed handler.StatusNotFound "API key not found", w))
          /\ (parsed_id idStr <> 0%N -> UpdateAPIKeyRequest.Name req <> "" ->
              forall r, In r (gorm.rows (db w)) -> gorm.live r = true ->
                        APIKey.ID r = parsed_id idStr ->
                        let stored := updated (clock w) (models.FromUpdateRequest r req) r in
                        fst out = (api_key_handler.StatusOK,
                                   api_key_handler.obj_key (models.ToResponseWithoutKey stored))
                        /\ APIKeyResponse.ID (models.ToResponseWithoutKey stored)
                           = parsed_id idStr
                        /\ APIKeyResponse.Name (models.ToResponseWithoutKey stored)
                           = UpdateAPIKeyRequest.Name req
                        /\ APIKeyResponse.CreatedAt (models.ToResponseWithoutKey stored)
                           = APIKey.CreatedAt r
                        /\ In stored (gorm.rows (db (snd out))))).
Proof.
  intros w idStr bound Hc out failed. subst out failed. cbv beta.
  destruct (ParseUint10_cases idStr) as [[Hp Hparse] | [Hnp (v & e & Hparse)]].
  2:{ split.
      - intros _. unfold exec, api_key_handler.UpdateAPIKey. rewrite Hparse. reflexivity.
      - split; [intros err H; contradiction | intros req H; contradiction]. }
  split; [intros H; contradiction|]. split.
  { intros err _ ->. unfold exec, api_key_handler.UpdateAPIKey. rewrite Hparse. reflexivity. }
  intros req _ ->. rewrite UpdateAPIKey_handler_exec, Hparse. fold (parsed_id idStr).
  rewrite UpdateAPIKey_exec.
  destruct (N.eqb_spec (parsed_id idStr) 0) as [Hz|Hnz].
  { split; [reflexivity|]. repeat split; intros; contradiction. }
  split; [intros H; contradiction|].
  destruct (String.eqb_spec (UpdateAPIKeyRequest.Name req) "") as [Hname|Hname].
  { split; [reflexivity|]. split; intros; contradiction. }
  split; [intros _ H; contradiction|]. split.
  - intros _ _ Hnone. now rewrite (GetByID_not_found _ _ Hnz Hnone).
  - intros _ _ r Hin Hlive Hid stored. rewrite <- Hid in *.
    rewrite (GetByID_unique (db w) r Hc Hnz Hin Hlive). cbv zeta.
    rewrite (Update_live (clock w) (models.FromUpdateRequest r req) r (db w) Hc Hin Hlive Hnz
               eq_refl Hname).
    cbn [fst snd db with_db gorm.rows]. fold stored.
    split; [reflexivity|]. repeat (split; [reflexivity|]).
    apply in_map_iff. exists r. split; [|exact Hin]. now rewrite N.eqb_refl.
Qed.

Lemma UpdateAPIKey_handler_answers_witness :
  exec (api_key_handler.UpdateAPIKey the_handler "x1" (Ok ops_off_request)) two_keys
  = (api_key_handler.invalid_id, two_keys).
Proof.
  destruct (UpdateAPIKey_handler_answers two_keys "x1" (Ok ops_off_request)
              two_keys_consistent) as [H _].
  apply H. intros (_ & Hd & _). apply Forall_inv in Hd. discriminate Hd.
Defined.
